(** * world-events: dated, geolocated events from an "on this day" page

    A shallow embedding of [events.py] and of the parts of Python it runs
    on, followed by the properties of the extraction pipeline.

    - [Py]: Python's [str] (a list of code points), the exceptions the
      program can raise, [str.split], [str.replace], [str.strip], [in],
      [int()].
    - [Float]: Python's [float] as IEEE 754 binary64, on the Standard
      Library's [spec_float]; [int / int], [int + float], [round(x, n)].
    - [Re]: the backtracking matcher of [re] on the fragment the two
      compiled patterns use.
    - [Bs4]: the parsed document, as the tree BeautifulSoup hands out.
    - [Net]: [urllib.request.urlopen] as a logged oracle.
    - [Events]: the functions of [events.py], under their names. *)

From Stdlib Require Import String Ascii DecimalString.
From Stdlib Require Import ZArith NArith Bool Lia List.
From Stdlib Require Import SpecFloat PrimFloat FloatOps.
From Stdlib Require Import Reals Lra.
Import ListNotations.


(* ================================================================= *)
(** * Python values *)

Module Py.

(** A [str] is a sequence of Unicode code points. *)
Definition char := N.
Definition str := list char.

(** String literals of this file are UTF-8 text; [py] decodes them. *)
Fixpoint utf8_decode (bs : list N) : str :=
  match bs with
  | [] => []
  | b :: r =>
      if (b <? 128)%N then b :: utf8_decode r
      else if (b <? 224)%N then
        match r with
        | b1 :: r1 => ((b - 192) * 64 + (b1 - 128))%N :: utf8_decode r1
        | [] => []
        end
      else if (b <? 240)%N then
        match r with
        | b1 :: b2 :: r2 =>
            ((b - 224) * 4096 + (b1 - 128) * 64 + (b2 - 128))%N :: utf8_decode r2
        | _ => []
        end
      else
        match r with
        | b1 :: b2 :: b3 :: r3 =>
            ((b - 240) * 262144 + (b1 - 128) * 4096 + (b2 - 128) * 64 + (b3 - 128))%N
              :: utf8_decode r3
        | _ => []
        end
  end.

Definition py (s : String.string) : str :=
  utf8_decode (map N_of_ascii (String.list_ascii_of_string s)).

(** The exceptions that the program's calls can raise. [HTTPError] is the
    one [get_wikilink_coordinates] catches; [URLError] stands for the
    transport failures [urlopen] raises besides. *)
Inductive exn :=
| ValueError | KeyError | IndexError | TypeError
| OverflowError | ZeroDivisionError
| HTTPError (code : Z) | URLError.

Inductive result (A : Type) :=
| Ok (a : A)
| Raise (e : exn).
Arguments Ok {A} a.
Arguments Raise {A} e.

Definition bind {A B} (r : result A) (f : A -> result B) : result B :=
  match r with
  | Ok a => f a
  | Raise e => Raise e
  end.

Definition rmap {A B} (f : A -> B) (r : result A) : result B :=
  bind r (fun a => Ok (f a)).

(** [a == b] on strings. *)
Fixpoint str_eqb (a b : str) : bool :=
  match a, b with
  | [], [] => true
  | x :: a', y :: b' => (x =? y)%N && str_eqb a' b'
  | _, _ => false
  end.

(** [s.startswith(p)] *)
Fixpoint startswith (p s : str) : bool :=
  match p, s with
  | [], _ => true
  | x :: p', y :: s' => (x =? y)%N && startswith p' s'
  | _ :: _, [] => false
  end.

(** [s.partition(sep)]: the text before and after the first (leftmost)
    occurrence of [sep], [None] when [sep] does not occur. *)
Fixpoint partition (sep s : str) : option (str * str) :=
  if startswith sep s then Some ([], skipn (length sep) s)
  else match s with
       | [] => None
       | c :: s' =>
           match partition sep s' with
           | Some (a, b) => Some (c :: a, b)
           | None => None
           end
       end.

(** [sub in s] *)
Definition contains (sub s : str) : bool :=
  match partition sub s with
  | Some _ => true
  | None => false
  end.

(** [s.split(sep)] for a non-empty [sep]: cut at every occurrence, found
    left to right without overlap.  Each cut removes at least one
    character, so [length s] rounds are enough. *)
Fixpoint split_fuel (fuel : nat) (sep s : str) : list str :=
  match fuel with
  | O => [s]
  | S n =>
      match partition sep s with
      | None => [s]
      | Some (a, b) => a :: split_fuel n sep b
      end
  end.

Definition split (sep s : str) : list str := split_fuel (length s) sep s.

(** [s.split(sep, 1)] *)
Definition split1 (sep s : str) : list str :=
  match partition sep s with
  | None => [s]
  | Some (a, b) => [a; b]
  end.

(** [s.replace(old, new)] for a non-empty [old]. *)
Fixpoint replace_fuel (fuel : nat) (old new s : str) : str :=
  match fuel with
  | O => s
  | S n =>
      match partition old s with
      | None => s
      | Some (a, b) => a ++ new ++ replace_fuel n old new b
      end
  end.

Definition replace (old new s : str) : str := replace_fuel (length s) old new s.

(** [c.isspace()]: the code points Python treats as whitespace. *)
Definition isspace (c : char) : bool :=
  existsb (N.eqb c)
    [9; 10; 11; 12; 13; 28; 29; 30; 31; 32; 133; 160; 5760;
     8192; 8193; 8194; 8195; 8196; 8197; 8198; 8199; 8200; 8201; 8202;
     8232; 8233; 8239; 8287; 12288]%N.

Fixpoint lstrip (s : str) : str :=
  match s with
  | c :: s' => if isspace c then lstrip s' else s
  | [] => []
  end.

Definition rstrip (s : str) : str := rev (lstrip (rev s)).

(** [s.strip()] *)
Definition strip (s : str) : str := rstrip (lstrip s).

(** Decimal digits.  Python's [\d] and [int()] also take the decimal
    digits of other scripts (Unicode category Nd); that table belongs to
    the interpreter, and the model keeps the ASCII digits, the ones the
    English pages use. *)
Definition isdigit (c : char) : bool := (48 <=? c)%N && (c <=? 57)%N.

Definition digit_value (c : char) : Z := Z.of_N c - 48.

(** The digits of an integer literal, single underscores allowed between
    digits. *)
Fixpoint int_digits (acc : Z) (s : str) : option Z :=
  match s with
  | [] => Some acc
  | c :: s' =>
      if isdigit c then int_digits (10 * acc + digit_value c) s'
      else if (c =? 95)%N then
        match s' with
        | d :: _ => if isdigit d then int_digits acc s' else None
        | [] => None
        end
      else None
  end.

(** [int(s)] in base 10: surrounding whitespace, an optional sign, digits.
    Anything else is a [ValueError].  (The interpreter's configurable
    limit on the length of the digit string is not part of the model.) *)
Definition int (s : str) : result Z :=
  let t := strip s in
  let '(neg, body) :=
    match t with
    | c :: r => if (c =? 45)%N then (true, r)
                else if (c =? 43)%N then (false, r) else (false, t)
    | [] => (false, [])
    end in
  match body with
  | c :: _ =>
      if isdigit c then
        match int_digits 0 body with
        | Some v => Ok (if neg then (- v)%Z else v)
        | None => Raise ValueError
        end
      else Raise ValueError
  | [] => Raise ValueError
  end.

(** [str(n)] of an [int], as an f-string formats it. *)
Definition str_of_int (n : Z) : str :=
  py (DecimalString.NilZero.string_of_int (Z.to_int n)).

(** [l[i]] *)
Definition index {A} (l : list A) (i : nat) : result A :=
  match nth_error l i with
  | Some a => Ok a
  | None => Raise IndexError
  end.

(** [l[-1]] *)
Definition index_last {A} (l : list A) : result A :=
  match rev l with
  | a :: _ => Ok a
  | [] => Raise IndexError
  end.

End Py.
Import Py.

Notation "x <- c ;; k" := (bind c (fun x => k))
  (at level 61, c at next level, right associativity).

(* ================================================================= *)
(** * Python's float: IEEE 754 binary64 *)

Module Float.

(** A [float] is a binary64 value, in the representation of the Standard
    Library's specification of floating-point arithmetic: a signed zero,
    a signed infinity, NaN, or [(-1)^s * m * 2^e]. *)
Definition float := spec_float.

Definition add : float -> float -> float := SFadd prec emax.
Definition mul : float -> float -> float := SFmul prec emax.
Definition neg : float -> float := SFopp.
Definition leb : float -> float -> bool := SFleb.

(** Python raises [OverflowError] where C would produce an infinity out
    of an integer. *)
Definition finite_or_overflow (x : float) : result float :=
  match x with
  | S754_infinity _ => Raise OverflowError
  | _ => Ok x
  end.

(** [float(n)] of an [int], as the mixed operators [int + float] and
    [float * int] convert their integer operand: the nearest binary64
    value, ties to even, [OverflowError] beyond the range. *)
Definition of_int (n : Z) : result float :=
  finite_or_overflow (binary_normalize prec emax n 0 false).

(** The correctly rounded quotient of two positive integers, with the
    sign [s]: the quotient and its remainder are taken with enough bits,
    then rounded to nearest, ties to even. *)
Definition div_pos (s : bool) (a b : Z) : float :=
  let '(q, e, l) := SFdiv_core_binary prec emax a 0 b 0 in
  binary_round_aux prec emax s q e l.

(** [a / b] on two [int]s (true division): the correctly rounded
    quotient of the two integers. *)
Definition true_divide (a b : Z) : result float :=
  if (b =? 0)%Z then Raise ZeroDivisionError
  else if (a =? 0)%Z then Ok (S754_zero (b <? 0)%Z)
  else
    finite_or_overflow
      (div_pos (xorb (a <? 0)%Z (b <? 0)%Z) (Z.abs a) (Z.abs b)).

(** The integer nearest to [n / d] for [0 < d], ties to the even one. *)
Definition round_half_even (n d : Z) : Z :=
  let q := (n / d)%Z in
  match (2 * (n mod d) ?= d)%Z with
  | Lt => q
  | Gt => (q + 1)%Z
  | Eq => if Z.even q then q else (q + 1)%Z
  end.

(** [round(x, ndigits)] for [0 <= ndigits]: the decimal with [ndigits]
    places nearest to the exact value of [x] (ties to the even digit),
    converted back to the nearest binary64 value.  Zeros, infinities and
    NaN round to themselves, and so does a value with a non-negative
    exponent, which is an integer. *)
Definition round (x : float) (ndigits : Z) : result float :=
  match x with
  | S754_finite s m e =>
      if (0 <=? e)%Z then Ok x
      else
        let k := round_half_even (Zpos m * 10 ^ ndigits) (2 ^ (- e)) in
        if (k =? 0)%Z then Ok (S754_zero s)
        else finite_or_overflow (div_pos s k (10 ^ ndigits))
  | _ => Ok x
  end.

End Float.

(* ================================================================= *)
(** * The regular expressions of [re] *)

Module Re.

(** The fragment of the pattern language that [EVENT_RE] and [COORD_RE]
    are written in. *)
Inductive regex :=
| Eps                         (* the empty pattern *)
| Chr (c : char)              (* a literal character *)
| Digit                       (* \d *)
| CharSet (cs : str)          (* [...]: any one of the listed characters *)
| Bol                         (* ^ *)
| Seq (r1 r2 : regex)
| Star (r : regex)            (* r*, greedy *)
| Group (n : nat) (r : regex) (* the n-th capturing group *).

(** r+ *)
Definition Plus (r : regex) : regex := Seq r (Star r).

(** A run of literal characters. *)
Fixpoint Lit (s : str) : regex :=
  match s with
  | [] => Eps
  | [c] => Chr c
  | c :: s' => Seq (Chr c) (Lit s')
  end.

(** The groups captured so far, latest first. *)
Definition captures := list (nat * str).

Definition group (n : nat) (c : captures) : option str :=
  match find (fun p => Nat.eqb (fst p) n) c with
  | Some p => Some (snd p)
  | None => None
  end.

(** What a pattern does at an offset: given the offset [i], the text
    from [i] on and the captures, it hands the offset, text and captures
    after its match to a continuation, or fails. *)
Definition cont := nat -> str -> captures -> option captures.
Definition matcher := nat -> str -> captures -> cont -> option captures.

(** A greedy star: one more round of [body] first, which must consume
    something, then the continuation.  Every round consumes a character,
    so [fuel] rounds, the length of the text, are enough. *)
Fixpoint rounds (body : matcher) (k : cont) (fuel : nat)
  (i : nat) (s : str) (c : captures) {struct fuel} : option captures :=
  match fuel with
  | O => k i s c
  | S fuel' =>
      match body i s c
              (fun i' s' c' =>
                 if Nat.ltb i i' then rounds body k fuel' i' s' c' else None) with
      | Some m => Some m
      | None => k i s c
      end
  end.

(** The matcher: [run r i s c k] matches [r] at offset [i], where [s] is
    the text from [i] on; alternatives are tried in the order of the
    backtracking engine, and the first success is the answer. *)
Fixpoint run (r : regex) (i : nat) (s : str) (c : captures) (k : cont)
  {struct r} : option captures :=
  match r with
  | Eps => k i s c
  | Chr a =>
      match s with
      | x :: s' => if (x =? a)%N then k (S i) s' c else None
      | [] => None
      end
  | Digit =>
      match s with
      | x :: s' => if isdigit x then k (S i) s' c else None
      | [] => None
      end
  | CharSet cs =>
      match s with
      | x :: s' => if existsb (N.eqb x) cs then k (S i) s' c else None
      | [] => None
      end
  | Bol => if Nat.eqb i 0 then k i s c else None
  | Seq r1 r2 => run r1 i s c (fun i' s' c' => run r2 i' s' c' k)
  | Star r1 => rounds (run r1) k (length s) i s c
  | Group n r1 =>
      run r1 i s c (fun i' s' c' => k i' s' ((n, firstn (i' - i) s) :: c'))
  end.

(** [pattern.match(text)]: a match at the start of the text. *)
Definition rmatch (r : regex) (text : str) : option captures :=
  run r 0 text [] (fun _ _ c => Some c).

(** [re.search(pattern, text)]: the match at the leftmost offset that has
    one. *)
Fixpoint search_from (r : regex) (i : nat) (s : str) : option captures :=
  match run r i s [] (fun _ _ c => Some c) with
  | Some m => Some m
  | None =>
      match s with
      | [] => None
      | _ :: s' => search_from r (S i) s'
      end
  end.

Definition search (r : regex) (text : str) : option captures :=
  search_from r 0 text.

End Re.

(* ================================================================= *)
(** * The parsed document *)

Module Bs4.

(** An attribute holds a string, or a list of strings for the
    multi-valued attributes ([class], [rel], ...). *)
Inductive attr_value :=
| AttrStr (s : str)
| AttrList (l : list str).

(** A node of the tree: a piece of text or an element. *)
#[warnings="-register-all"]
Inductive node :=
| NavigableString (s : str)
| Tag (name : str) (attrs : list (str * attr_value)) (contents : list node).

Definition is_tag (name : str) (n : node) : bool :=
  match n with
  | Tag nm _ _ => str_eqb nm name
  | NavigableString _ => false
  end.

(** [tag.text]: the strings below the node, in document order. *)
Fixpoint text (n : node) : str :=
  match n with
  | NavigableString s => s
  | Tag _ _ kids => concat (map text kids)
  end.

(** [tag.find_all(name)] and [tag.select(name)]: the elements of that
    name below the node, in document order. *)
Fixpoint select (name : str) (n : node) : list node :=
  match n with
  | NavigableString _ => []
  | Tag _ _ kids =>
      flat_map (fun k => (if is_tag name k then [k] else []) ++ select name k) kids
  end.

(** [for t in tag.find_all(name): t.decompose()]: the node without the
    elements of that name below it. *)
Fixpoint decompose_all (name : str) (n : node) : node :=
  match n with
  | NavigableString _ => n
  | Tag nm attrs kids =>
      Tag nm attrs
        ((fix keep (l : list node) : list node :=
            match l with
            | [] => []
            | k :: l' =>
                if is_tag name k then keep l' else decompose_all name k :: keep l'
            end) kids)
  end.

(** [tag[key]]: a [KeyError] when the element has no such attribute. *)
Definition get_item (n : node) (key : str) : result attr_value :=
  match n with
  | Tag _ attrs _ =>
      match find (fun p => str_eqb (fst p) key) attrs with
      | Some p => Ok (snd p)
      | None => Raise KeyError
      end
  | NavigableString _ => Raise TypeError
  end.

(** Markup output with the default formatter: [&], [<] and [>] become
    entities. *)
Definition escape (s : str) : str :=
  flat_map (fun c => if (c =? 38)%N then py "&amp;"
                     else if (c =? 60)%N then py "&lt;"
                     else if (c =? 62)%N then py "&gt;"
                     else [c]) s.

Definition quote : str := [34%N].

Definition attr_text (v : attr_value) : str :=
  match v with
  | AttrStr s => s
  | AttrList l => concat (map (fun s => s ++ py " ") (removelast l)) ++ last l []
  end.

Definition void_elements : list str :=
  map py ["area"; "base"; "br"; "col"; "embed"; "hr"; "img"; "input";
          "link"; "meta"; "param"; "source"; "track"; "wbr"]%string.

(** [tag.decode()] *)
Fixpoint decode (n : node) : str :=
  match n with
  | NavigableString s => escape s
  | Tag nm attrs kids =>
      let open :=
        py "<" ++ nm
        ++ flat_map (fun p => py " " ++ fst p ++ py "=" ++ quote
                              ++ escape (attr_text (snd p)) ++ quote) attrs in
      if existsb (str_eqb nm) void_elements then open ++ py "/>"
      else open ++ py ">" ++ concat (map decode kids) ++ py "</" ++ nm ++ py ">"
  end.

(** [tag.decode_contents()]: the markup inside the element. *)
Definition decode_contents (n : node) : str :=
  match n with
  | NavigableString s => escape s
  | Tag _ _ kids => concat (map decode kids)
  end.

End Bs4.

(* ================================================================= *)
(** * The network *)

Module Net.

(** What [urlopen(url)] does: it returns a response, with a status and
    the outcome of reading its JSON body's ["source"] field
    ([json.loads(response.read())['source']], which raises on a body that
    is no such object), or it raises. *)
Inductive outcome :=
| Responds (status : Z) (source : result str)
| Fails (e : exn).

(** The world a request runs in.  [page url] is what the day page at
    [url] yields once fetched, parsed and cut at its "Births" heading:
    the list items selected under the content region (lines 49-62 of
    [events.py]), or the exception the fetch raises.  The items are given
    as trees of their own: an item nested in another one is listed with
    its subtree, and none lies inside a [sup] element of another, which
    line 71 would destroy before its turn.  [lookup] answers the
    secondary requests. *)
Record world := {
  page : str -> result (list Bs4.node);
  lookup : str -> outcome
}.

(** A computation that may raise and that logs the URLs it requests,
    oldest first. *)
Definition M (A : Type) := list str -> result A * list str.

Definition ret {A} (a : A) : M A := fun log => (Ok a, log).

Definition raise {A} (e : exn) : M A := fun log => (Raise e, log).

Definition mbind {A B} (m : M A) (f : A -> M B) : M B :=
  fun log =>
    match m log with
    | (Ok a, log') => f a log'
    | (Raise e, log') => (Raise e, log')
    end.

Definition lift {A} (r : result A) : M A := fun log => (r, log).

(** [request.urlopen(url)] on the secondary endpoint. *)
Definition urlopen (w : world) (url : str) : M (Z * result str) :=
  fun log =>
    (match lookup w url with
     | Responds status source => Ok (status, source)
     | Fails e => Raise e
     end, log ++ [url]).

(** The fetch of the day page. *)
Definition fetch_page (w : world) (url : str) : M (list Bs4.node) :=
  fun log => (page w url, log ++ [url]).

(** [try: m  except HTTPError: handler] *)
Definition except_HTTPError {A} (m : M A) (handler : M A) : M A :=
  fun log =>
    match m log with
    | (Raise (HTTPError _), log') => handler log'
    | r => r
    end.

End Net.
Import Net.

Notation "x <~ c ;; k" := (mbind c (fun x => k))
  (at level 61, c at next level, right associativity).

(* ================================================================= *)
(** * events.py *)

Module Events.
Import Float Re Bs4.

Definition MONTHS_WITH_DAYS : list (str * Z) :=
  [(py "January", 31); (py "February", 29); (py "March", 31);
   (py "April", 30); (py "May", 31); (py "June", 30); (py "July", 31);
   (py "August", 31); (py "September", 30); (py "October", 31);
   (py "November", 30); (py "December", 31)]%Z.

(** [re.compile(r'^(\d+)( BC)* –')] *)
Definition EVENT_RE : regex :=
  Seq Bol
    (Seq (Group 1 (Plus Digit))
       (Seq (Star (Group 2 (Lit (py " BC")))) (Lit (py " –")))).

(** An event; [month] and [day] are absent from the events that
    [get_events_with_locations] builds ([TypedDict], [total=False]). *)
Record Event := {
  day : option Z;
  month : option str;
  year : Z;
  description : str;
  longitude : float;
  latitude : float
}.

Definition WIKI_API : str := py "https://en.wikipedia.org/w/rest.php/v1/page/".

(** One half of [COORD_RE]: [\d+\|\d+\|\d+\|[...]] *)
Definition dms_pattern (hemispheres : str) : regex :=
  Seq (Plus Digit) (Seq (Chr 124%N)
    (Seq (Plus Digit) (Seq (Chr 124%N)
       (Seq (Plus Digit) (Seq (Chr 124%N) (CharSet hemispheres)))))).

(** [re.compile(r'coord\|(\d+\|\d+\|\d+\|[N|S])\|(\d+\|\d+\|\d+\|[E|W])')] *)
Definition COORD_RE : regex :=
  Seq (Lit (py "coord|"))
    (Seq (Group 1 (dms_pattern (py "N|S")))
       (Seq (Chr 124%N) (Group 2 (dms_pattern (py "E|W"))))).

Record Coordinates := {
  coord_latitude : float;
  coord_longitude : float
}.

(** [dec *= -1] and the like: a float times an [int]. *)
Definition mul_int (x : float) (n : Z) : result float :=
  f <- of_int n ;; Ok (mul x f).

Definition deg_to_dec (degrees minutes seconds : Z) (hemisphere : str)
  : result float :=
  m <- true_divide minutes 60 ;;
  d <- of_int degrees ;;
  s <- true_divide seconds 3600 ;;
  dec <- round (add (add d m) s) 4 ;;
  if existsb (str_eqb hemisphere) [py "S"; py "W"] then mul_int dec (-1)
  else Ok dec.

(** [deg_to_dec(int(p[0]), int(p[1]), int(p[2]), p[3])] *)
Definition convert_fields (p : list str) : result float :=
  p0 <- index p 0 ;; degrees <- int p0 ;;
  p1 <- index p 1 ;; minutes <- int p1 ;;
  p2 <- index p 2 ;; seconds <- int p2 ;;
  hemisphere <- index p 3 ;;
  deg_to_dec degrees minutes seconds hemisphere.

(** [m[n]] on a match whose group [n] took part. *)
Definition match_group (m : captures) (n : nat) : result str :=
  match group n m with
  | Some g => Ok g
  | None => Raise TypeError
  end.

(** Lines 167-178 of [get_wikilink_coordinates]: the coordinates that the
    page source [data] holds. *)
Definition coordinates_of_source (data : str) : result (option Coordinates) :=
  match search COORD_RE data with
  | None => Ok None
  | Some coordinates =>
      g1 <- match_group coordinates 1 ;;
      g2 <- match_group coordinates 2 ;;
      let latitude := split (py "|") g1 in
      let longitude := split (py "|") g2 in
      lat <- convert_fields latitude ;;
      lon <- convert_fields longitude ;;
      Ok (Some {| coord_latitude := lat; coord_longitude := lon |})
  end.

Definition get_wikilink_coordinates (w : world) (ref : node)
  : M (option Coordinates) :=
  href <~ lift (get_item ref (py "href")) ;;
  let page_url :=
    match href with
    | AttrStr s => s
    | AttrList l => match l with u :: _ => u | [] => [] end
    end in
  if negb (contains (py "wiki/") page_url) then ret None
  else
    page_title <~ lift (index_last (split (py "wiki/") page_url)) ;;
    let url := WIKI_API ++ page_title in
    except_HTTPError
      (response <~ urlopen w url ;;
       let '(status, source) := response in
       if negb (status =? 200)%Z then ret None
       else
         data <~ lift source ;;
         lift (coordinates_of_source data))
      (ret None).

(** Lines 92-100 of [get_events_with_locations]: the year of an entry
    with the text [text]. *)
Definition parse_year (text : str) : result Z :=
  match split1 (py " – ") text with
  | [year; _] =>
      let year := strip year in
      if contains (py "BC") year then
        n <- int (replace (py " BC") [] year) ;; Ok (- n)%Z
      else int year
  | _ => Raise ValueError
  end.

(** Lines 103-105.  The pattern of [re.sub] is a run of literal
    characters, so the substitution is a [str.replace]. *)
Definition parse_description (event_tag : node) : result str :=
  d <- index (split1 (py " – ") (decode_contents event_tag)) 1 ;;
  Ok (replace (py "href=" ++ quote ++ py "/wiki/")
        (py "href=" ++ quote ++ py "https://en.wikipedia.org/wiki/") d).

(** The loop of lines 113-123. *)
Fixpoint resolve_links (w : world) (year : Z) (description : str)
  (links : list node) (total_wiki_calls : Z) (events : list Event)
  : M (Z * list Event) :=
  match links with
  | [] => ret (total_wiki_calls, events)
  | link :: rest =>
      coordinates <~ get_wikilink_coordinates w link ;;
      resolve_links w year description rest (total_wiki_calls + 1)
        match coordinates with
        | Some c =>
            events ++ [ {| day := None; month := None; year := year;
                           description := description;
                           longitude := coord_longitude c;
                           latitude := coord_latitude c |} ]
        | None => events
        end
  end.

Definition get_events_with_locations (w : world) (event_tag : node)
  : M (Z * list Event) :=
  year <~ lift (parse_year (text event_tag)) ;;
  description <~ lift (parse_description event_tag) ;;
  resolve_links w year description (select (py "a") event_tag) 0 [].

(** [EVENT_RE.match(x.text)], the filter of line 63. *)
Definition is_event_item (x : node) : bool :=
  match rmatch EVENT_RE (text x) with
  | Some _ => true
  | None => false
  end.

(** [{**x, 'month': month, 'day': day}] *)
Definition with_date (month : str) (day : Z) (x : Event) : Event :=
  {| day := Some day; month := Some month; year := year x;
     description := description x;
     longitude := longitude x; latitude := latitude x |}.

(** The loop of lines 68-81. *)
Fixpoint collect_events (w : world) (month : str) (day : Z)
  (event_items : list node) (total_wiki_calls : Z) (events_on_day : list Event)
  : M (Z * list Event) :=
  match event_items with
  | [] => ret (total_wiki_calls, events_on_day)
  | list_item :: rest =>
      let list_item := decompose_all (py "sup") list_item in
      r <~ get_events_with_locations w list_item ;;
      collect_events w month day rest (total_wiki_calls + fst r)
        (events_on_day ++ map (with_date month day) (snd r))
  end.

Definition day_url (month : str) (day : Z) : str :=
  py "https://en.wikipedia.org/wiki/" ++ month ++ py "_" ++ str_of_int day.

Definition get_events_on_day (w : world) (month : str) (day : Z)
  : M (Z * list Event) :=
  all_list_items <~ fetch_page w (day_url month day) ;;
  let event_items := filter is_event_item all_list_items in
  collect_events w month day event_items 1 [].

End Events.
Import Events.

(* ================================================================= *)
(** * Vocabulary of the properties *)

Import Float Re Bs4.
Open Scope Z_scope.

(** ** Floating point *)

Definition fexp64 (e : Z) : Z := Z.max (e - 53) (-1074).

Definition loc_ok (l : location) (t u : Z) : Prop :=
  0 <= t < u /\
  match l with
  | loc_Exact => t = 0
  | loc_Inexact Lt => 0 < t /\ 2 * t < u
  | loc_Inexact Eq => 2 * t = u
  | loc_Inexact Gt => u < 2 * t
  end.

Definition mk_float (s : bool) (m e : Z) : float :=
  match m with
  | Z0 => S754_zero s
  | Zpos p => if e <=? 971 then S754_finite s p e else S754_infinity s
  | Zneg _ => S754_nan
  end.

Definition bpow (e : Z) : R := powerRZ 2 e.

Definition sgn (s : bool) : R := (if s then -1 else 1)%R.

Definition SF2R (x : float) : R :=
  match x with
  | S754_finite s m e => (sgn s * IZR (Zpos m) * bpow e)%R
  | _ => 0%R
  end.

(** zero or finite, with the sign bit [s] *)
Definition finite_signed (s : bool) (x : float) : Prop :=
  match x with
  | S754_zero s' => s' = s
  | S754_finite s' _ _ => s' = s
  | _ => False
  end.

Ltac push_IZR_in H :=
  repeat (rewrite opp_IZR in H || rewrite mult_IZR in H
          || rewrite minus_IZR in H || rewrite plus_IZR in H).

Ltac push_IZR :=
  repeat (rewrite opp_IZR || rewrite mult_IZR || rewrite minus_IZR || rewrite plus_IZR).

Definition sign_false (x : float) : bool :=
  match x with
  | S754_zero false | S754_finite false _ _ | S754_infinity false => true
  | _ => false
  end.

Definition minus_one : float := S754_finite true 4503599627370496 (-52).

Definition exact_dms (d m s : Z) : R := (IZR d + IZR m / 60 + IZR s / 3600)%R.

Definition south_or_west (h : str) : bool := existsb (str_eqb h) [py "S"; py "W"].

Definition is_finite (x : float) : bool :=
  match x with
  | S754_zero _ | S754_finite _ _ _ => true
  | _ => false
  end.

(** The conversion as the specification words it: the rounded sum,
    negated in the southern and western hemispheres. *)
Definition deg_to_dec_spec (degrees minutes seconds : Z) (hemisphere : str)
  : result float :=
  m <- true_divide minutes 60 ;;
  d <- of_int degrees ;;
  s <- true_divide seconds 3600 ;;
  dec <- round (add (add d m) s) 4 ;;
  Ok (if str_eqb hemisphere (py "S") || str_eqb hemisphere (py "W")
      then neg dec else dec).

(** [0.0] *)
Definition zero : float := S754_zero false.

(** The sign a hemisphere gives a coordinate. *)
Definition hemisphere_sign (h : str) : R :=
  if south_or_west h then (-1)%R else 1%R.

(** ** Strings *)

(** The value of a run of decimal digits. *)
Definition digits_value (ds : str) : Z :=
  fold_left (fun acc c => 10 * acc + digit_value c) ds 0.

(** [k] copies of " BC". *)
Definition rep_BC (k : nat) : str := concat (repeat (py " BC") k).

Definition en_dash : char := 8211%N.

(** [a] put in front of the first half of a partition. *)
Definition prepend (pre : str) (r : option (str * str)) : option (str * str) :=
  match r with
  | Some (a, b) => Some (pre ++ a, b)
  | None => None
  end.

(** The text after its leading digits. *)
Fixpoint skip_digits (t : str) : str :=
  match t with
  | x :: t' => if isdigit x then skip_digits t' else t
  | [] => []
  end.

(** The shape [^\d+( BC)? – ]: digits, at most one " BC", and a dash
    between two spaces. *)
Definition claimed_shape (t : str) : bool :=
  match t with
  | x :: t' =>
      isdigit x
      && (let rest := skip_digits t' in
          startswith (py " – ") rest || startswith (py " BC – ") rest)
  | [] => false
  end.

(** ** Regular expressions *)

(** The language of a pattern: the texts it can match, whatever the
    offset and whatever comes after. *)
Inductive lang : regex -> str -> Prop :=
| lang_Eps : lang Eps []
| lang_Chr a : lang (Chr a) [a]
| lang_Digit x : isdigit x = true -> lang Digit [x]
| lang_CharSet cs x : existsb (N.eqb x) cs = true -> lang (CharSet cs) [x]
| lang_Bol : lang Bol []
| lang_Seq r1 r2 s1 s2 : lang r1 s1 -> lang r2 s2 -> lang (Seq r1 r2) (s1 ++ s2)
| lang_Star_nil r : lang (Star r) []
| lang_Star_cons r s1 s2 : lang r s1 -> lang (Star r) s2 -> lang (Star r) (s1 ++ s2)
| lang_Group n r s : lang r s -> lang (Group n r) s.

(** [r] matches [s1] in front of [rest] at its first try, and turns the
    captures [c] into [f c]: whenever the continuation accepts what is
    left, that is the result of the match. *)
Definition greedy (r : regex) (s1 rest : str) (f : captures -> captures) : Prop :=
  forall i c k res,
    k (i + length s1)%nat rest (f c) = Some res ->
    run r i (s1 ++ rest) c k = Some res.

(** The text does not start with a digit. *)
Definition no_digit_ahead (s : str) : Prop :=
  match s with
  | [] => True
  | x :: _ => isdigit x = false
  end.

(** ** The year of an entry, as the specification words it *)

(** The token before the first " – ", stripped; "BC" removed and the
    integer negated when the token contains it, the integer otherwise. *)
Definition parse_year_spec (text : str) : result Z :=
  match partition (py " – ") text with
  | None => Raise ValueError
  | Some (token, _) =>
      let token := strip token in
      if contains (py "BC") token then
        n <- int (replace (py "BC") [] token) ;; Ok (- n)
      else int token
  end.

(** The text does not start with a space. *)
Definition no_space_ahead (s : str) : Prop :=
  match s with
  | [] => True
  | x :: _ => x <> 32%N
  end.

(** ** Example pages *)

Definition li (kids : list node) : node := Tag (py "li") [] kids.

Definition a_href (href label : str) : node :=
  Tag (py "a") [(py "href", AttrStr href)] [NavigableString label].

(** An anchor without a target: [<a name="note">*</a>]. *)
Definition a_name : node :=
  Tag (py "a") [(py "name", AttrStr (py "note"))] [NavigableString (py "*")].

(** A world whose every day page lists [items] and whose secondary
    endpoint answers with [lookup]. *)
Definition world_of (items : list node) (lookup : str -> outcome) : world :=
  {| page := fun _ => Ok items; lookup := lookup |}.

Definition not_found : str -> outcome := fun _ => Fails (HTTPError 404).

(** A day page with one entry, whose only link is an anchor. *)
Definition anchor_world : world :=
  world_of [li [NavigableString (py "1776 – Independence"); a_name]] not_found.

(** ** Coordinate directives *)

Definition pipe : char := 124%N.

(** A non-empty run of decimal digits. *)
Definition digit_run (ds : str) : Prop := ds <> [] /\ forallb isdigit ds = true.

(** [d|m|s|H] *)
Definition dms_text (d m s : str) (h : char) : str :=
  d ++ [pipe] ++ m ++ [pipe] ++ s ++ [pipe] ++ [h].

(** The directive [coord|d1|m1|s1|H1|d2|m2|s2|H2]. *)
Definition directive (d1 m1 s1 : str) (h1 : char) (d2 m2 s2 : str) (h2 : char) : str :=
  py "coord|" ++ dms_text d1 m1 s1 h1 ++ [pipe] ++ dms_text d2 m2 s2 h2.

(** The angle that [d|m|s|H] writes, in degrees. *)
Definition encoded_angle (d m s : str) (h : char) : R :=
  (hemisphere_sign [h] * exact_dms (digits_value d) (digits_value m) (digits_value s))%R.

(** The angle that [d|m|s] writes, in seconds of arc. *)
Definition arc_seconds (d m s : str) : Z :=
  3600 * digits_value d + 60 * digits_value m + digits_value s.

(** ** The day request *)

(** The links of an entry, once its citations are removed. *)
Definition links_of (list_item : node) : list node :=
  select (py "a") (decompose_all (py "sup") list_item).

(** One call for the day page and one for each link of each entry. *)
Definition expected_calls (items : list node) : Z :=
  1 + Z.of_nat (length (flat_map links_of (filter is_event_item items))).

Definition returns {A} (r : result A) : bool :=
  match r with
  | Ok _ => true
  | Raise _ => false
  end.

(** The resolver returns on the link, with coordinates or without. *)
Definition link_resolves (w : world) (link : node) : bool :=
  returns (fst (get_wikilink_coordinates w link [])).

(** The entry has a year and a description, and its links resolve. *)
Definition entry_resolves (w : world) (list_item : node) : bool :=
  let list_item := decompose_all (py "sup") list_item in
  returns (parse_year (text list_item))
  && returns (parse_description list_item)
  && forallb (link_resolves w) (select (py "a") list_item).

(** ** Coordinates in range *)

(** A finite float within [bound] of zero. *)
Definition in_range (bound : Z) (x : float) : Prop :=
  is_finite x = true /\ (- IZR bound <= SF2R x <= IZR bound)%R.

Definition located (ev : Event) : Prop :=
  in_range 90 (latitude ev) /\ in_range 180 (longitude ev).

(** The two runs of fields of the first directive of a page source. *)
Definition directive_fields (data : str) : option (list str * list str) :=
  match search COORD_RE data with
  | Some m =>
      match group 1 m, group 2 m with
      | Some g1, Some g2 => Some (split (py "|") g1, split (py "|") g2)
      | _, _ => None
      end
  | None => None
  end.

Definition field_int (p : list str) (i : nat) : result Z :=
  f <- index p i ;; int f.

(** The degrees, minutes and seconds of a run of fields, where they are
    numbers, are not negative and make an angle of at most [bound]
    degrees. *)
Definition angle_within (bound : Z) (p : list str) : bool :=
  match field_int p 0, field_int p 1, field_int p 2 with
  | Ok d, Ok m, Ok s =>
      (0 <=? d) && (0 <=? m) && (0 <=? s) && (3600 * d + 60 * m + s <=? 3600 * bound)
  | _, _, _ => true
  end.

(** Every directive that the secondary endpoint serves is a place on the
    globe: a latitude of at most 90 degrees and a longitude of at most
    180. *)
Definition geographic (w : world) : Prop :=
  forall url data lat lon,
    lookup w url = Responds 200 (Ok data) ->
    directive_fields data = Some (lat, lon) ->
    angle_within 90 lat = true /\ angle_within 180 lon = true.

(** A day page with one entry and one link, and an endpoint that serves
    [source] for every title. *)
Definition one_link_world (source : str) : world :=
  world_of [li [NavigableString (py "44 BC – "); a_href (py "/wiki/Rome") (py "Rome")]]
    (fun _ => Responds 200 (Ok source)).

Definition rome_world : world := one_link_world (py "{{coord|41|53|36|N|12|28|58|E}}").

Definition polar_world : world := one_link_world (py "{{coord|91|0|0|N|0|0|0|E}}").

(** A day page with three items, one of them no entry; the first entry
    has a citation, the second a link to another site. *)
Definition mixed_items : list node :=
  [ li [NavigableString (py "1776 – The ");
        a_href (py "/wiki/United_States") (py "United States");
        NavigableString (py " declares independence.");
        Tag (py "sup") [] [a_href (py "#cite_note-1") (py "[1]")]];
    li [NavigableString (py "Edmund Burke is born.")];
    li [NavigableString (py "44 BC – ");
        a_href (py "/wiki/Rome") (py "Rome");
        a_href (py "http://example.org/") (py "x")] ].

(** An endpoint that knows Rome and nothing else. *)
Definition mixed_world : world :=
  world_of mixed_items
    (fun url =>
       if str_eqb url (WIKI_API ++ py "Rome")
       then Responds 200 (Ok (py "{{coord|41|53|36|N|12|28|58|E}}"))
       else Fails (HTTPError 404)).

(** The event of the entry of [one_link_world], at the given place. *)
Definition rome_event (lat lon : float) : Event :=
  {| day := Some 4; month := Some (py "July"); year := -44;
     description := py "<a href=" ++ quote ++ py "https://en.wikipedia.org/wiki/Rome"
                    ++ quote ++ py ">Rome</a>";
     longitude := lon; latitude := lat |}.

(** The event that [rome_world] yields: Rome, at 41.8933 north and
    12.4828 east. *)
#[warnings="-inexact-float"] Definition rome_place : Event :=
  rome_event (Prim2SF 41.8933%float) (Prim2SF 12.4828%float).

(** The event that [polar_world] yields, at latitude 91.0. *)
Definition polar_place : Event :=
  rome_event (S754_finite false 6403555720167424 (-46)) zero.

(** ** The requests and the events of a day *)

(** The URL that the resolver requests for a link, when it requests
    one (lines 145-157 of [events.py]). *)
Definition lookup_url (link : node) : option str :=
  match get_item link (py "href") with
  | Ok href =>
      let page_url :=
        match href with
        | AttrStr s => s
        | AttrList l => match l with u :: _ => u | [] => [] end
        end in
      if contains (py "wiki/") page_url then
        match index_last (split (py "wiki/") page_url) with
        | Ok page_title => Some (WIKI_API ++ page_title)
        | Raise _ => None
        end
      else None
  | Raise _ => None
  end.

Definition requests_of (link : node) : list str :=
  match lookup_url link with
  | Some url => [url]
  | None => []
  end.

(** The event that lines 116-122 build. *)
Definition event_at (year : Z) (description : str) (c : Coordinates) : Event :=
  {| day := None; month := None; year := year; description := description;
     longitude := coord_longitude c; latitude := coord_latitude c |}.

(** The events of the links that resolve to coordinates, in order. *)
Definition link_events (w : world) (year : Z) (description : str) (links : list node)
  : list Event :=
  flat_map
    (fun link =>
       match fst (get_wikilink_coordinates w link []) with
       | Ok (Some c) => [event_at year description c]
       | _ => []
       end)
    links.

(** The events of an entry that has a year and a description. *)
Definition entry_events (w : world) (list_item : node) : list Event :=
  let list_item := decompose_all (py "sup") list_item in
  match parse_year (text list_item), parse_description list_item with
  | Ok year, Ok description =>
      link_events w year description (select (py "a") list_item)
  | _, _ => []
  end.

(** The nearest integer to 10000 times an angle of [n] seconds of arc:
    25 n / 9, which is never half-way between two integers. *)
Definition ten_thousandths (n : Z) : Z := (25 * n + 4) / 9.




(** The outcome and the log of the day of [mixed_world]. *)
Definition mixed_day : result (Z * list Event) * list str :=
  Eval vm_compute in get_events_on_day mixed_world (py "July") 4 [].

Definition mixed_events : list Event :=
  match fst mixed_day with
  | Ok (_, evs) => evs
  | Raise _ => []
  end.

(** ** What the decoder reads *)




(* ================================================================= *)
(** * Binary64 arithmetic: rounding, validity, error bounds *)

(* ---------- digits ---------- *)
Lemma fexp64_eq e : fexp prec emax e = fexp64 e.
Proof. reflexivity. Qed.

Lemma digits2_pos_size p : digits2_pos p = Pos.size p.
Proof. induction p; simpl; congruence. Qed.

Lemma Zdigits2_log2 m : 0 < m -> Zdigits2 m = Z.log2 m + 1.
Proof.
  destruct m as [|p|p]; try lia. intros _. simpl.
  rewrite digits2_pos_size. destruct p; simpl; lia.
Qed.

Lemma Zdigits2_0 : Zdigits2 0 = 0.
Proof. reflexivity. Qed.

Lemma Zdigits2_nonneg m : 0 <= Zdigits2 m.
Proof. destruct m; simpl; lia. Qed.

Lemma Zdigits2_bounds m : 0 < m -> 2 ^ (Zdigits2 m - 1) <= m < 2 ^ Zdigits2 m.
Proof.
  intros H. rewrite Zdigits2_log2 by assumption.
  replace (Z.log2 m + 1 - 1) with (Z.log2 m) by lia.
  replace (Z.log2 m + 1) with (Z.succ (Z.log2 m)) by lia.
  apply Z.log2_spec; assumption.
Qed.

Lemma Zdigits2_le_of_lt m k : 0 <= m -> 0 <= k -> m < 2 ^ k -> Zdigits2 m <= k.
Proof.
  intros Hm Hk H. destruct (Z.eq_dec m 0) as [->|]; [simpl; lia|].
  rewrite Zdigits2_log2 by lia.
  assert (Z.log2 m < k) by (apply Z.log2_lt_pow2; lia). lia.
Qed.

Lemma Zdigits2_ge_of_le m k : 0 <= k -> 2 ^ k <= m -> k + 1 <= Zdigits2 m.
Proof.
  intros Hk H. assert (0 < m) by (pose proof (Z.pow_pos_nonneg 2 k); lia).
  rewrite Zdigits2_log2 by lia.
  assert (k <= Z.log2 m) by (apply Z.log2_le_pow2; lia). lia.
Qed.

Lemma Zdigits2_mono a b : 0 <= a <= b -> Zdigits2 a <= Zdigits2 b.
Proof.
  intros [Ha Hab]. destruct (Z.eq_dec a 0) as [->|]; [apply Zdigits2_nonneg|].
  rewrite !Zdigits2_log2 by lia. pose proof (Z.log2_le_mono a b Hab). lia.
Qed.

Lemma Zdigits2_shiftl m n : 0 < m -> 0 <= n -> Zdigits2 (m * 2 ^ n) = Zdigits2 m + n.
Proof.
  intros Hm Hn. assert (0 < 2 ^ n) by (apply Z.pow_pos_nonneg; lia).
  rewrite !Zdigits2_log2 by nia.
  rewrite <- Z.shiftl_mul_pow2 by lia. rewrite Z.log2_shiftl by lia. lia.
Qed.

Lemma Zdigits2_shiftr m n : 0 <= m -> 0 <= n -> n < Zdigits2 m ->
  Zdigits2 (m / 2 ^ n) = Zdigits2 m - n /\ 0 < m / 2 ^ n.
Proof.
  intros Hm Hn Hlt. assert (0 < m) by (destruct m; simpl in *; lia).
  rewrite Zdigits2_log2 in Hlt by lia.
  assert (Hq : 0 < m / 2 ^ n).
  { apply Z.div_str_pos. split; [apply Z.pow_pos_nonneg; lia|].
    apply Z.le_trans with (2 ^ Z.log2 m); [apply Z.pow_le_mono_r; lia|].
    apply Z.log2_spec; lia. }
  split; [|exact Hq].
  rewrite !Zdigits2_log2 by lia.
  rewrite <- Z.shiftr_div_pow2 by lia. rewrite Z.log2_shiftr by lia. lia.
Qed.

Lemma Zdigits2_shiftr_zero m n : 0 <= m -> 0 <= n -> Zdigits2 m <= n -> m / 2 ^ n = 0.
Proof.
  intros Hm Hn Hle. destruct (Z.eq_dec m 0) as [->|]; [apply Z.div_0_l; apply Z.pow_nonzero; lia|].
  apply Z.div_small. split; [lia|].
  pose proof (Zdigits2_bounds m ltac:(lia)) as [_ Hb].
  apply Z.lt_le_trans with (1 := Hb). apply Z.pow_le_mono_r; lia.
Qed.

(* ---------- shifting right with a location ---------- *)
Lemma iter_pos_nat {A} (f : A -> A) p x : SpecFloat.iter_pos f p x = Nat.iter (Pos.to_nat p) f x.
Proof.
  revert x. induction p as [p IH|p IH|]; intros x; cbn [SpecFloat.iter_pos].
  - rewrite !IH, Pos2Nat.inj_xI, Nat.iter_succ_r.
    replace (2 * Pos.to_nat p)%nat with (Pos.to_nat p + Pos.to_nat p)%nat by lia.
    rewrite Nat.iter_add. reflexivity.
  - rewrite !IH, Pos2Nat.inj_xO.
    replace (2 * Pos.to_nat p)%nat with (Pos.to_nat p + Pos.to_nat p)%nat by lia.
    rewrite Nat.iter_add. reflexivity.
  - reflexivity.
Qed.

Lemma loc_roundtrip m l : loc_of_shr_record (shr_record_of_loc m l) = l.
Proof. destruct l as [|[]]; reflexivity. Qed.

Lemma shr_m_of_loc m l : shr_m (shr_record_of_loc m l) = m.
Proof. destruct l as [|[]]; reflexivity. Qed.

Lemma div2_mod2_cases q : 0 <= q ->
  match q with
  | Z0 => q / 2 = 0 /\ q mod 2 = 0
  | Zpos xH => q / 2 = 0 /\ q mod 2 = 1
  | Zpos (xO p) => q / 2 = Zpos p /\ q mod 2 = 0
  | Zpos (xI p) => q / 2 = Zpos p /\ q mod 2 = 1
  | Zneg _ => False
  end.
Proof.
  intros Hq. destruct q as [|[p|p|]|p]; try lia.
  - split; [reflexivity|reflexivity].
  - rewrite Pos2Z.inj_xI. split.
    + symmetry. apply Z.div_unique with 1; lia.
    + symmetry. apply Z.mod_unique with (Zpos p); lia.
  - rewrite Pos2Z.inj_xO. split.
    + symmetry. apply Z.div_unique with 0; lia.
    + symmetry. apply Z.mod_unique with (Zpos p); lia.
  - split; reflexivity.
Qed.

Lemma shr_1_spec mrs T U :
  0 <= shr_m mrs -> loc_ok (loc_of_shr_record mrs) T U ->
  shr_m (shr_1 mrs) = shr_m mrs / 2 /\
  loc_ok (loc_of_shr_record (shr_1 mrs)) ((shr_m mrs mod 2) * U + T) (2 * U).
Proof.
  destruct mrs as [q r s]. simpl shr_m. intros Hq Hl.
  pose proof (div2_mod2_cases q Hq) as Hc.
  destruct q as [|[p|p|]|p]; try contradiction; destruct Hc as [-> ->];
    (split; [reflexivity|]);
    destruct r, s; cbv [shr_1 loc_of_shr_record orb loc_ok] in *; lia.
Qed.

Lemma shr_iter_spec m t u n mrs :
  0 <= m -> loc_ok (loc_of_shr_record mrs) t u -> shr_m mrs = m ->
  let mrs' := Nat.iter n shr_1 mrs in
  shr_m mrs' = m / 2 ^ Z.of_nat n /\
  loc_ok (loc_of_shr_record mrs') ((m mod 2 ^ Z.of_nat n) * u + t) (2 ^ Z.of_nat n * u).
Proof.
  intros Hm Hl Hmrs. induction n as [|n IH].
  - cbn zeta. change (Nat.iter 0 shr_1 mrs) with mrs. change (Z.of_nat 0) with 0.
    rewrite Z.pow_0_r, Z.div_1_r, Z.mod_1_r, Hmrs. split; [reflexivity|].
    replace (0 * u + t) with t by lia. replace (1 * u) with u by lia. exact Hl.
  - cbn zeta in *. rewrite Nat.iter_succ. destruct IH as [IHm IHl].
    set (x := Nat.iter n shr_1 mrs) in *.
    assert (H2n : 0 < 2 ^ Z.of_nat n) by (apply Z.pow_pos_nonneg; lia).
    assert (Hx : 0 <= shr_m x) by (rewrite IHm; apply Z.div_pos; lia).
    destruct (shr_1_spec x _ _ Hx IHl) as [Hm' Hl'].
    rewrite Nat2Z.inj_succ, Z.pow_succ_r by lia.
    split.
    + rewrite Hm', IHm. rewrite Z.div_div by lia. f_equal. lia.
    + rewrite IHm in Hl'.
      replace (m mod (2 * 2 ^ Z.of_nat n)) with
        (m mod 2 ^ Z.of_nat n + 2 ^ Z.of_nat n * ((m / 2 ^ Z.of_nat n) mod 2)).
      2:{ rewrite (Z.mul_comm 2). symmetry. apply Z.rem_mul_r; lia. }
      match goal with H : loc_ok ?l ?a ?b |- loc_ok ?l ?a' ?b' =>
        replace a' with a by ring; replace b' with b by ring; exact H end.
Qed.

Lemma shr_spec m l t u e n :
  0 <= m -> loc_ok l t u ->
  let k := Z.max 0 n in
  let '(mrs', e') := shr (shr_record_of_loc m l) e n in
  e' = e + k /\ shr_m mrs' = m / 2 ^ k /\
  loc_ok (loc_of_shr_record mrs') ((m mod 2 ^ k) * u + t) (2 ^ k * u).
Proof.
  intros Hm Hl. unfold shr. destruct n as [|p|p]; cbn zeta.
  - change (Z.max 0 0) with 0.
    rewrite Z.pow_0_r, Z.div_1_r, Z.mod_1_r, shr_m_of_loc, loc_roundtrip.
    split; [lia|split; [reflexivity|]]. replace (0 * u + t) with t by lia.
    replace (1 * u) with u by lia. exact Hl.
  - rewrite iter_pos_nat.
    replace (Z.max 0 (Zpos p)) with (Z.of_nat (Pos.to_nat p)) by lia.
    split; [lia|]. apply shr_iter_spec; auto.
    + rewrite loc_roundtrip; exact Hl.
    + apply shr_m_of_loc.
  - replace (Z.max 0 (Zneg p)) with 0 by lia.
    rewrite Z.pow_0_r, Z.div_1_r, Z.mod_1_r, shr_m_of_loc, loc_roundtrip.
    split; [lia|split; [reflexivity|]]. replace (0 * u + t) with t by lia.
    replace (1 * u) with u by lia. exact Hl.
Qed.

Lemma round_nearest_even_spec m l t u :
  0 <= m -> loc_ok l t u ->
  let m' := round_nearest_even m l in
  m <= m' <= m + 1 /\ Z.abs (2 * ((m' - m) * u - t)) <= u.
Proof.
  intros Hm [Ht Hl]. unfold round_nearest_even.
  destruct l as [|[]]; cbn zeta.
  - subst t. split; lia.
  - destruct (Z.even m); split; nia.
  - split; nia.
  - split; nia.
Qed.

(* ---------- binary_round_aux ---------- *)
Lemma binary_round_aux_spec s m e l t u :
  0 <= m -> loc_ok l t u ->
  let n1 := Z.max 0 (fexp64 (Zdigits2 m + e) - e) in
  exists m2,
    m / 2 ^ n1 <= m2 <= m / 2 ^ n1 + 1 /\
    Z.abs (2 * (m2 * 2 ^ n1 * u - (m * u + t))) <= 2 ^ n1 * u /\
    let e1 := e + n1 in
    let n2 := Z.max 0 (fexp64 (Zdigits2 m2 + e1) - e1) in
    binary_round_aux prec emax s m e l = mk_float s (m2 / 2 ^ n2) (e1 + n2).
Proof.
  intros Hm Hl n1.
  unfold binary_round_aux, shr_fexp. change (fexp prec emax) with fexp64. fold n1.
  pose proof (shr_spec m l t u e (fexp64 (Zdigits2 m + e) - e) Hm Hl) as H1.
  cbn zeta in H1. fold n1 in H1.
  destruct (shr (shr_record_of_loc m l) e (fexp64 (Zdigits2 m + e) - e)) as [mrs1 e1].
  destruct H1 as (He1 & Hm1 & Hl1).
  assert (HP : 0 < 2 ^ n1) by (apply Z.pow_pos_nonneg; lia).
  assert (Hm1' : 0 <= shr_m mrs1) by (rewrite Hm1; apply Z.div_pos; lia).
  pose proof (round_nearest_even_spec (shr_m mrs1) _ _ _ Hm1' Hl1) as H2.
  cbn zeta in H2.
  set (m2 := round_nearest_even (shr_m mrs1) (loc_of_shr_record mrs1)) in *.
  destruct H2 as (Hm2 & Hr).
  assert (Hex : loc_ok loc_Exact 0 1) by (unfold loc_ok; lia).
  pose proof (shr_spec m2 loc_Exact 0 1 e1 (fexp64 (Zdigits2 m2 + e1) - e1)
                ltac:(lia) Hex) as H3.
  cbn zeta in H3.
  destruct (shr (shr_record_of_loc m2 loc_Exact) e1 (fexp64 (Zdigits2 m2 + e1) - e1))
    as [mrs2 e2].
  destruct H3 as (He2 & Hm3 & _).
  exists m2. rewrite Hm1 in Hm2. split; [exact Hm2|]. split.
  - rewrite Hm1 in Hr.
    pose proof (Z.div_mod m (2 ^ n1) ltac:(lia)) as Hdm.
    set (q := m / 2 ^ n1) in *. set (r := m mod 2 ^ n1) in *. set (P := 2 ^ n1) in *.
    replace (2 * (m2 * P * u - (m * u + t)))
      with (2 * ((m2 - q) * (P * u) - (r * u + t))) by (rewrite Hdm; ring).
    exact Hr.
  - cbn zeta. subst e1. rewrite Hm3, He2. unfold mk_float.
    change (Z.sub emax prec) with 971. reflexivity.
Qed.

(** the shape of a rounded result *)
Lemma mk_float_cases s m e : 0 <= m ->
  mk_float s m e = S754_zero s \/ mk_float s m e = S754_infinity s \/
  exists p, mk_float s m e = S754_finite s p e /\ m = Zpos p /\ e <= 971.
Proof.
  intros Hm. unfold mk_float. destruct m as [|p|p]; try lia; auto.
  destruct (Z.leb_spec e 971); auto. right; right. exists p; auto.
Qed.

Lemma valid_mk_float s m e :
  0 <= m -> (0 < m -> fexp64 (Zdigits2 m + e) = e) ->
  valid_binary prec emax (mk_float s m e) = true.
Proof.
  intros Hm Hc. unfold mk_float. destruct m as [|p|p]; try lia; try reflexivity.
  destruct (Z.leb_spec e 971) as [Hle|]; [|reflexivity].
  cbn [valid_binary]. unfold SpecFloat.bounded, SpecFloat.canonical_mantissa.
  change (fexp prec emax) with fexp64. change (Z.sub emax prec) with 971.
  change (Zpos (digits2_pos p)) with (Zdigits2 (Zpos p)).
  rewrite Hc by lia. rewrite Z.eqb_refl. apply Z.leb_le in Hle. rewrite Hle. reflexivity.
Qed.

(** Rounding yields a canonical mantissa whenever its input exponent is
    not above the canonical one. *)
Lemma binary_round_aux_valid s m e l t u :
  0 <= m -> loc_ok l t u -> e <= fexp64 (Zdigits2 m + e) ->
  valid_binary prec emax (binary_round_aux prec emax s m e l) = true.
Proof.
  intros Hm Hl He.
  destruct (binary_round_aux_spec s m e l t u Hm Hl) as (m2 & Hm2 & _ & Heq).
  cbn zeta in Heq. rewrite Heq. clear Heq.
  set (n1 := Z.max 0 (fexp64 (Zdigits2 m + e) - e)) in *.
  set (e1 := e + n1) in *.
  set (n2 := Z.max 0 (fexp64 (Zdigits2 m2 + e1) - e1)).
  assert (HP1 : 0 < 2 ^ n1) by (apply Z.pow_pos_nonneg; lia).
  assert (Hm1 : 0 <= m / 2 ^ n1) by (apply Z.div_pos; lia).
  assert (He1 : e1 = fexp64 (Zdigits2 m + e)) by lia.
  assert (Hn2 : e1 <= fexp64 (Zdigits2 m2 + e1)).
  { pose proof (Zdigits2_nonneg m2).
    destruct (Z_lt_le_dec n1 (Zdigits2 m)) as [Hlt|Hge].
    - destruct (Zdigits2_shiftr m n1 Hm ltac:(lia) Hlt) as [Hd _].
      pose proof (Zdigits2_mono (m / 2 ^ n1) m2 ltac:(lia)).
      unfold fexp64 in *. lia.
    - unfold fexp64 in *. lia. }
  apply valid_mk_float.
  - apply Z.div_pos; [lia|apply Z.pow_pos_nonneg; lia].
  - intros Hpos.
    destruct (Z_lt_le_dec n2 (Zdigits2 m2)) as [Hlt|Hge].
    + destruct (Zdigits2_shiftr m2 n2 ltac:(lia) ltac:(lia) Hlt) as [Hd _].
      rewrite Hd. replace (Zdigits2 m2 - n2 + (e1 + n2)) with (Zdigits2 m2 + e1) by lia.
      lia.
    + rewrite (Zdigits2_shiftr_zero m2 n2) in Hpos by lia. lia.
Qed.

(** Rounding a value below [2^B]: the result is finite, its exponent is
    at most [B - 52], and it is within three halves of its last place. *)
Lemma binary_round_aux_bound s m e l t u B :
  0 <= m -> loc_ok l t u -> m < 2 ^ (B - e) -> e <= B - 53 -> -1021 <= B <= 1023 ->
  exists m3 N,
    0 <= m3 /\ 0 <= N /\ e + N <= B - 52 /\
    binary_round_aux prec emax s m e l = mk_float s m3 (e + N) /\
    Z.abs (2 * (m3 * 2 ^ N * u - (m * u + t))) <= 3 * 2 ^ N * u.
Proof.
  intros Hm Hl Hlt He HB.
  destruct (binary_round_aux_spec s m e l t u Hm Hl) as (m2 & Hm2 & Herr & Heq).
  cbn zeta in Heq.
  set (n1 := Z.max 0 (fexp64 (Zdigits2 m + e) - e)) in *.
  set (e1 := e + n1) in *.
  set (n2 := Z.max 0 (fexp64 (Zdigits2 m2 + e1) - e1)) in *.
  assert (Hu : 0 < u) by (destruct Hl; lia).
  assert (HP1 : 0 < 2 ^ n1) by (apply Z.pow_pos_nonneg; lia).
  assert (HP2 : 0 < 2 ^ n2) by (apply Z.pow_pos_nonneg; lia).
  assert (Hd : Zdigits2 m <= B - e) by (apply Zdigits2_le_of_lt; lia).
  assert (He1 : e1 <= B - 53) by (unfold fexp64 in *; lia).
  assert (Hm1 : m / 2 ^ n1 < 2 ^ (B - e1)).
  { apply Z.div_lt_upper_bound; [lia|]. rewrite <- Z.pow_add_r by lia.
    replace (n1 + (B - e1)) with (B - e) by lia. exact Hlt. }
  assert (Hm1' : 0 <= m / 2 ^ n1) by (apply Z.div_pos; lia).
  assert (Hd2 : Zdigits2 m2 <= B - e1 + 1).
  { apply Zdigits2_le_of_lt; try lia.
    rewrite Z.pow_add_r by lia. change (2 ^ 1) with 2. lia. }
  assert (He3 : e1 + n2 <= B - 52) by (unfold fexp64 in *; lia).
  exists (m2 / 2 ^ n2), (n1 + n2).
  split; [apply Z.div_pos; lia|]. split; [lia|]. split; [lia|].
  split; [rewrite Heq; f_equal; lia|].
  pose proof (Z.div_mod m2 (2 ^ n2) ltac:(lia)) as Hdm.
  pose proof (Z.mod_pos_bound m2 (2 ^ n2) HP2) as Hr.
  rewrite Z.pow_add_r by lia.
  set (q := m2 / 2 ^ n2) in *. set (r := m2 mod 2 ^ n2) in *.
  set (X := 2 ^ n1) in *. set (Y := 2 ^ n2) in *.
  assert (Hxu : 0 < X * u) by nia.
  assert (0 <= r * (X * u) <= (Y - 1) * (X * u)) by nia.
  replace (2 * (q * (X * Y) * u - (m * u + t)))
    with (2 * (m2 * X * u - (m * u + t)) - 2 * (r * (X * u))) by (rewrite Hdm; ring).
  replace (3 * (X * Y) * u) with (3 * Y * (X * u)) by ring.
  assert (X * u <= Y * (X * u)) by nia.
  lia.
Qed.

(* ---------- real values ---------- *)
Open Scope R_scope.

Lemma Rabs_le_inv x a : Rabs x <= a -> - a <= x <= a.
Proof. unfold Rabs. destruct (Rcase_abs x); lra. Qed.

Lemma bpow_pos e : 0 < bpow e.
Proof. apply powerRZ_lt. lra. Qed.

Lemma bpow_add a b : bpow (a + b) = bpow a * bpow b.
Proof. apply powerRZ_add. lra. Qed.

Lemma bpow_IZR n : (0 <= n)%Z -> bpow n = IZR (2 ^ n).
Proof.
  intros Hn. unfold bpow. rewrite <- (Z2Nat.id n Hn) at 1.
  rewrite <- pow_powerRZ. rewrite <- (Z2Nat.id n Hn) at 2.
  rewrite <- pow_IZR. reflexivity.
Qed.

Lemma bpow_ge_1 n : (0 <= n)%Z -> 1 <= bpow n.
Proof.
  intros Hn. rewrite bpow_IZR by assumption. apply IZR_le.
  pose proof (Z.pow_pos_nonneg 2 n ltac:(lia) Hn). lia.
Qed.

Lemma bpow_le a b : (a <= b)%Z -> bpow a <= bpow b.
Proof.
  intros H. replace b with (a + (b - a))%Z by lia. rewrite bpow_add.
  pose proof (bpow_pos a). pose proof (bpow_ge_1 (b - a) ltac:(lia)). nra.
Qed.

Lemma bpow_lt a b : (a < b)%Z -> bpow a < bpow b.
Proof.
  intros H. replace b with (a + 1 + (b - a - 1))%Z by lia. rewrite !bpow_add.
  pose proof (bpow_pos a). pose proof (bpow_ge_1 (b - a - 1) ltac:(lia)).
  replace (bpow 1) with 2 by (unfold bpow; simpl; lra). nra.
Qed.

Lemma sgn_abs s : Rabs (sgn s) = 1.
Proof. destruct s; unfold sgn; [rewrite Rabs_left|rewrite Rabs_right]; lra. Qed.

Lemma SF2R_mk_float s m e :
  (0 <= m)%Z -> (e <= 971)%Z ->
  finite_signed s (mk_float s m e) /\ SF2R (mk_float s m e) = sgn s * IZR m * bpow e.
Proof.
  intros Hm He. unfold mk_float. destruct m as [|p|p]; try lia.
  - simpl. split; [reflexivity|lra].
  - apply Z.leb_le in He. rewrite He. simpl. split; reflexivity.
Qed.

Lemma binary_round_aux_R s m e l t u B :
  (0 <= m)%Z -> loc_ok l t u -> (m < 2 ^ (B - e))%Z -> (e <= B - 53)%Z ->
  (-1021 <= B <= 1023)%Z ->
  let x := binary_round_aux prec emax s m e l in
  finite_signed s x /\
  Rabs (SF2R x - sgn s * ((IZR m + IZR t / IZR u) * bpow e)) <= 3 / 2 * bpow (B - 52).
Proof.
  intros Hm Hl Hlt He HB x.
  destruct (binary_round_aux_bound s m e l t u B Hm Hl Hlt He HB)
    as (m3 & N & Hm3 & HN & He3 & Heq & Herr).
  subst x. rewrite Heq.
  destruct (SF2R_mk_float s m3 (e + N) Hm3 ltac:(lia)) as [Hf Hv].
  split; [exact Hf|]. rewrite Hv. clear Hf Hv Heq.
  assert (Hu : (0 < u)%Z) by (destruct Hl; lia).
  apply Z.abs_le in Herr. destruct Herr as [Hlo Hhi].
  apply IZR_le in Hlo, Hhi.
  push_IZR_in Hlo. push_IZR_in Hhi.
  rewrite <- !bpow_IZR in Hlo, Hhi by lia.
  assert (HU : 0 < IZR u) by (apply IZR_lt; lia).
  set (U := IZR u) in *. set (T := IZR t) in *. set (M := IZR m) in *.
  set (M3 := IZR m3) in *. set (P := bpow N) in *.
  assert (HTU : T / U * U = T) by (field; lra).
  set (tu := T / U) in *.
  assert (HP : 0 < P) by apply bpow_pos.
  assert (Hy : - (3 / 2 * P) <= M3 * P - (M + tu) <= 3 / 2 * P).
  { split; apply Rmult_le_reg_l with (2 * U); nra. }
  pose proof (bpow_pos e) as Hbe.
  pose proof (bpow_le (e + N) (B - 52) ltac:(lia)) as Hle.
  rewrite bpow_add in *. fold P in Hle |- *.
  replace (sgn s * M3 * (bpow e * P) - sgn s * ((M + tu) * bpow e))
    with (sgn s * ((M3 * P - (M + tu)) * bpow e)) by ring.
  rewrite Rabs_mult, sgn_abs, Rmult_1_l.
  apply Rabs_le. split; nra.
Qed.

(* ---------- the rounded quotient ---------- *)
Open Scope Z_scope.

Lemma new_location_ok u t : 0 <= t < u -> loc_ok (new_location u t) t u.
Proof.
  intros Ht. unfold new_location, new_location_even, new_location_odd, loc_ok.
  split; [exact Ht|].
  destruct (Z.even u) eqn:Hev.
  - destruct (Z.eqb_spec t 0); [assumption|].
    destruct (Z.compare_spec (2 * t) u); lia.
  - destruct (Z.eqb_spec t 0); [assumption|].
    assert (Hodd : Z.odd u = true) by (rewrite <- Z.negb_even, Hev; reflexivity).
    apply Z.odd_spec in Hodd. destruct Hodd as [k Hk].
    destruct (Z.compare_spec (2 * t + 1) u); lia.
Qed.

Lemma div_core_spec a b :
  0 < a -> 0 < b ->
  let e' := Z.min (fexp64 (Zdigits2 a - Zdigits2 b)) 0 in
  SFdiv_core_binary prec emax a 0 b 0 =
    ((a * 2 ^ (- e')) / b, e', new_location b ((a * 2 ^ (- e')) mod b)).
Proof.
  intros Ha Hb e'. unfold SFdiv_core_binary.
  change (fexp prec emax) with fexp64.
  rewrite !Z.add_0_r. change (0 - 0) with 0. fold e'.
  assert (He' : e' <= 0) by (unfold e'; lia).
  replace (0 - e') with (- e') by lia.
  assert (Hm : forall S, 0 <= S ->
               match S with
               | Zpos _ => Z.shiftl a S
               | Z0 => a
               | Zneg _ => 0
               end = a * 2 ^ S).
  { intros [|p|p] HS; [rewrite Z.pow_0_r; lia|apply Z.shiftl_mul_pow2; lia|lia]. }
  rewrite Hm by lia. unfold Z.div, Z.modulo.
  destruct (Z.div_eucl (a * 2 ^ (- e')) b) as [q r]. reflexivity.
Qed.

Lemma div_pos_eq s a b :
  0 < a -> 0 < b ->
  let e' := Z.min (fexp64 (Zdigits2 a - Zdigits2 b)) 0 in
  div_pos s a b =
    binary_round_aux prec emax s ((a * 2 ^ (- e')) / b) e'
      (new_location b ((a * 2 ^ (- e')) mod b)).
Proof.
  intros Ha Hb e'. unfold div_pos. rewrite div_core_spec by assumption. reflexivity.
Qed.

Lemma div_pos_valid s a b :
  0 < a -> 0 < b -> valid_binary prec emax (div_pos s a b) = true.
Proof.
  intros Ha Hb. rewrite div_pos_eq by assumption.
  set (e' := Z.min (fexp64 (Zdigits2 a - Zdigits2 b)) 0).
  assert (HS : 0 < 2 ^ (- e')) by (apply Z.pow_pos_nonneg; unfold e'; lia).
  apply binary_round_aux_valid with (t := (a * 2 ^ (- e')) mod b) (u := b).
  - apply Z.div_pos; nia.
  - apply new_location_ok. apply Z.mod_pos_bound. assumption.
  - set (q := a * 2 ^ (- e') / b).
    assert (Hq : 0 <= q) by (apply Z.div_pos; nia).
    pose proof (Zdigits2_nonneg q) as Hdq.
    set (D := Zdigits2 a - Zdigits2 b) in *.
    destruct (Z_le_gt_dec (D - 53) (-1074)) as [Hsub|Hnorm].
    + unfold fexp64 in *. lia.
    + assert (He' : e' = Z.min (D - 53) 0) by (unfold e', fexp64; lia).
      assert (HDS : 52 <= D - e' - 1) by lia.
      pose proof (Zdigits2_bounds a Ha) as [Halo _].
      pose proof (Zdigits2_bounds b Hb) as [_ Hbhi].
      assert (Hda : 1 <= Zdigits2 a) by (apply (Zdigits2_ge_of_le a 0); lia).
      assert (Hdb : 1 <= Zdigits2 b) by (apply (Zdigits2_ge_of_le b 0); lia).
      assert (Hlow : 2 ^ (D - e' - 1) <= q).
      { apply Z.div_le_lower_bound; [lia|].
        apply Z.le_trans with (2 ^ Zdigits2 b * 2 ^ (D - e' - 1)).
        - apply Z.mul_le_mono_nonneg_r; [apply Z.pow_nonneg; lia|lia].
        - rewrite <- Z.pow_add_r by lia.
          replace (Zdigits2 b + (D - e' - 1)) with ((Zdigits2 a - 1) + (- e')) by (unfold D; lia).
          rewrite Z.pow_add_r by lia.
          apply Z.mul_le_mono_nonneg_r; lia. }
      pose proof (Zdigits2_ge_of_le q (D - e' - 1) ltac:(lia) Hlow).
      unfold fexp64. lia.
Qed.

Lemma div_pos_R s a b B :
  0 < a -> 0 < b -> a < b * 2 ^ B -> 0 <= B <= 1023 ->
  finite_signed s (div_pos s a b) /\
  (Rabs (SF2R (div_pos s a b) - sgn s * (IZR a / IZR b)) <= 3 / 2 * bpow (B - 52))%R.
Proof.
  intros Ha Hb Hlt HB. rewrite div_pos_eq by assumption.
  set (e' := Z.min (fexp64 (Zdigits2 a - Zdigits2 b)) 0).
  assert (He'0 : e' <= 0) by (unfold e'; lia).
  assert (HS : 0 < 2 ^ (- e')) by (apply Z.pow_pos_nonneg; lia).
  assert (HPB : 0 < 2 ^ B) by (apply Z.pow_pos_nonneg; lia).
  set (q := a * 2 ^ (- e') / b). set (r := (a * 2 ^ (- e')) mod b).
  assert (Hq : 0 <= q) by (apply Z.div_pos; nia).
  assert (Hr : 0 <= r < b) by (apply Z.mod_pos_bound; assumption).
  assert (Hdm : a * 2 ^ (- e') = b * q + r) by (apply Z.div_mod; lia).
  assert (Hqlt : q < 2 ^ (B - e')).
  { apply Z.div_lt_upper_bound; [lia|].
    replace (B - e') with (B + - e') by lia. rewrite Z.pow_add_r by lia. nia. }
  assert (He' : e' <= B - 53).
  { pose proof (Zdigits2_bounds a Ha) as [Halo _].
    pose proof (Zdigits2_bounds b Hb) as [_ Hbhi].
    assert (Hda : 1 <= Zdigits2 a) by (apply (Zdigits2_ge_of_le a 0); lia).
    assert (Hdb : 1 <= Zdigits2 b) by (apply (Zdigits2_ge_of_le b 0); lia).
    assert (2 ^ (Zdigits2 a - 1) < 2 ^ (Zdigits2 b + B)).
    { rewrite Z.pow_add_r by lia. nia. }
    assert (Zdigits2 a - 1 < Zdigits2 b + B) by (apply (Z.pow_lt_mono_r_iff 2); lia).
    unfold e', fexp64. lia. }
  pose proof (binary_round_aux_R s q e' (new_location b r) r b B Hq
                (new_location_ok b r Hr) Hqlt He' ltac:(lia)) as [Hf Hbound].
  cbn zeta in Hf, Hbound. split; [exact Hf|].
  replace (IZR a / IZR b)%R with ((IZR q + IZR r / IZR b) * bpow e')%R; [exact Hbound|].
  assert (HB' : (0 < IZR b)%R) by (apply IZR_lt; lia).
  apply (f_equal IZR) in Hdm. rewrite plus_IZR, !mult_IZR in Hdm.
  rewrite <- bpow_IZR in Hdm by lia.
  assert (Hone : (bpow (- e') * bpow e' = 1)%R).
  { rewrite <- bpow_add. replace (- e' + e') with 0 by lia. reflexivity. }
  replace (IZR a) with (IZR a * (bpow (- e') * bpow e'))%R by (rewrite Hone; ring).
  replace (IZR a * (bpow (- e') * bpow e'))%R with ((IZR a * bpow (- e')) * bpow e')%R by ring.
  rewrite Hdm. field. lra.
Qed.

(* ---------- normalisation of an integer mantissa ---------- *)
Lemma shl_align_spec mx ex ex' :
  let '(mz, ez) := shl_align mx ex ex' in
  ez = Z.min ex ex' /\ Zpos mz = Zpos mx * 2 ^ (ex - ez).
Proof.
  unfold shl_align. destruct (ex' - ex) as [|d|d] eqn:Hd.
  - split; [lia|]. replace (ex - ex) with 0 by lia. rewrite Z.pow_0_r. lia.
  - split; [lia|]. replace (ex - ex) with 0 by lia. rewrite Z.pow_0_r. lia.
  - split; [lia|]. replace (ex - ex') with (Zpos d) by lia.
    change (Pos.iter xO mx d) with (shift_pos d mx).
    rewrite shift_pos_correct. rewrite Z.mul_comm. reflexivity.
Qed.

Lemma binary_round_eq s mx ex :
  exists mz ez,
    ez = Z.min ex (fexp64 (Zdigits2 (Zpos mx) + ex)) /\
    Zpos mz = Zpos mx * 2 ^ (ex - ez) /\
    binary_round prec emax s mx ex = binary_round_aux prec emax s (Zpos mz) ez loc_Exact.
Proof.
  unfold binary_round. change (fexp prec emax) with fexp64.
  change (Zpos (digits2_pos mx)) with (Zdigits2 (Zpos mx)).
  pose proof (shl_align_spec mx ex (fexp64 (Zdigits2 (Zpos mx) + ex))) as H.
  destruct (shl_align mx ex (fexp64 (Zdigits2 (Zpos mx) + ex))) as [mz ez].
  exists mz, ez. destruct H. auto.
Qed.

Lemma loc_exact_ok : loc_ok loc_Exact 0 1.
Proof. unfold loc_ok. lia. Qed.

Lemma binary_round_valid s mx ex :
  valid_binary prec emax (binary_round prec emax s mx ex) = true.
Proof.
  destruct (binary_round_eq s mx ex) as (mz & ez & Hez & Hmz & ->).
  apply binary_round_aux_valid with (t := 0) (u := 1); [lia|apply loc_exact_ok|].
  rewrite Hmz, Zdigits2_shiftl by lia.
  replace (Zdigits2 (Zpos mx) + (ex - ez) + ez) with (Zdigits2 (Zpos mx) + ex) by lia.
  lia.
Qed.

Lemma binary_normalize_valid m e sz :
  valid_binary prec emax (binary_normalize prec emax m e sz) = true.
Proof. destruct m; simpl; [reflexivity|apply binary_round_valid..]. Qed.

Lemma bpow_lt_inv a b : (bpow a < bpow b)%R -> a < b.
Proof.
  intros H. destruct (Z_lt_le_dec a b) as [|Hge]; [assumption|].
  pose proof (bpow_le b a Hge). lra.
Qed.

Lemma binary_round_R s mx ex B :
  (IZR (Zpos mx) * bpow ex < bpow B)%R -> -1021 <= B <= 1023 ->
  finite_signed s (binary_round prec emax s mx ex) /\
  (Rabs (SF2R (binary_round prec emax s mx ex) - sgn s * (IZR (Zpos mx) * bpow ex))
   <= 3 / 2 * bpow (B - 52))%R.
Proof.
  intros Hlt HB.
  destruct (binary_round_eq s mx ex) as (mz & ez & Hez & Hmz & ->).
  pose proof (Zdigits2_bounds (Zpos mx) ltac:(lia)) as [Hlo Hhi].
  set (d := Zdigits2 (Zpos mx)) in *.
  assert (Hd1 : 1 <= d) by (apply (Zdigits2_ge_of_le (Zpos mx) 0); lia).
  assert (HdB : d + ex <= B).
  { assert (bpow (d - 1 + ex) < bpow B)%R.
    { eapply Rle_lt_trans; [|exact Hlt]. rewrite bpow_add.
      apply Rmult_le_compat_r; [left; apply bpow_pos|].
      rewrite bpow_IZR by lia. apply IZR_le. exact Hlo. }
    apply bpow_lt_inv in H. lia. }
  assert (Hez' : ez <= B - 53) by (unfold fexp64 in Hez; lia).
  assert (Hmzlt : Zpos mz < 2 ^ (B - ez)).
  { rewrite Hmz. apply Z.lt_le_trans with (2 ^ d * 2 ^ (ex - ez)).
    - apply Z.mul_lt_mono_pos_r; [apply Z.pow_pos_nonneg; lia|exact Hhi].
    - rewrite <- Z.pow_add_r by lia. apply Z.pow_le_mono_r; lia. }
  pose proof (binary_round_aux_R s (Zpos mz) ez loc_Exact 0 1 B ltac:(lia)
                loc_exact_ok Hmzlt Hez' HB) as [Hf Hb].
  cbn zeta in Hf, Hb. split; [exact Hf|].
  replace (IZR (Zpos mx) * bpow ex)%R with ((IZR (Zpos mz) + 0 / 1) * bpow ez)%R; [exact Hb|].
  rewrite Hmz, mult_IZR, <- bpow_IZR by lia.
  replace (bpow ex) with (bpow (ex - ez) * bpow ez)%R.
  2:{ rewrite <- bpow_add. f_equal. lia. }
  field.
Qed.

Lemma binary_round_aux_sign m e l t u :
  0 <= m -> loc_ok l t u ->
  sign_false (binary_round_aux prec emax false m e l) = true.
Proof.
  intros Hm Hl.
  destruct (binary_round_aux_spec false m e l t u Hm Hl) as (m2 & Hm2 & _ & Heq).
  cbn zeta in Heq. rewrite Heq.
  set (n1 := Z.max 0 _) in *. set (n2 := Z.max 0 _).
  assert (0 <= m2 / 2 ^ n2).
  { apply Z.div_pos; [|apply Z.pow_pos_nonneg; lia].
    assert (0 <= m / 2 ^ n1) by (apply Z.div_pos; [lia|apply Z.pow_pos_nonneg; lia]). lia. }
  destruct (mk_float_cases false (m2 / 2 ^ n2) (e + n1 + n2) H) as [->|[->|(p & -> & _)]];
    reflexivity.
Qed.

Lemma binary_round_sign mx ex : sign_false (binary_round prec emax false mx ex) = true.
Proof.
  destruct (binary_round_eq false mx ex) as (mz & ez & _ & _ & ->).
  apply binary_round_aux_sign with (t := 0) (u := 1); [lia|apply loc_exact_ok].
Qed.

Lemma div_pos_sign a b : 0 < a -> 0 < b -> sign_false (div_pos false a b) = true.
Proof.
  intros Ha Hb. rewrite div_pos_eq by assumption.
  set (e' := Z.min _ 0).
  apply binary_round_aux_sign with (t := (a * 2 ^ (- e')) mod b) (u := b).
  - apply Z.div_pos; [|lia]. assert (0 < 2 ^ (- e')) by (apply Z.pow_pos_nonneg; lia). nia.
  - apply new_location_ok. apply Z.mod_pos_bound. assumption.
Qed.

(* ---------- the operations of the model ---------- *)
Lemma finite_or_overflow_ok x y : finite_or_overflow x = Ok y -> y = x.
Proof. destruct x; simpl; congruence. Qed.

Lemma finite_or_overflow_finite s x : finite_signed s x -> finite_or_overflow x = Ok x.
Proof. destruct x; simpl; tauto. Qed.

Lemma finite_signed_sign x : finite_signed false x -> sign_false x = true.
Proof. destruct x as [[]|[]| |[] ? ?]; simpl; intros; congruence || tauto. Qed.

Lemma of_int_valid n x : of_int n = Ok x -> valid_binary prec emax x = true.
Proof.
  unfold of_int. intros Hres. apply finite_or_overflow_ok in Hres. subst.
  apply binary_normalize_valid.
Qed.

Lemma of_int_sign n x : 0 <= n -> of_int n = Ok x -> sign_false x = true.
Proof.
  unfold of_int. intros Hn H. apply finite_or_overflow_ok in H. subst.
  destruct n as [|p|p]; try lia; [reflexivity|apply binary_round_sign].
Qed.

Lemma of_int_R n B :
  0 <= n -> n < 2 ^ B -> 0 <= B <= 1023 ->
  exists x, of_int n = Ok x /\ finite_signed false x /\
            (Rabs (SF2R x - IZR n) <= 3 / 2 * bpow (B - 52))%R.
Proof.
  intros Hn Hlt HB. unfold of_int. destruct n as [|p|p]; try lia.
  - exists (S754_zero false). simpl. split; [reflexivity|]. split; [reflexivity|].
    rewrite Rminus_0_r, Rabs_R0. pose proof (bpow_pos (B - 52)). lra.
  - cbn [binary_normalize].
    assert (Hr : (IZR (Zpos p) * bpow 0 < bpow B)%R).
    { rewrite (bpow_IZR B) by lia. change (bpow 0) with 1%R. rewrite Rmult_1_r.
      apply IZR_lt. exact Hlt. }
    destruct (binary_round_R false p 0 B Hr ltac:(lia)) as [Hf Hb].
    exists (binary_round prec emax false p 0).
    split; [apply finite_or_overflow_finite with false; exact Hf|]. split; [exact Hf|].
    change (bpow 0) with 1%R in Hb. unfold sgn in Hb.
    replace (1 * (IZR (Zpos p) * 1))%R with (IZR (Zpos p)) in Hb by ring. exact Hb.
Qed.

Lemma true_divide_valid a b x : true_divide a b = Ok x -> valid_binary prec emax x = true.
Proof.
  unfold true_divide. destruct (Z.eqb_spec b 0); [discriminate|].
  destruct (Z.eqb_spec a 0).
  - intros Hres. injection Hres as <-. reflexivity.
  - intros Hres. apply finite_or_overflow_ok in Hres. subst. apply div_pos_valid; lia.
Qed.

Lemma true_divide_sign a b x :
  0 <= a -> 0 < b -> true_divide a b = Ok x -> sign_false x = true.
Proof.
  intros Ha Hb. unfold true_divide. destruct (Z.eqb_spec b 0); [lia|].
  destruct (Z.ltb_spec b 0); [lia|]. destruct (Z.ltb_spec a 0); [lia|].
  destruct (Z.eqb_spec a 0).
  - intros Hres. injection Hres as <-. reflexivity.
  - intros Hres. apply finite_or_overflow_ok in Hres. subst. apply div_pos_sign; lia.
Qed.

Lemma true_divide_R a b B :
  0 <= a -> 0 < b -> a < b * 2 ^ B -> 0 <= B <= 1023 ->
  exists x, true_divide a b = Ok x /\ finite_signed false x /\
            (Rabs (SF2R x - IZR a / IZR b) <= 3 / 2 * bpow (B - 52))%R.
Proof.
  intros Ha Hb Hlt HB. unfold true_divide. destruct (Z.eqb_spec b 0); [lia|].
  destruct (Z.ltb_spec b 0); [lia|]. destruct (Z.ltb_spec a 0); [lia|].
  destruct (Z.eqb_spec a 0) as [->|Hne].
  - exists (S754_zero false). split; [reflexivity|]. split; [reflexivity|].
    simpl. unfold Rdiv. rewrite Rmult_0_l, Rminus_0_r, Rabs_R0.
    pose proof (bpow_pos (B - 52)). lra.
  - rewrite !Z.abs_eq by lia. cbn [xorb].
    destruct (div_pos_R false a b B ltac:(lia) Hb Hlt HB) as [Hf Hbd].
    exists (div_pos false a b).
    split; [apply finite_or_overflow_finite with false; exact Hf|]. split; [exact Hf|].
    unfold sgn in Hbd. rewrite Rmult_1_l in Hbd. exact Hbd.
Qed.

Lemma SF2R_finite_false x : finite_signed false x -> (0 <= SF2R x)%R.
Proof.
  destruct x as [| | |s m e]; simpl; try lra; try tauto.
  intros ->. unfold sgn. pose proof (bpow_pos e).
  assert (0 < IZR (Zpos m))%R by (apply IZR_lt; lia). nra.
Qed.

Lemma add_finite_eq mx ex my ey :
  exists p,
    add (S754_finite false mx ex) (S754_finite false my ey)
    = binary_round prec emax false p (Z.min ex ey) /\
    (IZR (Zpos p) * bpow (Z.min ex ey)
     = IZR (Zpos mx) * bpow ex + IZR (Zpos my) * bpow ey)%R.
Proof.
  unfold add, SFadd. cbn [cond_Zopp].
  set (ez := Z.min ex ey).
  pose proof (shl_align_spec mx ex ez) as Hx. pose proof (shl_align_spec my ey ez) as Hy.
  destruct (shl_align mx ex ez) as [mx' ex']. destruct (shl_align my ey ez) as [my' ey'].
  destruct Hx as [Hex Hmx]. destruct Hy as [Hey Hmy]. cbn [fst].
  change (Zpos mx' + Zpos my') with (Zpos (mx' + my')).
  exists (mx' + my')%positive. split; [reflexivity|].
  rewrite Pos2Z.inj_add, plus_IZR, Hmx, Hmy, !mult_IZR.
  replace ex' with ez in * by lia. replace ey' with ez in * by lia.
  rewrite <- !bpow_IZR by lia.
  replace (bpow ex) with (bpow (ex - ez) * bpow ez)%R
    by (rewrite <- bpow_add; f_equal; lia).
  replace (bpow ey) with (bpow (ey - ez) * bpow ez)%R
    by (rewrite <- bpow_add; f_equal; lia).
  ring.
Qed.

Lemma add_valid x y :
  valid_binary prec emax x = true -> valid_binary prec emax y = true ->
  valid_binary prec emax (add x y) = true.
Proof.
  intros Hx Hy. unfold add.
  destruct x as [sx|sx| |sx mx ex], y as [sy|sy| |sy my ey];
    try exact Hx; try exact Hy; try reflexivity;
    try (destruct sx, sy; reflexivity).
  unfold SFadd. apply binary_normalize_valid.
Qed.

Lemma add_sign x y :
  sign_false x = true -> sign_false y = true -> sign_false (add x y) = true.
Proof.
  intros Hx Hy.
  destruct x as [[]|[]| |[] mx ex], y as [[]|[]| |[] my ey];
    try discriminate; try reflexivity.
  destruct (add_finite_eq mx ex my ey) as (p & -> & _). apply binary_round_sign.
Qed.

Lemma add_R x y B :
  finite_signed false x -> finite_signed false y ->
  (SF2R x + SF2R y < bpow B)%R -> -1021 <= B <= 1023 ->
  finite_signed false (add x y) /\
  (Rabs (SF2R (add x y) - (SF2R x + SF2R y)) <= 3 / 2 * bpow (B - 52))%R.
Proof.
  intros Hx Hy Hlt HB. pose proof (bpow_pos (B - 52)) as Hpos.
  assert (Hz : forall r, r = 0%R -> (Rabs r <= 3 / 2 * bpow (B - 52))%R)
    by (intros r ->; rewrite Rabs_R0; lra).
  destruct x as [sx| | |sx mx ex]; try contradiction;
  destruct y as [sy| | |sy my ey]; try contradiction; simpl in Hx, Hy; subst.
  - simpl. split; [reflexivity|]. apply Hz. ring.
  - cbn [add SFadd]. split; [reflexivity|]. apply Hz. simpl. ring.
  - cbn [add SFadd]. split; [reflexivity|]. apply Hz. simpl. ring.
  - destruct (add_finite_eq mx ex my ey) as (p & -> & Hv).
    cbn [SF2R] in *. unfold sgn in *. rewrite !Rmult_1_l in *.
    rewrite <- Hv in *.
    destruct (binary_round_R false p (Z.min ex ey) B Hlt HB) as [Hf Hb].
    split; [exact Hf|]. unfold sgn in Hb. rewrite Rmult_1_l in Hb. exact Hb.
Qed.

Lemma of_int_minus_one : of_int (-1) = Ok minus_one.
Proof. reflexivity. Qed.

Lemma mul_minus_one x :
  valid_binary prec emax x = true -> mul x minus_one = neg x.
Proof.
  intros Hv. destruct x as [sx|sx| |sx mx ex]; unfold mul, neg, minus_one.
  - destruct sx; reflexivity.
  - destruct sx; reflexivity.
  - reflexivity.
  - cbn [SFmul SFopp]. cbn [valid_binary] in Hv.
    unfold SpecFloat.bounded, SpecFloat.canonical_mantissa in Hv.
    apply andb_true_iff in Hv. destruct Hv as [Hc Hb].
    apply Z.eqb_eq in Hc. apply Z.leb_le in Hb.
    change (fexp prec emax) with fexp64 in Hc. change (Z.sub emax prec) with 971 in Hb.
    change (Zpos (digits2_pos mx)) with (Zdigits2 (Zpos mx)) in Hc.
    destruct (binary_round_aux_spec (xorb sx true) (Zpos (mx * 4503599627370496))
                (ex + -52) loc_Exact 0 1 ltac:(lia) loc_exact_ok)
      as (m2 & Hm2 & Herr & Heq).
    cbn zeta in Heq. rewrite Heq. clear Heq.
    rewrite Pos2Z.inj_mul in *. change (Zpos 4503599627370496) with (2 ^ 52) in *.
    rewrite Zdigits2_shiftl in * by lia.
    replace (Zdigits2 (Zpos mx) + 52 + (ex + -52)) with (Zdigits2 (Zpos mx) + ex) in * by lia.
    rewrite Hc in *.
    replace (Z.max 0 (ex - (ex + -52))) with 52 in * by lia.
    rewrite Z.div_mul in Hm2 by lia.
    assert (Hm2' : m2 = Zpos mx) by lia. subst m2.
    replace (ex + -52 + 52) with ex by lia. rewrite Hc.
    replace (Z.max 0 (ex - ex)) with 0 by lia.
    rewrite Z.pow_0_r, Z.div_1_r, Z.add_0_r. unfold mk_float.
    apply Z.leb_le in Hb. rewrite Hb. destruct sx; reflexivity.
Qed.

(* ---------- round ---------- *)
Lemma round_half_even_spec n d :
  0 <= n -> 0 < d ->
  0 <= round_half_even n d /\ Z.abs (2 * (round_half_even n d * d - n)) <= d.
Proof.
  intros Hn Hd. unfold round_half_even.
  pose proof (Z.div_mod n d ltac:(lia)) as Hdm.
  pose proof (Z.mod_pos_bound n d Hd) as Hr.
  assert (Hq : 0 <= n / d) by (apply Z.div_pos; lia).
  set (q := n / d) in *. set (r := n mod d) in *.
  destruct (Z.compare_spec (2 * r) d); [destruct (Z.even q)| |]; split; nia.
Qed.

Lemma round_valid x y :
  valid_binary prec emax x = true -> round x 4 = Ok y ->
  valid_binary prec emax y = true.
Proof.
  intros Hv. unfold round. destruct x as [sx|sx| |sx mx ex];
    try (intros Hres; injection Hres as <-; exact Hv).
  destruct (Z.leb_spec 0 ex); [intros Hres; injection Hres as <-; exact Hv|].
  set (k := round_half_even _ _).
  assert (Hk : 0 <= k).
  { apply round_half_even_spec; [lia|apply Z.pow_pos_nonneg; lia]. }
  destruct (Z.eqb_spec k 0); [intros Hres; injection Hres as <-; reflexivity|].
  intros Hres. apply finite_or_overflow_ok in Hres. subst.
  apply div_pos_valid; lia.
Qed.

Lemma round_sign x y :
  sign_false x = true -> round x 4 = Ok y -> sign_false y = true.
Proof.
  intros Hs. unfold round. destruct x as [sx|sx| |sx mx ex];
    try (intros Hres; injection Hres as <-; exact Hs).
  destruct sx; [discriminate|].
  destruct (Z.leb_spec 0 ex); [intros Hres; injection Hres as <-; exact Hs|].
  set (k := round_half_even _ _).
  assert (Hk : 0 <= k).
  { apply round_half_even_spec; [lia|apply Z.pow_pos_nonneg; lia]. }
  destruct (Z.eqb_spec k 0); [intros Hres; injection Hres as <-; reflexivity|].
  intros Hres. apply finite_or_overflow_ok in Hres. subst.
  apply div_pos_sign; lia.
Qed.

(** What [round(x, 4)] returns on a non-negative finite [x]: [x] itself
    when it is an integer, otherwise [k / 10000] for the integer [k]
    nearest to [10000 x]. *)
Lemma round_cases x :
  finite_signed false x ->
  (round x 4 = Ok x /\ exists z, SF2R x = IZR z) \/
  (exists k, (0 <= k)%Z /\ (Rabs (IZR k - 10000 * SF2R x) <= 1 / 2)%R /\
             round x 4 = (if (k =? 0)%Z then Ok (S754_zero false)
                          else finite_or_overflow (div_pos false k 10000))).
Proof.
  intros Hf. destruct x as [sx| | |sx mx ex]; try contradiction; simpl in Hf; subst.
  - left. split; [reflexivity|]. exists 0. reflexivity.
  - unfold round. destruct (Z.leb_spec 0 ex) as [Hex|Hex].
    + left. split; [reflexivity|]. exists (Zpos mx * 2 ^ ex).
      cbn [SF2R]. unfold sgn. rewrite mult_IZR, <- bpow_IZR by lia. ring.
    + right. set (k := round_half_even (Zpos mx * 10 ^ 4) (2 ^ (- ex))).
      assert (HP : 0 < 2 ^ (- ex)) by (apply Z.pow_pos_nonneg; lia).
      destruct (round_half_even_spec (Zpos mx * 10 ^ 4) (2 ^ (- ex)) ltac:(lia) HP)
        as [Hk Herr].
      fold k in Hk, Herr. exists k. split; [exact Hk|]. split; [|reflexivity].
      apply Z.abs_le in Herr. destruct Herr as [Hlo Hhi].
      apply IZR_le in Hlo, Hhi. push_IZR_in Hlo. push_IZR_in Hhi.
      rewrite <- !bpow_IZR in Hlo, Hhi by lia.
      change (IZR (10 ^ 4)) with 10000%R in *.
      cbn [SF2R]. unfold sgn. rewrite Rmult_1_l.
      assert (Hone : (bpow (- ex) * bpow ex = 1)%R).
      { rewrite <- bpow_add. replace (- ex + ex) with 0 by lia. reflexivity. }
      pose proof (bpow_pos (- ex)) as Hp1. pose proof (bpow_pos ex) as Hp2.
      set (P := bpow (- ex)) in *. set (Q := bpow ex) in *.
      set (M := IZR (Zpos mx)) in *. set (K := IZR k) in *.
      apply Rabs_le. split; apply Rmult_le_reg_l with (2 * P)%R; try lra.
      * replace (2 * P * (K - 10000 * (M * Q)))%R
          with (2 * (K * P - M * 10000 * (P * Q)))%R by ring.
        rewrite Hone. lra.
      * replace (2 * P * (K - 10000 * (M * Q)))%R
          with (2 * (K * P - M * 10000 * (P * Q)))%R by ring.
        rewrite Hone. lra.
Qed.

(* ---------- deg_to_dec ---------- *)
Lemma bpow_neg n : bpow (- n) = (/ bpow n)%R.
Proof. apply powerRZ_neg'. Qed.

Lemma bpow_m21 : bpow (-21) = (/ 2097152)%R.
Proof. change (-21) with (- (21)). rewrite bpow_neg, bpow_IZR by lia. reflexivity. Qed.

Lemma bpow_m44 : bpow (-44) = (/ 17592186044416)%R.
Proof. change (-44) with (- (44)). rewrite bpow_neg, bpow_IZR by lia. reflexivity. Qed.

Lemma bpow_31 : bpow 31 = 2147483648%R.
Proof. rewrite bpow_IZR by lia. reflexivity. Qed.

Lemma dms_sum d m s :
  0 <= d -> 0 <= m -> 0 <= s -> 3600 * d + 60 * m + s <= 3600 * 2 ^ 30 ->
  exists xm xd xs,
    true_divide m 60 = Ok xm /\ of_int d = Ok xd /\ true_divide s 3600 = Ok xs /\
    finite_signed false (add (add xd xm) xs) /\
    (Rabs (SF2R (add (add xd xm) xs) - exact_dms d m s) <= 5 * (3 / 2 * / 2097152))%R.
Proof.
  intros Hd Hm Hs HN. change (2 ^ 30) with 1073741824 in HN.
  destruct (true_divide_R m 60 31 Hm ltac:(lia)) as (xm & Hxm & Hfm & Hbm);
    [change (2 ^ 31) with 2147483648; lia|lia|].
  destruct (of_int_R d 31 Hd) as (xd & Hxd & Hfd & Hbd);
    [change (2 ^ 31) with 2147483648; lia|lia|].
  destruct (true_divide_R s 3600 31 Hs ltac:(lia)) as (xs & Hxs & Hfs & Hbs);
    [change (2 ^ 31) with 2147483648; lia|lia|].
  change (31 - 52) with (-21) in *. rewrite bpow_m21 in *.
  exists xm, xd, xs. repeat (split; [assumption|]).
  assert (HdR : (0 <= IZR d)%R) by (apply IZR_le; lia).
  assert (HmR : (0 <= IZR m)%R) by (apply IZR_le; lia).
  assert (HsR : (0 <= IZR s)%R) by (apply IZR_le; lia).
  assert (HNR : (3600 * IZR d + 60 * IZR m + IZR s <= 3600 * 1073741824)%R).
  { apply IZR_le in HN. push_IZR_in HN. exact HN. }
  apply Rabs_le_inv in Hbm, Hbd, Hbs.
  destruct (add_R xd xm 31 Hfd Hfm) as [Hf1 Hb1]; [rewrite bpow_31; lra|lia|].
  change (31 - 52) with (-21) in *. rewrite bpow_m21 in *.
  apply Rabs_le_inv in Hb1.
  destruct (add_R (add xd xm) xs 31 Hf1 Hfs) as [Hf2 Hb2]; [rewrite bpow_31; lra|lia|].
  change (31 - 52) with (-21) in *. rewrite bpow_m21 in *.
  apply Rabs_le_inv in Hb2.
  split; [exact Hf2|]. unfold exact_dms. apply Rabs_le. lra.
Qed.

(** The result of [deg_to_dec] in the northern or eastern hemisphere, for
    a value of at most [2^30] degrees. *)
Lemma deg_to_dec_core d m s h :
  0 <= d -> 0 <= m -> 0 <= s -> 3600 * d + 60 * m + s <= 3600 * 2 ^ 30 ->
  south_or_west h = false ->
  exists x,
    deg_to_dec d m s h = Ok x /\ finite_signed false x /\
    ((exists z, SF2R x = IZR z /\
                (Rabs (SF2R x - exact_dms d m s) <= 5 * (3 / 2 * / 2097152))%R)
     \/ (exists k, 0 <= k /\ Z.abs (9 * k - 25 * (3600 * d + 60 * m + s)) <= 4 /\
                   x = (if k =? 0 then S754_zero false else div_pos false k 10000))).
Proof.
  intros Hd Hm Hs HN Hh.
  destruct (dms_sum d m s Hd Hm Hs HN) as (xm & xd & xs & Hxm & Hxd & Hxs & Hf & Hb).
  unfold deg_to_dec. rewrite Hxm, Hxd, Hxs. cbn [bind].
  fold (south_or_west h). rewrite Hh.
  set (x2 := add (add xd xm) xs) in *.
  destruct (round_cases x2 Hf) as [[Hr (z & Hz)]|(k & Hk & Hkb & Hr)]; rewrite Hr; cbn [bind].
  - exists x2. split; [reflexivity|]. split; [exact Hf|]. left. exists z. auto.
  - assert (Hk9 : Z.abs (9 * k - 25 * (3600 * d + 60 * m + s)) <= 4).
    { apply Rabs_le_inv in Hkb, Hb. unfold exact_dms in Hb.
      assert (-5 < 9 * k - 25 * (3600 * d + 60 * m + s) < 5); [|lia].
      split; apply lt_IZR; push_IZR; lra. }
    change (2 ^ 30) with 1073741824 in HN.
    destruct (Z.eqb_spec k 0) as [->|Hk0].
    + exists (S754_zero false). split; [reflexivity|]. split; [reflexivity|].
      right. exists 0. auto.
    + destruct (div_pos_R false k 10000 31 ltac:(lia) ltac:(lia)) as [Hfk _];
        [change (2 ^ 31) with 2147483648; lia|lia|].
      exists (div_pos false k 10000).
      split; [rewrite (finite_or_overflow_finite false _ Hfk); reflexivity|].
      split; [exact Hfk|]. right. exists k.
      destruct (Z.eqb_spec k 0); [contradiction|]. auto.
Qed.

Lemma finite_signed_is_finite s x : finite_signed s x -> is_finite x = true.
Proof. destruct x; simpl; tauto. Qed.

Lemma exact_dms_3600 d m s :
  (3600 * exact_dms d m s = IZR (3600 * d + 60 * m + s))%R.
Proof. unfold exact_dms. push_IZR. field. Qed.

Lemma deg_to_dec_accuracy_pos d m s h :
  0 <= d -> 0 <= m -> 0 <= s -> 3600 * d + 60 * m + s <= 3600 * 2 ^ 30 ->
  south_or_west h = false ->
  exists x,
    deg_to_dec d m s h = Ok x /\ finite_signed false x /\
    (Rabs (SF2R x - exact_dms d m s) <= 1 / 20000)%R.
Proof.
  intros Hd Hm Hs HN Hh.
  destruct (deg_to_dec_core d m s h Hd Hm Hs HN Hh) as (x & Hx & Hf & Hc).
  exists x. split; [exact Hx|]. split; [exact Hf|].
  destruct Hc as [(z & _ & Hb)|(k & Hk & Hk9 & ->)].
  - eapply Rle_trans; [exact Hb|]. lra.
  - pose proof (exact_dms_3600 d m s) as HE.
    set (N := 3600 * d + 60 * m + s) in *. set (E := exact_dms d m s) in *.
    apply Z.abs_le in Hk9. destruct Hk9 as [Hlo Hhi].
    change (2 ^ 30) with 1073741824 in HN.
    destruct (Z.eqb_spec k 0) as [Hk0|Hk0].
    + assert (HN0 : N = 0) by lia. simpl. rewrite HN0 in HE. apply Rabs_le. lra.
    + destruct (div_pos_R false k 10000 31 ltac:(lia) ltac:(lia)) as [_ Hb];
        [change (2 ^ 31) with 2147483648; lia|lia|].
      change (31 - 52) with (-21) in Hb. rewrite bpow_m21 in Hb.
      unfold sgn in Hb. rewrite Rmult_1_l in Hb. apply Rabs_le_inv in Hb.
      apply IZR_le in Hlo, Hhi. push_IZR_in Hlo. push_IZR_in Hhi.
      rewrite <- HE in Hlo, Hhi. apply Rabs_le. lra.
Qed.

Lemma deg_to_dec_range_pos b d m s h :
  0 <= b <= 255 ->
  (SF2R (div_pos false (10000 * b) 10000) <= IZR b)%R ->
  0 <= d -> 0 <= m -> 0 <= s -> 3600 * d + 60 * m + s <= 3600 * b ->
  south_or_west h = false ->
  exists x,
    deg_to_dec d m s h = Ok x /\ finite_signed false x /\
    (0 <= SF2R x <= IZR b)%R.
Proof.
  intros Hb Hexact Hd Hm Hs HN Hh.
  assert (HN30 : 3600 * d + 60 * m + s <= 3600 * 2 ^ 30)
    by (change (2 ^ 30) with 1073741824; lia).
  destruct (deg_to_dec_core d m s h Hd Hm Hs HN30 Hh) as (x & Hx & Hf & Hc).
  exists x. split; [exact Hx|]. split; [exact Hf|].
  split; [apply SF2R_finite_false; exact Hf|].
  pose proof (exact_dms_3600 d m s) as HE.
  set (N := 3600 * d + 60 * m + s) in *. set (E := exact_dms d m s) in *.
  assert (HNR : (IZR N <= 3600 * IZR b)%R).
  { apply IZR_le in HN. push_IZR_in HN. exact HN. }
  destruct Hc as [(z & Hz & Hbd)|(k & Hk & Hk9 & ->)].
  - rewrite Hz in *. apply Rabs_le_inv in Hbd. apply IZR_le.
    assert (z < b + 1); [|lia]. apply lt_IZR. push_IZR. lra.
  - apply Z.abs_le in Hk9. destruct Hk9 as [Hlo Hhi].
    destruct (Z.eqb_spec k 0) as [Hk0|Hk0].
    + simpl. apply IZR_le. lia.
    + destruct (Z.eq_dec k (10000 * b)) as [Hkb|Hne]; [rewrite Hkb; exact Hexact|].
      assert (Hk1 : k <= 10000 * b - 1) by lia.
      destruct (div_pos_R false k 10000 8 ltac:(lia) ltac:(lia)) as [_ Hbd];
        [change (2 ^ 8) with 256; lia|lia|].
      change (8 - 52) with (-44) in Hbd. rewrite bpow_m44 in Hbd.
      unfold sgn in Hbd. rewrite Rmult_1_l in Hbd. apply Rabs_le_inv in Hbd.
      apply IZR_le in Hk1. push_IZR_in Hk1. lra.
Qed.

Lemma SF2R_neg x : SF2R (neg x) = (- SF2R x)%R.
Proof. destruct x as [| | |[] m e]; simpl; unfold sgn; lra. Qed.

Lemma is_finite_neg x : is_finite (neg x) = is_finite x.
Proof. destruct x; reflexivity. Qed.

Lemma deg_to_dec_refines d m s h : deg_to_dec d m s h = deg_to_dec_spec d m s h.
Proof.
  unfold deg_to_dec, deg_to_dec_spec.
  destruct (true_divide m 60) as [xm|] eqn:Hm; [|reflexivity].
  destruct (of_int d) as [xd|] eqn:Hd; [|reflexivity].
  destruct (true_divide s 3600) as [xs|] eqn:Hs; [|reflexivity].
  cbn [bind].
  destruct (round (add (add xd xm) xs) 4) as [dec|] eqn:Hr; [|reflexivity].
  cbn [bind existsb]. rewrite orb_false_r.
  destruct (str_eqb h (py "S") || str_eqb h (py "W")); [|reflexivity].
  unfold mul_int. rewrite of_int_minus_one. cbn [bind]. f_equal.
  apply mul_minus_one. eapply round_valid; [|exact Hr].
  apply add_valid; [apply add_valid|].
  - eapply of_int_valid; exact Hd.
  - eapply true_divide_valid; exact Hm.
  - eapply true_divide_valid; exact Hs.
Qed.

Lemma exact_90 : (SF2R (div_pos false (10000 * 90) 10000) <= IZR 90)%R.
Proof.
  replace (div_pos false (10000 * 90) 10000)
    with (S754_finite false 6333186975989760 (-46)) by (vm_compute; reflexivity).
  cbn [SF2R]. unfold sgn. change (-46) with (- (46)).
  rewrite bpow_neg, bpow_IZR by lia.
  change (IZR (2 ^ 46)) with 70368744177664%R. lra.
Qed.

Lemma exact_180 : (SF2R (div_pos false (10000 * 180) 10000) <= IZR 180)%R.
Proof.
  replace (div_pos false (10000 * 180) 10000)
    with (S754_finite false 6333186975989760 (-45)) by (vm_compute; reflexivity).
  cbn [SF2R]. unfold sgn. change (-45) with (- (45)).
  rewrite bpow_neg, bpow_IZR by lia.
  change (IZR (2 ^ 45)) with 35184372088832%R. lra.
Qed.

(* ================================================================= *)
(** * Strings *)

Lemma startswith_app p s : startswith p (p ++ s) = true.
Proof. induction p as [|c p IH]; simpl; [reflexivity|]. rewrite N.eqb_refl. exact IH. Qed.

Lemma startswith_spec p s : startswith p s = true -> s = p ++ skipn (length p) s.
Proof.
  revert s. induction p as [|c p IH]; intros s H; [reflexivity|].
  destruct s as [|x s]; [discriminate|]. simpl in H.
  apply andb_true_iff in H. destruct H as [Hx Hp]. apply N.eqb_eq in Hx. subst.
  simpl. f_equal. apply IH. exact Hp.
Qed.

Lemma partition_spec sep s a b : partition sep s = Some (a, b) -> s = a ++ sep ++ b.
Proof.
  revert a b. induction s as [|c s IH]; intros a b H.
  - simpl in H. destruct (startswith sep []) eqn:Hs; [|discriminate].
    injection H as <- <-. apply startswith_spec in Hs. exact Hs.
  - cbn [partition] in H. destruct (startswith sep (c :: s)) eqn:Hs.
    + injection H as <- <-. apply startswith_spec in Hs. exact Hs.
    + destruct (partition sep s) as [[a' b']|] eqn:Hp; [|discriminate].
      injection H as <- <-. rewrite (IH a' b' eq_refl). reflexivity.
Qed.

Lemma partition_length sep s a b :
  sep <> [] -> partition sep s = Some (a, b) -> (length b < length s)%nat.
Proof.
  intros Hsep H. apply partition_spec in H. subst. rewrite !length_app.
  destruct sep; [contradiction|]. simpl. lia.
Qed.

Lemma partition_unfold sep s :
  partition sep s =
  if startswith sep s then Some ([], skipn (length sep) s)
  else match s with
       | [] => None
       | c :: s' =>
           match partition sep s' with
           | Some (a, b) => Some (c :: a, b)
           | None => None
           end
       end.
Proof. destruct s; reflexivity. Qed.

Lemma partition_app_some sep a b : partition sep (a ++ sep ++ b) <> None.
Proof.
  induction a as [|c a IH].
  - rewrite partition_unfold. cbn [app]. rewrite startswith_app. discriminate.
  - rewrite partition_unfold. cbn [app].
    destruct (startswith sep (c :: a ++ sep ++ b)); [discriminate|].
    destruct (partition sep (a ++ sep ++ b)) as [[? ?]|]; [discriminate|contradiction].
Qed.

Lemma contains_app sep a b : contains sep (a ++ sep ++ b) = true.
Proof.
  unfold contains. pose proof (partition_app_some sep a b).
  destruct (partition sep (a ++ sep ++ b)); [reflexivity|contradiction].
Qed.

(** The unfolding equations of [split] and [replace]. *)
Lemma split_fuel_enough sep s n :
  sep <> [] -> (length s <= n)%nat -> split_fuel n sep s = split_fuel (length s) sep s.
Proof.
  intros Hsep. remember (length s) as len eqn:Hlen.
  revert s n Hlen. induction len as [len IH] using lt_wf_ind. intros s n Hlen Hn.
  destruct n as [|n], len as [|len]; try lia; try reflexivity.
  - destruct s; [|discriminate]. simpl.
    destruct (startswith sep []) eqn:E; [|reflexivity].
    destruct sep; [contradiction|discriminate].
  - cbn [split_fuel]. destruct (partition sep s) as [[a b]|] eqn:Hp; [|reflexivity].
    pose proof (partition_length sep s a b Hsep Hp) as Hb. f_equal.
    rewrite (IH (length b) ltac:(lia) b n eq_refl ltac:(lia)).
    rewrite (IH (length b) ltac:(lia) b len eq_refl ltac:(lia)). reflexivity.
Qed.

Lemma split_eq sep s :
  sep <> [] ->
  split sep s = match partition sep s with
                | None => [s]
                | Some (a, b) => a :: split sep b
                end.
Proof.
  intros Hsep. unfold split. destruct s as [|c s].
  - simpl. destruct (startswith sep []) eqn:E; [|reflexivity].
    destruct sep; [contradiction|discriminate].
  - cbn [length split_fuel]. destruct (partition sep (c :: s)) as [[a b]|] eqn:Hp; [|reflexivity].
    pose proof (partition_length sep (c :: s) a b Hsep Hp) as Hb. simpl in Hb.
    f_equal. apply split_fuel_enough; [assumption|lia].
Qed.

Lemma replace_fuel_enough old new s n :
  old <> [] -> (length s <= n)%nat ->
  replace_fuel n old new s = replace_fuel (length s) old new s.
Proof.
  intros Hsep. remember (length s) as len eqn:Hlen.
  revert s n Hlen. induction len as [len IH] using lt_wf_ind. intros s n Hlen Hn.
  destruct n as [|n], len as [|len]; try lia; try reflexivity.
  - destruct s; [|discriminate]. simpl.
    destruct (startswith old []) eqn:E; [|reflexivity].
    destruct old; [contradiction|discriminate].
  - cbn [replace_fuel]. destruct (partition old s) as [[a b]|] eqn:Hp; [|reflexivity].
    pose proof (partition_length old s a b Hsep Hp) as Hb. do 2 f_equal.
    rewrite (IH (length b) ltac:(lia) b n eq_refl ltac:(lia)).
    rewrite (IH (length b) ltac:(lia) b len eq_refl ltac:(lia)). reflexivity.
Qed.

Lemma replace_eq old new s :
  old <> [] ->
  replace old new s = match partition old s with
                      | None => s
                      | Some (a, b) => a ++ new ++ replace old new b
                      end.
Proof.
  intros Hsep. unfold replace. destruct s as [|c s].
  - simpl. destruct (startswith old []) eqn:E; [|reflexivity].
    destruct old; [contradiction|discriminate].
  - cbn [length replace_fuel]. destruct (partition old (c :: s)) as [[a b]|] eqn:Hp; [|reflexivity].
    pose proof (partition_length old (c :: s) a b Hsep Hp) as Hb. simpl in Hb.
    do 2 f_equal. apply replace_fuel_enough; [assumption|lia].
Qed.

Lemma startswith_cons a p y s :
  startswith (a :: p) (y :: s) = (a =? y)%N && startswith p s.
Proof. reflexivity. Qed.

(** A prefix free of the separator's first character is skipped. *)
Lemma partition_skip c0 sep' pre q :
  ~ In c0 pre ->
  partition (c0 :: sep') (pre ++ q) = prepend pre (partition (c0 :: sep') q).
Proof.
  intros Hpre. induction pre as [|x pre IH].
  - simpl. destruct (partition (c0 :: sep') q) as [[a b]|]; reflexivity.
  - rewrite partition_unfold, <- app_comm_cons, startswith_cons.
    assert (Hx : (c0 =? x)%N = false) by (apply N.eqb_neq; intros ->; apply Hpre; left; reflexivity).
    rewrite Hx. cbn [andb]. rewrite IH by (intros Hin; apply Hpre; right; exact Hin).
    destruct (partition (c0 :: sep') q) as [[a b]|]; reflexivity.
Qed.

(** So is a prefix free of its second character, before a text that does
    not start with it. *)
Lemma partition_skip2 c0 c1 sep' pre q :
  ~ In c1 pre -> (forall q', q <> c1 :: q') ->
  partition (c0 :: c1 :: sep') (pre ++ q) = prepend pre (partition (c0 :: c1 :: sep') q).
Proof.
  intros Hpre Hq. induction pre as [|x pre IH].
  - simpl. destruct (partition (c0 :: c1 :: sep') q) as [[a b]|]; reflexivity.
  - rewrite partition_unfold, <- app_comm_cons, startswith_cons.
    assert (Hs : startswith (c1 :: sep') (pre ++ q) = false).
    { destruct pre as [|y pre].
      - destruct q as [|z q]; [reflexivity|]. rewrite app_nil_l, startswith_cons.
        assert (Hz : (c1 =? z)%N = false) by (apply N.eqb_neq; intros <-; eapply Hq; reflexivity).
        rewrite Hz. reflexivity.
      - rewrite <- app_comm_cons, startswith_cons.
        assert (Hy : (c1 =? y)%N = false)
          by (apply N.eqb_neq; intros ->; apply Hpre; right; left; reflexivity).
        rewrite Hy. reflexivity. }
    rewrite Hs, andb_false_r. rewrite IH by (intros Hin; apply Hpre; right; exact Hin).
    destruct (partition (c0 :: c1 :: sep') q) as [[a b]|]; reflexivity.
Qed.

Lemma partition_nil c0 sep' : partition (c0 :: sep') [] = None.
Proof. reflexivity. Qed.

(** ** Digits *)

Lemma isdigit_cases c :
  isdigit c = true ->
  (c = 48 \/ c = 49 \/ c = 50 \/ c = 51 \/ c = 52 \/ c = 53 \/ c = 54 \/ c = 55
   \/ c = 56 \/ c = 57)%N.
Proof.
  unfold isdigit. intros H. apply andb_true_iff in H. destruct H as [H1 H2].
  apply N.leb_le in H1, H2. lia.
Qed.

Lemma isdigit_not c x :
  isdigit c = true -> isdigit x = false -> c <> x.
Proof. intros Hc Hx ->. congruence. Qed.

Lemma isdigit_not_space c : isdigit c = true -> isspace c = false.
Proof.
  intros H. apply isdigit_cases in H.
  repeat (destruct H as [->|H]; [reflexivity|]). subst. reflexivity.
Qed.

Lemma digits_not_in ds x :
  forallb isdigit ds = true -> isdigit x = false -> ~ In x ds.
Proof.
  intros Hds Hx Hin. rewrite forallb_forall in Hds. apply Hds in Hin. congruence.
Qed.

Lemma int_digits_all ds acc :
  forallb isdigit ds = true ->
  int_digits acc ds = Some (fold_left (fun a c => 10 * a + digit_value c) ds acc).
Proof.
  revert acc. induction ds as [|c ds IH]; intros acc H; [reflexivity|].
  simpl in H. apply andb_true_iff in H. destruct H as [Hc Hds].
  cbn [int_digits fold_left]. rewrite Hc. apply IH. exact Hds.
Qed.

Lemma int_digits_bad c s acc :
  In c s -> isdigit c = false -> c <> 95%N -> int_digits acc s = None.
Proof.
  intros Hin Hc H95. revert acc. induction s as [|x s IH]; intros acc; [contradiction|].
  cbn [int_digits]. destruct (isdigit x) eqn:Hx.
  - apply IH. destruct Hin as [->|Hin]; [congruence|exact Hin].
  - destruct (N.eqb_spec x 95) as [->|Hne]; [|reflexivity].
    destruct Hin as [Heq|Hin]; [congruence|].
    destruct s as [|d s']; [reflexivity|]. destruct (isdigit d); [|reflexivity].
    apply IH. exact Hin.
Qed.

Lemma digit_value_range c : isdigit c = true -> 0 <= digit_value c <= 9.
Proof.
  intros H. apply isdigit_cases in H. unfold digit_value.
  repeat (destruct H as [->|H]; [simpl; lia|]). subst. simpl. lia.
Qed.

Lemma fold_digits_nonneg ds acc :
  forallb isdigit ds = true -> 0 <= acc ->
  0 <= fold_left (fun a c => 10 * a + digit_value c) ds acc.
Proof.
  revert acc. induction ds as [|c ds IH]; intros acc H Hacc; [exact Hacc|].
  simpl in H. apply andb_true_iff in H. destruct H as [Hc Hds].
  cbn [fold_left]. apply IH; [exact Hds|]. pose proof (digit_value_range c Hc). lia.
Qed.

Lemma digits_value_nonneg ds : forallb isdigit ds = true -> 0 <= digits_value ds.
Proof. intros H. apply fold_digits_nonneg; [exact H|lia]. Qed.

(** ** strip *)

Lemma lstrip_id c s : isspace c = false -> lstrip (c :: s) = c :: s.
Proof. intros H. simpl. rewrite H. reflexivity. Qed.

Lemma rstrip_id s c : isspace c = false -> rstrip (s ++ [c]) = s ++ [c].
Proof.
  intros H. unfold rstrip. rewrite rev_app_distr. cbn [rev app].
  rewrite lstrip_id by exact H. change (c :: rev s) with ([c] ++ rev s).
  rewrite rev_app_distr, rev_involutive. reflexivity.
Qed.

Lemma rev_repeat_char (x : char) k : rev (repeat x k) = repeat x k.
Proof.
  induction k as [|k IH]; [reflexivity|]. cbn [repeat rev]. rewrite IH.
  symmetry. apply repeat_cons.
Qed.

Lemma rstrip_spaces s k : rstrip (s ++ repeat 32%N k) = rstrip s.
Proof.
  unfold rstrip. rewrite rev_app_distr, rev_repeat_char. f_equal.
  induction k as [|k IH]; [reflexivity|]. cbn [repeat app lstrip].
  change (isspace 32%N) with true. cbn iota. exact IH.
Qed.

Lemma lstrip_In c s : In c s -> isspace c = false -> In c (lstrip s).
Proof.
  intros Hin Hc. induction s as [|x s IH]; [contradiction|].
  cbn [lstrip]. destruct (isspace x) eqn:Hx; [|exact Hin].
  apply IH. destruct Hin as [->|Hin]; [congruence|exact Hin].
Qed.

Lemma strip_In c s : In c s -> isspace c = false -> In c (strip s).
Proof.
  intros Hin Hc. unfold strip, rstrip. rewrite <- in_rev.
  apply lstrip_In; [|exact Hc]. rewrite <- in_rev. apply lstrip_In; assumption.
Qed.

Lemma exists_last_digit ds :
  ds <> [] -> forallb isdigit ds = true ->
  exists ds' c, ds = ds' ++ [c] /\ isdigit c = true.
Proof.
  intros Hne Hds. destruct (exists_last Hne) as (ds' & c & ->).
  exists ds', c. split; [reflexivity|]. rewrite forallb_app in Hds.
  apply andb_true_iff in Hds. destruct Hds as [_ Hc]. simpl in Hc.
  rewrite andb_true_r in Hc. exact Hc.
Qed.

Lemma strip_digits ds k :
  ds <> [] -> forallb isdigit ds = true -> strip (ds ++ repeat 32%N k) = ds.
Proof.
  intros Hne Hds. unfold strip.
  destruct ds as [|c ds']; [contradiction|].
  assert (Hc : isdigit c = true) by (simpl in Hds; apply andb_true_iff in Hds; tauto).
  cbn [app]. rewrite lstrip_id by (apply isdigit_not_space; exact Hc).
  change (c :: ds' ++ repeat 32%N k) with ((c :: ds') ++ repeat 32%N k).
  rewrite rstrip_spaces.
  destruct (exists_last_digit (c :: ds') Hne Hds) as (p & l & -> & Hl).
  apply rstrip_id. apply isdigit_not_space. exact Hl.
Qed.

(** ** int *)

Lemma int_of_digits ds k :
  ds <> [] -> forallb isdigit ds = true ->
  int (ds ++ repeat 32%N k) = Ok (digits_value ds).
Proof.
  intros Hne Hds. unfold int. rewrite strip_digits by assumption.
  destruct ds as [|c ds']; [contradiction|].
  assert (Hc : isdigit c = true) by (simpl in Hds; apply andb_true_iff in Hds; tauto).
  assert (H45 : (c =? 45)%N = false).
  { apply N.eqb_neq. apply isdigit_not with (1 := Hc). reflexivity. }
  assert (H43 : (c =? 43)%N = false).
  { apply N.eqb_neq. apply isdigit_not with (1 := Hc). reflexivity. }
  rewrite H45, H43, Hc. rewrite int_digits_all by exact Hds. reflexivity.
Qed.

Lemma int_bad c s :
  In c s -> isdigit c = false -> isspace c = false ->
  c <> 95%N -> c <> 45%N -> c <> 43%N ->
  int s = Raise ValueError.
Proof.
  intros Hin Hd Hsp H95 H45 H43. unfold int.
  pose proof (strip_In c s Hin Hsp) as Ht. set (t := strip s) in *.
  assert (Hbody : forall (sg : bool) body,
             In c body ->
             match body with
             | x :: _ =>
                 if isdigit x then
                   match int_digits 0 body with
                   | Some v => Ok (if sg then - v else v)
                   | None => Raise ValueError
                   end
                 else Raise ValueError
             | [] => Raise ValueError
             end = Raise ValueError).
  { intros sg body Hb. destruct body as [|x body']; [reflexivity|].
    destruct (isdigit x); [|reflexivity].
    rewrite (int_digits_bad c (x :: body') 0 Hb Hd H95). reflexivity. }
  destruct t as [|x r]; [contradiction|].
  destruct (N.eqb_spec x 45) as [->|Hx45].
  - apply (Hbody true r). destruct Ht as [Heq|Hr]; [congruence|exact Hr].
  - destruct (N.eqb_spec x 43) as [->|Hx43].
    + apply (Hbody false r). destruct Ht as [Heq|Hr]; [congruence|exact Hr].
    + apply (Hbody false (x :: r)). exact Ht.
Qed.

Lemma int_raises s e : int s = Raise e -> e = ValueError.
Proof.
  unfold int.
  match goal with
  | |- (let '(_, _) := ?p in _) = _ -> _ => destruct p as [sg body]
  end.
  destruct body as [|x b]; [congruence|].
  destruct (isdigit x); [|congruence].
  destruct (int_digits 0 (x :: b)); congruence.
Qed.

(** ** replace *)

Lemma replace_In c old new s :
  old <> [] -> In c s -> ~ In c old -> In c (replace old new s).
Proof.
  intros Hold. remember (length s) as len eqn:Hlen. revert s Hlen.
  induction len as [len IH] using lt_wf_ind. intros s Hlen Hin Hnot.
  rewrite replace_eq by exact Hold.
  destruct (partition old s) as [[a b]|] eqn:Hp; [|exact Hin].
  pose proof (partition_length old s a b Hold Hp) as Hb.
  apply partition_spec in Hp. subst s.
  rewrite !in_app_iff in Hin. rewrite !in_app_iff.
  destruct Hin as [Ha|[Ho|Hb']]; [left; exact Ha|contradiction|].
  right. right. eapply IH; [|reflexivity|exact Hb'|exact Hnot]. subst len. exact Hb.
Qed.

(* ================================================================= *)
(** * The matcher *)

(** ** Soundness: a match splits the text into a word of the pattern's
    language and the rest, which the continuation accepted. *)

Lemma rounds_sound r k :
  (forall i s c k' m, run r i s c k' = Some m ->
     exists s1 s2 i' c', s = s1 ++ s2 /\ lang r s1 /\ k' i' s2 c' = Some m) ->
  forall fuel i s c m, rounds (run r) k fuel i s c = Some m ->
    exists s1 s2 i' c', s = s1 ++ s2 /\ lang (Star r) s1 /\ k i' s2 c' = Some m.
Proof.
  intros Hbody fuel. induction fuel as [|fuel IH]; intros i s c m H.
  - exists [], s, i, c. split; [reflexivity|]. split; [constructor|exact H].
  - cbn [rounds] in H.
    destruct (run r i s c
                (fun i' s' c' =>
                   if Nat.ltb i i' then rounds (run r) k fuel i' s' c' else None))
      as [m'|] eqn:Hb.
    + injection H as <-. apply Hbody in Hb.
      destruct Hb as (s1 & s2 & i' & c' & -> & Hl & Hk).
      destruct (Nat.ltb i i'); [|discriminate].
      apply IH in Hk. destruct Hk as (t1 & t2 & j & d & -> & Hl2 & Hk).
      exists (s1 ++ t1), t2, j, d. split; [apply app_assoc|]. split; [|exact Hk].
      apply lang_Star_cons; assumption.
    + exists [], s, i, c. split; [reflexivity|]. split; [constructor|exact H].
Qed.

Lemma run_sound r :
  forall i s c k m, run r i s c k = Some m ->
    exists s1 s2 i' c', s = s1 ++ s2 /\ lang r s1 /\ k i' s2 c' = Some m.
Proof.
  induction r as [|a| |cs| |r1 IH1 r2 IH2|r IH|n r IH]; intros i s c k m H;
    cbn [run] in H.
  - exists [], s, i, c. split; [reflexivity|]. split; [constructor|exact H].
  - destruct s as [|x s]; [discriminate|]. destruct (N.eqb_spec x a) as [->|]; [|discriminate].
    exists [a], s, (S i), c. split; [reflexivity|]. split; [constructor|exact H].
  - destruct s as [|x s]; [discriminate|]. destruct (isdigit x) eqn:Hx; [|discriminate].
    exists [x], s, (S i), c. split; [reflexivity|]. split; [constructor; exact Hx|exact H].
  - destruct s as [|x s]; [discriminate|].
    destruct (existsb (N.eqb x) cs) eqn:Hx; [|discriminate].
    exists [x], s, (S i), c. split; [reflexivity|]. split; [constructor; exact Hx|exact H].
  - destruct (Nat.eqb i 0); [|discriminate].
    exists [], s, i, c. split; [reflexivity|]. split; [constructor|exact H].
  - apply IH1 in H. destruct H as (s1 & s2 & i' & c' & -> & Hl1 & H).
    apply IH2 in H. destruct H as (t1 & t2 & j & d & -> & Hl2 & H).
    exists (s1 ++ t1), t2, j, d. split; [apply app_assoc|]. split; [|exact H].
    constructor; assumption.
  - eapply rounds_sound; [exact IH|exact H].
  - apply IH in H. destruct H as (s1 & s2 & i' & c' & -> & Hl & H).
    exists s1, s2, i', ((n, firstn (i' - i) (s1 ++ s2)) :: c').
    split; [reflexivity|]. split; [constructor; exact Hl|exact H].
Qed.

Lemma rmatch_sound r text m :
  rmatch r text = Some m -> exists s1 s2, text = s1 ++ s2 /\ lang r s1.
Proof.
  unfold rmatch. intros H. apply run_sound in H.
  destruct H as (s1 & s2 & _ & _ & -> & Hl & _). exists s1, s2. auto.
Qed.

(** ** The languages of the building blocks *)

Lemma lang_Chr_inv a t : lang (Chr a) t -> t = [a].
Proof. intros H. inversion H. reflexivity. Qed.

Lemma lang_Digit_inv t : lang Digit t -> exists x, t = [x] /\ isdigit x = true.
Proof. intros H. inversion H as [| |x Hx| | | | | |]. exists x. auto. Qed.


Lemma lang_Bol_inv t : lang Bol t -> t = [].
Proof. intros H. inversion H. reflexivity. Qed.

Lemma lang_Eps_inv t : lang Eps t -> t = [].
Proof. intros H. inversion H. reflexivity. Qed.

Lemma lang_Seq_inv r1 r2 t :
  lang (Seq r1 r2) t -> exists s1 s2, t = s1 ++ s2 /\ lang r1 s1 /\ lang r2 s2.
Proof.
  intros H. inversion H as [| | | | |r1' r2' s1 s2 H1 H2| | |]. exists s1, s2. auto.
Qed.

Lemma lang_Group_inv n r t : lang (Group n r) t -> lang r t.
Proof. intros H. inversion H. assumption. Qed.

Lemma lang_Star_inv r t :
  lang (Star r) t ->
  t = [] \/ exists s1 s2, t = s1 ++ s2 /\ lang r s1 /\ lang (Star r) s2.
Proof.
  intros H. inversion H as [| | | | | |r'|r' s1 s2 H1 H2|].
  - left. reflexivity.
  - right. exists s1, s2. auto.
Qed.

Lemma lang_Lit s t : lang (Lit s) t -> t = s.
Proof.
  revert t. induction s as [|c s IH]; intros t H.
  - apply lang_Eps_inv in H. exact H.
  - destruct s as [|c' s'].
    + apply lang_Chr_inv in H. exact H.
    + change (Lit (c :: c' :: s')) with (Seq (Chr c) (Lit (c' :: s'))) in H.
      apply lang_Seq_inv in H. destruct H as (s1 & s2 & -> & H1 & H2).
      apply lang_Chr_inv in H1. apply IH in H2. subst. reflexivity.
Qed.

Lemma lang_star_digit t : lang (Star Digit) t -> forallb isdigit t = true.
Proof.
  intros H. remember (Star Digit) as r eqn:Hr.
  induction H as [| | | | | |r0|r0 s1 s2 H1 _ H2 IH2|]; try discriminate.
  - reflexivity.
  - injection Hr as ->. apply lang_Digit_inv in H1. destruct H1 as (x & -> & Hx).
    cbn [app forallb]. rewrite Hx. apply IH2. reflexivity.
Qed.

Lemma lang_plus_digit t :
  lang (Plus Digit) t -> t <> [] /\ forallb isdigit t = true.
Proof.
  unfold Plus. intros H. apply lang_Seq_inv in H.
  destruct H as (s1 & s2 & -> & H1 & H2).
  apply lang_Digit_inv in H1. destruct H1 as (x & -> & Hx).
  apply lang_star_digit in H2.
  split; [discriminate|]. cbn [app forallb]. rewrite Hx. exact H2.
Qed.

Lemma lang_star_BC t :
  lang (Star (Group 2 (Lit (py " BC")))) t -> exists k, t = rep_BC k.
Proof.
  intros H. remember (Star (Group 2 (Lit (py " BC")))) as r eqn:Hr.
  induction H as [| | | | | |r0|r0 s1 s2 H1 _ H2 IH2|]; try discriminate.
  - exists O. reflexivity.
  - injection Hr as ->. destruct (IH2 eq_refl) as (k & ->).
    apply lang_Group_inv in H1. apply (lang_Lit (py " BC")) in H1. subst.
    exists (S k). reflexivity.
Qed.

Lemma lang_EVENT_RE t :
  lang EVENT_RE t ->
  exists ds k, ds <> [] /\ forallb isdigit ds = true /\
               t = ds ++ rep_BC k ++ py " –".
Proof.
  unfold EVENT_RE. intros H.
  apply lang_Seq_inv in H. destruct H as (s0 & t1 & -> & H0 & H).
  apply lang_Bol_inv in H0. subst s0.
  apply lang_Seq_inv in H. destruct H as (ds & t2 & -> & Hd & H).
  apply lang_Group_inv, lang_plus_digit in Hd. destruct Hd as [Hne Hds].
  apply lang_Seq_inv in H. destruct H as (bc & t3 & -> & Hbc & H).
  apply lang_star_BC in Hbc. destruct Hbc as (k & ->).
  apply lang_Lit in H. subst.
  exists ds, k. repeat split; assumption.
Qed.

(** ** Matches at the first try *)

Lemma run_Digit_cons x s i c k :
  run Digit i (x :: s) c k = if isdigit x then k (S i) s c else None.
Proof. reflexivity. Qed.

Lemma run_Digit_nil i c k : run Digit i [] c k = None.
Proof. reflexivity. Qed.

Lemma run_Group n r i s c k :
  run (Group n r) i s c k =
  run r i s c (fun i' s' c' => k i' s' ((n, firstn (i' - i) s) :: c')).
Proof. reflexivity. Qed.

Lemma run_Star r i s c k : run (Star r) i s c k = rounds (run r) k (length s) i s c.
Proof. reflexivity. Qed.

Lemma run_Seq r1 r2 i s c k :
  run (Seq r1 r2) i s c k = run r1 i s c (fun i' s' c' => run r2 i' s' c' k).
Proof. reflexivity. Qed.

Lemma greedy_Chr a rest : greedy (Chr a) [a] rest (fun c => c).
Proof.
  intros i c k res Hk. cbn [run app]. rewrite N.eqb_refl.
  rewrite Nat.add_1_r in Hk. exact Hk.
Qed.

Lemma greedy_CharSet cs x rest :
  existsb (N.eqb x) cs = true -> greedy (CharSet cs) [x] rest (fun c => c).
Proof.
  intros Hx i c k res Hk. cbn [run app]. rewrite Hx.
  rewrite Nat.add_1_r in Hk. exact Hk.
Qed.

Lemma greedy_Seq r1 r2 s1 s2 rest f1 f2 :
  greedy r1 s1 (s2 ++ rest) f1 -> greedy r2 s2 rest f2 ->
  greedy (Seq r1 r2) (s1 ++ s2) rest (fun c => f2 (f1 c)).
Proof.
  intros H1 H2 i c k res Hk. rewrite run_Seq, <- app_assoc.
  apply H1. apply H2. rewrite length_app, Nat.add_assoc in Hk. exact Hk.
Qed.

Lemma greedy_Lit s rest : greedy (Lit s) s rest (fun c => c).
Proof.
  induction s as [|a s IH].
  - intros i c k res Hk. cbn [Lit run app]. cbn [length] in Hk.
    rewrite Nat.add_0_r in Hk. exact Hk.
  - destruct s as [|b s'].
    + apply greedy_Chr.
    + change (Lit (a :: b :: s')) with (Seq (Chr a) (Lit (b :: s'))).
      change (a :: b :: s') with ([a] ++ (b :: s')).
      apply (greedy_Seq (Chr a) (Lit (b :: s')) [a] (b :: s') rest
               (fun c => c) (fun c => c)); [apply greedy_Chr|exact IH].
Qed.

Lemma greedy_Group n r s1 rest f :
  greedy r s1 rest f -> greedy (Group n r) s1 rest (fun c => (n, s1) :: f c).
Proof.
  intros H i c k res Hk. rewrite run_Group. apply H.
  replace (i + length s1 - i)%nat with (length s1) by lia.
  rewrite firstn_app, Nat.sub_diag, firstn_all. cbn [firstn]. rewrite app_nil_r.
  exact Hk.
Qed.

Lemma rounds_digits k ds :
  forall fuel i rest c res,
    (length ds <= fuel)%nat -> forallb isdigit ds = true -> no_digit_ahead rest ->
    k (i + length ds)%nat rest c = Some res ->
    rounds (run Digit) k fuel i (ds ++ rest) c = Some res.
Proof.
  induction ds as [|d ds IH]; intros fuel i rest c res Hfuel Hds Hrest Hk.
  - cbn [length] in Hk. rewrite Nat.add_0_r in Hk. cbn [app].
    destruct fuel as [|fuel]; [exact Hk|]. cbn [rounds].
    destruct rest as [|x rest]; [rewrite run_Digit_nil; exact Hk|].
    cbn [no_digit_ahead] in Hrest. rewrite run_Digit_cons, Hrest. exact Hk.
  - destruct fuel as [|fuel]; [cbn [length] in Hfuel; lia|].
    cbn [forallb] in Hds. apply andb_true_iff in Hds. destruct Hds as [Hd Hds].
    cbn [rounds app]. rewrite run_Digit_cons, Hd.
    assert (Hlt : Nat.ltb i (S i) = true) by (apply Nat.ltb_lt; lia).
    rewrite Hlt. rewrite (IH fuel (S i) rest c res); [reflexivity| |exact Hds|exact Hrest|].
    + cbn [length] in Hfuel. lia.
    + cbn [length] in Hk. rewrite Nat.add_succ_r in Hk. exact Hk.
Qed.

Lemma greedy_star_digit ds rest :
  forallb isdigit ds = true -> no_digit_ahead rest ->
  greedy (Star Digit) ds rest (fun c => c).
Proof.
  intros Hds Hrest i c k res Hk. rewrite run_Star.
  apply rounds_digits; try assumption. rewrite length_app. lia.
Qed.

Lemma greedy_plus_digit ds rest :
  ds <> [] -> forallb isdigit ds = true -> no_digit_ahead rest ->
  greedy (Plus Digit) ds rest (fun c => c).
Proof.
  intros Hne Hds Hrest. destruct ds as [|d ds]; [contradiction|].
  cbn [forallb] in Hds. apply andb_true_iff in Hds. destruct Hds as [Hd Hds].
  intros i c k res Hk. unfold Plus.
  rewrite run_Seq. cbn [app]. rewrite run_Digit_cons, Hd.
  apply greedy_star_digit; try assumption.
  cbn [length] in Hk. rewrite Nat.add_succ_r in Hk. exact Hk.
Qed.

Lemma run_Lit s :
  forall i t c k,
    run (Lit s) i t c k =
    if startswith s t then k (i + length s)%nat (skipn (length s) t) c else None.
Proof.
  induction s as [|a s IH]; intros i t c k.
  - cbn [Lit run startswith length skipn]. rewrite Nat.add_0_r. reflexivity.
  - destruct s as [|b s'].
    + cbn [Lit run]. destruct t as [|x t]; [reflexivity|].
      rewrite startswith_cons. rewrite N.eqb_sym.
      destruct (a =? x)%N; [|reflexivity].
      cbn [startswith andb length skipn]. rewrite Nat.add_1_r. reflexivity.
    + change (Lit (a :: b :: s')) with (Seq (Chr a) (Lit (b :: s'))).
      cbn [run]. destruct t as [|x t]; [reflexivity|].
      rewrite startswith_cons. rewrite N.eqb_sym.
      destruct (a =? x)%N; [|reflexivity]. rewrite IH. cbn [andb].
      destruct (startswith (b :: s') t); [|reflexivity].
      cbn [length skipn].
      match goal with |- k ?x _ _ = k ?y _ _ => replace x with y by lia end.
      reflexivity.
Qed.

Lemma rounds_BC k n :
  forall fuel i rest c res,
    (n <= fuel)%nat -> startswith (py " BC") rest = false ->
    k (i + 3 * n)%nat rest (repeat (2%nat, py " BC") n ++ c) = Some res ->
    rounds (run (Group 2 (Lit (py " BC")))) k fuel i (rep_BC n ++ rest) c = Some res.
Proof.
  induction n as [|n IH]; intros fuel i rest c res Hfuel Hrest Hk.
  - cbn [rep_BC repeat concat app] in *. rewrite Nat.mul_0_r, Nat.add_0_r in Hk.
    destruct fuel as [|fuel]; [exact Hk|]. cbn [rounds].
    rewrite run_Group, run_Lit, Hrest. exact Hk.
  - destruct fuel as [|fuel]; [lia|].
    change (rep_BC (S n)) with (py " BC" ++ rep_BC n). rewrite <- app_assoc.
    cbn [rounds]. rewrite run_Group, run_Lit, startswith_app.
    change (length (py " BC")) with 3%nat.
    assert (Hlt : Nat.ltb i (i + 3) = true) by (apply Nat.ltb_lt; lia).
    rewrite Hlt.
    change (skipn 3 (py " BC" ++ rep_BC n ++ rest)) with (rep_BC n ++ rest).
    rewrite (IH fuel (i + 3)%nat rest _ res); [reflexivity|lia|exact Hrest|].
    replace (i + 3 + 3 * n)%nat with (i + 3 * S n)%nat by lia.
    replace (i + 3 - i)%nat with 3%nat by lia.
    change (firstn 3 (py " BC" ++ rep_BC n ++ rest)) with (py " BC").
    cbn [repeat] in Hk. rewrite repeat_cons, <- app_assoc in Hk. exact Hk.
Qed.

Lemma length_rep_BC n : length (rep_BC n) = (3 * n)%nat.
Proof.
  induction n as [|n IH]; [reflexivity|].
  change (rep_BC (S n)) with (py " BC" ++ rep_BC n). rewrite length_app, IH.
  change (length (py " BC")) with 3%nat. lia.
Qed.

Lemma greedy_star_BC n rest :
  startswith (py " BC") rest = false ->
  greedy (Star (Group 2 (Lit (py " BC")))) (rep_BC n) rest
    (fun c => repeat (2%nat, py " BC") n ++ c).
Proof.
  intros Hrest i c k res Hk. rewrite run_Star.
  pose proof (length_rep_BC n) as Hlen.
  apply rounds_BC; [rewrite length_app; lia|exact Hrest|].
  rewrite Hlen in Hk. exact Hk.
Qed.

(** [EVENT_RE] accepts a year, any number of " BC", and " –". *)
Lemma rmatch_EVENT_RE ds n rest :
  ds <> [] -> forallb isdigit ds = true ->
  rmatch EVENT_RE (ds ++ rep_BC n ++ py " –" ++ rest) <> None.
Proof.
  intros Hne Hds.
  assert (Hg : greedy (Seq (Group 1 (Plus Digit))
                         (Seq (Star (Group 2 (Lit (py " BC")))) (Lit (py " –"))))
                 (ds ++ rep_BC n ++ py " –") rest
                 (fun c => repeat (2%nat, py " BC") n ++ (1%nat, ds) :: c)).
  { apply (greedy_Seq (Group 1 (Plus Digit)) _ ds (rep_BC n ++ py " –") rest
             (fun c => (1%nat, ds) :: c)
             (fun c => repeat (2%nat, py " BC") n ++ c)).
    - apply (greedy_Group 1 (Plus Digit) ds _ (fun c => c)).
      apply greedy_plus_digit; try assumption.
      rewrite <- app_assoc. destruct n; reflexivity.
    - apply (greedy_Seq _ (Lit (py " –")) (rep_BC n) (py " –") rest
               (fun c => repeat (2%nat, py " BC") n ++ c) (fun c => c)).
      + apply greedy_star_BC. reflexivity.
      + apply greedy_Lit. }
  unfold rmatch, EVENT_RE. cbn [run Nat.eqb].
  specialize (Hg O [] (fun _ _ c => Some c)
                (repeat (2%nat, py " BC") n ++ [(1%nat, ds)]) eq_refl).
  rewrite <- !app_assoc in Hg. cbn [run] in Hg. rewrite Hg. discriminate.
Qed.

(* ================================================================= *)
(** * The year of an entry *)

Lemma digits_no_dash ds : forallb isdigit ds = true -> ~ In en_dash ds.
Proof. intros H. apply digits_not_in; [exact H|reflexivity]. Qed.

Lemma rep_BC_In c k : In c (rep_BC k) -> c = 32%N \/ c = 66%N \/ c = 67%N.
Proof.
  induction k as [|k IH]; [contradiction|].
  change (rep_BC (S k)) with (py " BC" ++ rep_BC k). rewrite in_app_iff.
  intros [H|H]; [|exact (IH H)].
  change (py " BC") with [32; 66; 67]%N in H. cbn [In] in H. intuition auto.
Qed.

Lemma rep_BC_snoc k : rep_BC (S k) = rep_BC k ++ py " BC".
Proof.
  induction k as [|k IH]; [reflexivity|].
  change (rep_BC (S (S k))) with (py " BC" ++ rep_BC (S k)). rewrite IH at 1.
  change (rep_BC (S k)) with (py " BC" ++ rep_BC k). rewrite app_assoc. reflexivity.
Qed.

Lemma year_no_dash ds k : forallb isdigit ds = true -> ~ In en_dash (ds ++ rep_BC k).
Proof.
  intros Hds Hin. apply in_app_iff in Hin. destruct Hin as [Hin|Hin].
  - exact (digits_no_dash ds Hds Hin).
  - apply rep_BC_In in Hin. unfold en_dash in Hin. lia.
Qed.

(** Where an accepted text is cut: right after the year when the dash is
    followed by a space, further on otherwise. *)
Lemma partition_spaced pre rest :
  ~ In en_dash pre ->
  partition (py " – ") (pre ++ py " – " ++ rest) = Some (pre, rest).
Proof.
  intros Hpre. change (py " – ") with [32; en_dash; 32]%N.
  rewrite partition_skip2; [|exact Hpre|intros q' Hq; discriminate].
  rewrite partition_unfold, startswith_app. cbn [prepend length skipn app].
  rewrite app_nil_r. reflexivity.
Qed.

Lemma partition_unspaced pre rest :
  ~ In en_dash pre -> no_space_ahead rest ->
  partition (py " – ") (pre ++ py " –" ++ rest)
  = prepend (pre ++ py " –") (partition (py " – ") rest).
Proof.
  intros Hpre Hrest. change (py " – ") with [32; en_dash; 32]%N.
  change (py " –") with [32; en_dash]%N.
  rewrite partition_skip2; [|exact Hpre|intros q' Hq; discriminate].
  assert (Hs : startswith [32%N] rest = false).
  { destruct rest as [|x rest]; [reflexivity|]. cbn [no_space_ahead] in Hrest.
    rewrite startswith_cons.
    assert (Hx : (32 =? x)%N = false) by (apply N.eqb_neq; congruence).
    rewrite Hx. reflexivity. }
  cbn [app]. rewrite partition_unfold, !startswith_cons, !N.eqb_refl, Hs. cbn [andb].
  rewrite (partition_unfold _ (en_dash :: rest)), startswith_cons.
  change (32 =? en_dash)%N with false. cbn [andb].
  repeat match goal with |- context [partition ?sep rest] =>
    progress change (partition sep rest) with (partition (py " – ") rest) end.
  destruct (partition (py " – ") rest) as [[a b]|]; cbn [prepend]; [|reflexivity].
  rewrite <- app_assoc. reflexivity.
Qed.

(** The year token of an accepted text is its own strip. *)
Lemma strip_year ds k :
  ds <> [] -> forallb isdigit ds = true -> strip (ds ++ rep_BC k) = ds ++ rep_BC k.
Proof.
  intros Hne Hds. destruct k as [|k].
  - cbn [rep_BC repeat concat]. rewrite app_nil_r.
    pose proof (strip_digits ds 0 Hne Hds) as H. cbn [repeat] in H.
    rewrite app_nil_r in H. exact H.
  - unfold strip. destruct ds as [|c ds']; [contradiction|].
    assert (Hc : isdigit c = true) by (cbn [forallb] in Hds; apply andb_true_iff in Hds; tauto).
    cbn [app]. rewrite lstrip_id by (apply isdigit_not_space; exact Hc).
    assert (E : c :: ds' ++ rep_BC (S k) = (c :: ds' ++ rep_BC k ++ [32; 66]%N) ++ [67%N]).
    { rewrite rep_BC_snoc. cbn [app]. f_equal. rewrite <- !app_assoc. reflexivity. }
    rewrite E. apply rstrip_id. reflexivity.
Qed.

Lemma contains_BC_digits ds : forallb isdigit ds = true -> contains (py "BC") ds = false.
Proof.
  intros Hds. unfold contains. change (py "BC") with [66; 67]%N.
  rewrite <- (app_nil_r ds). rewrite partition_skip by (apply digits_not_in; [exact Hds|reflexivity]).
  reflexivity.
Qed.

Lemma contains_BC_year ds k : contains (py "BC") (ds ++ rep_BC (S k)) = true.
Proof.
  change (rep_BC (S k)) with ([32%N] ++ py "BC" ++ rep_BC k).
  rewrite app_assoc. apply contains_app.
Qed.

Lemma replace_rep_BC k : replace (py " BC") [] (rep_BC k) = [].
Proof.
  induction k as [|k IH]; [reflexivity|].
  rewrite replace_eq by discriminate.
  change (rep_BC (S k)) with (py " BC" ++ rep_BC k).
  rewrite partition_unfold, startswith_app.
  change (skipn (length (py " BC")) (py " BC" ++ rep_BC k)) with (rep_BC k).
  rewrite IH. reflexivity.
Qed.

Lemma replace_sBC_year ds k :
  forallb isdigit ds = true -> replace (py " BC") [] (ds ++ rep_BC k) = ds.
Proof.
  intros Hds. rewrite replace_eq by discriminate.
  change (py " BC") with [32; 66; 67]%N.
  rewrite partition_skip by (apply digits_not_in; [exact Hds|reflexivity]).
  change [32; 66; 67]%N with (py " BC").
  destruct k as [|k].
  - reflexivity || (cbn [rep_BC repeat concat prepend]; rewrite app_nil_r; reflexivity).
  - change (rep_BC (S k)) with (py " BC" ++ rep_BC k).
    rewrite partition_unfold, startswith_app.
    change (skipn (length (py " BC")) (py " BC" ++ rep_BC k)) with (rep_BC k).
    cbn [prepend]. rewrite replace_rep_BC, !app_nil_r. reflexivity.
Qed.

Lemma replace_BC_year p k :
  ~ In 66%N p -> replace (py "BC") [] (p ++ rep_BC k) = p ++ repeat 32%N k.
Proof.
  revert p. induction k as [|k IH]; intros p Hp.
  - rewrite replace_eq by discriminate. change (py "BC") with [66; 67]%N.
    rewrite partition_skip by exact Hp. reflexivity.
  - rewrite replace_eq by discriminate.
    change (rep_BC (S k)) with ([32%N] ++ py "BC" ++ rep_BC k).
    rewrite app_assoc. change (py "BC") with [66; 67]%N at 1.
    rewrite partition_skip.
    2:{ intros Hin. apply in_app_iff in Hin. destruct Hin as [Hin|Hin]; [exact (Hp Hin)|].
        cbn [In] in Hin. destruct Hin as [Hin|[]]. discriminate. }
    change [66; 67]%N with (py "BC").
    rewrite partition_unfold, startswith_app.
    change (skipn (length (py "BC")) (py "BC" ++ rep_BC k)) with (rep_BC k).
    cbn [prepend]. pose proof (IH [] (fun H => H)) as IH0. cbn [app] in IH0.
    rewrite IH0. cbn [app repeat].
    rewrite !app_nil_r, <- app_assoc. reflexivity.
Qed.

(** A token with a dash in it is no integer, with or without its "BC". *)
Lemma dash_token_fails token :
  In en_dash token ->
  (let year := strip token in
   if contains (py "BC") year
   then n <- int (replace (py " BC") [] year) ;; Ok (- n)
   else int year) = Raise ValueError
  /\
  (let year := strip token in
   if contains (py "BC") year
   then n <- int (replace (py "BC") [] year) ;; Ok (- n)
   else int year) = Raise ValueError.
Proof.
  intros Hin. cbn zeta.
  assert (Hy : In en_dash (strip token)) by (apply strip_In; [exact Hin|reflexivity]).
  assert (Hbad : forall s, In en_dash s -> int s = Raise ValueError).
  { intros s Hs. apply (int_bad en_dash); try assumption; try reflexivity;
      unfold en_dash; lia. }
  destruct (contains (py "BC") (strip token)).
  - split.
    + rewrite Hbad; [reflexivity|]. apply replace_In; [discriminate|exact Hy|].
      change (py " BC") with [32; 66; 67]%N. unfold en_dash. cbn [In]. lia.
    + rewrite Hbad; [reflexivity|]. apply replace_In; [discriminate|exact Hy|].
      change (py "BC") with [66; 67]%N. unfold en_dash. cbn [In]. lia.
  - split; apply Hbad; exact Hy.
Qed.

(** The year of an accepted text whose dash is followed by a space. *)
Lemma parse_year_spaced ds k rest :
  ds <> [] -> forallb isdigit ds = true ->
  parse_year (ds ++ rep_BC k ++ py " – " ++ rest)
  = Ok (match k with O => digits_value ds | S _ => - digits_value ds end)
  /\ parse_year_spec (ds ++ rep_BC k ++ py " – " ++ rest)
     = Ok (match k with O => digits_value ds | S _ => - digits_value ds end).
Proof.
  intros Hne Hds. unfold parse_year, parse_year_spec, split1.
  rewrite app_assoc, partition_spaced by (apply year_no_dash; exact Hds).
  cbn zeta. rewrite strip_year by assumption.
  pose proof (int_of_digits ds 0 Hne Hds) as Hint0. cbn [repeat] in Hint0.
  rewrite app_nil_r in Hint0.
  destruct k as [|k].
  - cbn [rep_BC repeat concat]. rewrite app_nil_r.
    rewrite contains_BC_digits by exact Hds. rewrite Hint0. split; reflexivity.
  - rewrite contains_BC_year. split.
    + rewrite replace_sBC_year by exact Hds. rewrite Hint0. reflexivity.
    + rewrite replace_BC_year by (apply digits_not_in; [exact Hds|reflexivity]).
      rewrite int_of_digits by assumption. reflexivity.
Qed.

(** The two readings agree on every accepted text. *)
Lemma parse_year_agree text :
  rmatch EVENT_RE text <> None -> parse_year text = parse_year_spec text.
Proof.
  intros Hm. destruct (rmatch EVENT_RE text) as [m|] eqn:Hr; [|contradiction].
  apply rmatch_sound in Hr. destruct Hr as (s1 & rest & -> & Hl).
  apply lang_EVENT_RE in Hl. destruct Hl as (ds & k & Hne & Hds & ->).
  rewrite <- !app_assoc.
  destruct rest as [|x rest'].
  - unfold parse_year, parse_year_spec, split1.
    rewrite app_assoc, partition_unspaced; [|apply year_no_dash; exact Hds|exact I].
    reflexivity.
  - destruct (N.eq_dec x 32) as [->|Hx].
    + change (py " –" ++ 32%N :: rest') with (py " – " ++ rest').
      destruct (parse_year_spaced ds k rest' Hne Hds) as [-> ->]. reflexivity.
    + unfold parse_year, parse_year_spec, split1.
      rewrite app_assoc, partition_unspaced; [|apply year_no_dash; exact Hds|exact Hx].
      destruct (partition (py " – ") (x :: rest')) as [[a b]|]; cbn [prepend]; [|reflexivity].
      assert (Hin : In en_dash (((ds ++ rep_BC k) ++ py " –") ++ a)).
      { rewrite !in_app_iff. left. right. right. left. reflexivity. }
      destruct (dash_token_fails _ Hin) as [H1 H2]. cbv beta iota zeta in H1, H2 |- *.
      rewrite H1, H2. reflexivity.
Qed.

Lemma parse_year_raises text e : parse_year text = Raise e -> e = ValueError.
Proof.
  unfold parse_year, split1.
  destruct (partition (py " – ") text) as [[a b]|]; [|congruence].
  cbn zeta. destruct (contains (py "BC") (strip a)).
  - destruct (int (replace (py " BC") [] (strip a))) as [n|e'] eqn:Hi; cbn [bind];
      [discriminate|]. intros H. injection H as <-. eapply int_raises; exact Hi.
  - apply int_raises.
Qed.

(* ================================================================= *)
(** * The hemisphere *)

Lemma south_or_west_spec h :
  south_or_west h = str_eqb h (py "S") || str_eqb h (py "W").
Proof. unfold south_or_west. cbn [existsb]. rewrite orb_false_r. reflexivity. Qed.

Lemma deg_to_dec_same d m s h h' :
  south_or_west h = false -> south_or_west h' = false ->
  deg_to_dec d m s h = deg_to_dec d m s h'.
Proof.
  intros Hh Hh'. rewrite !deg_to_dec_refines. unfold deg_to_dec_spec.
  rewrite <- !south_or_west_spec, Hh, Hh'. reflexivity.
Qed.

Lemma deg_to_dec_flip d m s h h' :
  south_or_west h = true -> south_or_west h' = false ->
  deg_to_dec d m s h = rmap neg (deg_to_dec d m s h').
Proof.
  intros Hh Hh'. rewrite !deg_to_dec_refines. unfold deg_to_dec_spec, rmap.
  rewrite <- !south_or_west_spec, Hh, Hh'.
  destruct (true_divide m 60) as [xm|]; [|reflexivity].
  destruct (of_int d) as [xd|]; [|reflexivity].
  destruct (true_divide s 3600) as [xs|]; [|reflexivity].
  cbn [bind].
  destruct (round (add (add xd xm) xs) 4) as [dec|]; reflexivity.
Qed.

Lemma deg_to_dec_sign d m s h x :
  0 <= d -> 0 <= m -> 0 <= s -> south_or_west h = false ->
  deg_to_dec d m s h = Ok x -> sign_false x = true.
Proof.
  intros Hd Hm Hs Hh. rewrite deg_to_dec_refines. unfold deg_to_dec_spec.
  rewrite <- south_or_west_spec, Hh.
  destruct (true_divide m 60) as [xm|] eqn:Exm; [|discriminate].
  destruct (of_int d) as [xd|] eqn:Exd; [|discriminate].
  destruct (true_divide s 3600) as [xs|] eqn:Exs; [|discriminate].
  cbn [bind].
  destruct (round (add (add xd xm) xs) 4) as [dec|] eqn:Er; [|discriminate].
  cbn [bind]. intros H. injection H as <-.
  eapply round_sign; [|exact Er].
  apply add_sign; [apply add_sign|].
  - eapply of_int_sign; [exact Hd|exact Exd].
  - eapply true_divide_sign; [exact Hm| |exact Exm]. lia.
  - eapply true_divide_sign; [exact Hs| |exact Exs]. lia.
Qed.

Lemma sign_false_leb x : sign_false x = true -> Float.leb zero x = true.
Proof. destruct x as [[]|[]| |[] mx ex]; try discriminate; reflexivity. Qed.

Lemma sign_false_neg_leb x : sign_false x = true -> Float.leb (neg x) zero = true.
Proof. destruct x as [[]|[]| |[] mx ex]; try discriminate; reflexivity. Qed.

Lemma hemisphere_cases h : In h [py "S"; py "W"] -> south_or_west h = true.
Proof. intros [<-|[<-|[]]]; reflexivity. Qed.

Lemma hemisphere_cases_pos h : In h [py "N"; py "E"] -> south_or_west h = false.
Proof. intros [<-|[<-|[]]]; reflexivity. Qed.

(** The conversion with its sign: it returns, and what it returns is
    within half a unit of the fourth decimal place of the signed angle. *)
Lemma deg_to_dec_accuracy d m s h :
  0 <= d -> 0 <= m -> 0 <= s -> 3600 * d + 60 * m + s <= 3600 * 2 ^ 30 ->
  exists x,
    deg_to_dec d m s h = Ok x /\ is_finite x = true /\
    (Rabs (SF2R x - hemisphere_sign h * exact_dms d m s) <= 1 / 20000)%R.
Proof.
  intros Hd Hm Hs HN.
  destruct (deg_to_dec_accuracy_pos d m s [] Hd Hm Hs HN eq_refl) as (x & Hx & Hf & Hb).
  unfold hemisphere_sign. destruct (south_or_west h) eqn:Hh.
  - exists (neg x). rewrite (deg_to_dec_flip d m s h [] Hh eq_refl), Hx.
    split; [reflexivity|]. split.
    + rewrite is_finite_neg. eapply finite_signed_is_finite; exact Hf.
    + rewrite SF2R_neg.
      replace (- SF2R x - -1 * exact_dms d m s)%R with (- (SF2R x - exact_dms d m s))%R by ring.
      rewrite Rabs_Ropp. exact Hb.
  - exists x. rewrite (deg_to_dec_same d m s h [] Hh eq_refl).
    split; [exact Hx|]. split; [eapply finite_signed_is_finite; exact Hf|].
    rewrite Rmult_1_l. exact Hb.
Qed.

(** A conversion of an angle of at most [b] degrees stays within [b]. *)
Lemma deg_to_dec_range b d m s h x :
  0 <= b <= 255 ->
  (SF2R (div_pos false (10000 * b) 10000) <= IZR b)%R ->
  0 <= d -> 0 <= m -> 0 <= s -> 3600 * d + 60 * m + s <= 3600 * b ->
  deg_to_dec d m s h = Ok x ->
  (- IZR b <= SF2R x <= IZR b)%R.
Proof.
  intros Hb Hexact Hd Hm Hs HN Hx.
  destruct (deg_to_dec_range_pos b d m s [] Hb Hexact Hd Hm Hs HN eq_refl)
    as (y & Hy & _ & Hlo & Hhi).
  destruct (south_or_west h) eqn:Hh.
  - rewrite (deg_to_dec_flip d m s h [] Hh eq_refl), Hy in Hx.
    injection Hx as <-. rewrite SF2R_neg. lra.
  - rewrite (deg_to_dec_same d m s h [] Hh eq_refl), Hy in Hx.
    injection Hx as <-. lra.
Qed.

(** C1: for all integers degrees, minutes and seconds and every
    hemisphere, [deg_to_dec] is the sum degrees + minutes/60 + seconds/3600
    rounded to 4 decimal places, negated when the hemisphere is 'S' or
    'W'; (33, 52, 4, 'S') gives the float -33.8678, (35, 16, 27, 'W') the
    float -35.2742 and (0, 0, 0, 'N') gives 0.0. *)
#[warnings="-inexact-float"] Theorem deg_to_dec_rounded_sum :
  (forall d m s h, deg_to_dec d m s h = deg_to_dec_spec d m s h)
  /\ deg_to_dec 33 52 4 (py "S") = Ok (Prim2SF (-33.8678)%float)
  /\ deg_to_dec 35 16 27 (py "W") = Ok (Prim2SF (-35.2742)%float)
  /\ deg_to_dec 0 0 0 (py "N") = Ok zero.
Proof.
  split; [exact deg_to_dec_refines|].
  split; [vm_compute; reflexivity|].
  split; vm_compute; reflexivity.
Qed.

(** C8: for non-negative degrees, minutes and seconds, what [deg_to_dec]
    returns is non-negative with 'N' or 'E' and non-positive with 'S' or
    'W'; the result with 'S' is the negated result with 'N', the result
    with 'W' the negated result with 'E'; and up to 2^30 degrees it does
    return a finite float, whatever the hemisphere. *)
Theorem deg_to_dec_hemisphere d m s :
  0 <= d -> 0 <= m -> 0 <= s ->
  (forall h x, In h [py "N"; py "E"] ->
     deg_to_dec d m s h = Ok x -> Float.leb zero x = true)
  /\ (forall h x, In h [py "S"; py "W"] ->
        deg_to_dec d m s h = Ok x -> Float.leb x zero = true)
  /\ deg_to_dec d m s (py "S") = rmap neg (deg_to_dec d m s (py "N"))
  /\ deg_to_dec d m s (py "W") = rmap neg (deg_to_dec d m s (py "E"))
  /\ (3600 * d + 60 * m + s <= 3600 * 2 ^ 30 ->
      forall h, exists x, deg_to_dec d m s h = Ok x /\ is_finite x = true).
Proof.
  intros Hd Hm Hs. split; [|split; [|split; [|split]]].
  - intros h x Hh Hx. apply sign_false_leb.
    eapply deg_to_dec_sign; [exact Hd|exact Hm|exact Hs| |exact Hx].
    apply hemisphere_cases_pos; exact Hh.
  - intros h x Hh Hx. apply hemisphere_cases in Hh.
    rewrite (deg_to_dec_flip d m s h [] Hh eq_refl) in Hx.
    destruct (deg_to_dec d m s []) as [y|] eqn:Hy; [|discriminate].
    injection Hx as <-. apply sign_false_neg_leb.
    eapply deg_to_dec_sign; [exact Hd|exact Hm|exact Hs| |exact Hy]. reflexivity.
  - apply deg_to_dec_flip; reflexivity.
  - apply deg_to_dec_flip; reflexivity.
  - intros HN h. destruct (deg_to_dec_accuracy d m s h Hd Hm Hs HN) as (x & Hx & Hf & _).
    exists x. split; assumption.
Qed.

Lemma deg_to_dec_hemisphere_example :
  (forall h x, In h [py "N"; py "E"] ->
     deg_to_dec 33 52 4 h = Ok x -> Float.leb zero x = true)
  /\ (forall h x, In h [py "S"; py "W"] ->
        deg_to_dec 33 52 4 h = Ok x -> Float.leb x zero = true)
  /\ deg_to_dec 33 52 4 (py "S") = rmap neg (deg_to_dec 33 52 4 (py "N"))
  /\ deg_to_dec 33 52 4 (py "W") = rmap neg (deg_to_dec 33 52 4 (py "E"))
  /\ (3600 * 33 + 60 * 52 + 4 <= 3600 * 2 ^ 30 ->
      forall h, exists x, deg_to_dec 33 52 4 h = Ok x /\ is_finite x = true).
Proof. apply (deg_to_dec_hemisphere 33 52 4); lia. Defined.

(* ================================================================= *)
(** * The link resolver *)

Lemma index_last_cons {A} (a : A) l x : index_last l = Ok x -> index_last (a :: l) = Ok x.
Proof.
  unfold index_last. cbn [rev]. destruct (rev l) as [|y r]; [discriminate|].
  intros H. exact H.
Qed.

(** The last piece of a split comes after an occurrence of the separator
    and holds no other. *)
Lemma split_last sep n :
  sep <> [] -> forall s, (length s <= n)%nat ->
  (partition sep s = None /\ index_last (split sep s) = Ok s)
  \/ exists pre title,
       s = pre ++ sep ++ title /\ contains sep title = false
       /\ index_last (split sep s) = Ok title.
Proof.
  intros Hsep. induction n as [|n IH]; intros s Hlen.
  - destruct s; [|cbn [length] in Hlen; lia].
    rewrite split_eq by exact Hsep. rewrite partition_unfold.
    destruct sep as [|c sep]; [contradiction|]. left. split; reflexivity.
  - rewrite split_eq by exact Hsep.
    destruct (partition sep s) as [[a b]|] eqn:Hp; [|left; split; reflexivity].
    right. pose proof (partition_length sep s a b Hsep Hp) as Hb.
    pose proof (partition_spec sep s a b Hp) as Hs.
    destruct (IH b ltac:(lia)) as [[Hnone Hlast]|(pre & title & Hb' & Hc & Hlast)].
    + exists a, b. split; [exact Hs|]. split.
      * unfold contains. rewrite Hnone. reflexivity.
      * apply index_last_cons. exact Hlast.
    + exists (a ++ sep ++ pre), title. split.
      * rewrite Hs, Hb', <- !app_assoc. reflexivity.
      * split; [exact Hc|]. apply index_last_cons. exact Hlast.
Qed.

Lemma title_of_href u :
  contains (py "wiki/") u = true ->
  exists pre title,
    u = pre ++ py "wiki/" ++ title /\ contains (py "wiki/") title = false
    /\ index_last (split (py "wiki/") u) = Ok title.
Proof.
  intros Hc.
  destruct (split_last (py "wiki/") (length u) ltac:(discriminate) u (le_n _))
    as [[Hnone _]|H]; [|exact H].
  unfold contains in Hc. rewrite Hnone in Hc. discriminate.
Qed.

(** What a lookup leaves in the log. *)
Lemma lookup_logged {A} w url (k : Z * result str -> M A) (h : M A) log :
  (forall log', snd (h log') = log') ->
  (forall r log', snd (k r log') = log') ->
  snd (except_HTTPError (response <~ urlopen w url ;; k response) h log) = log ++ [url].
Proof.
  intros Hh Hk. unfold except_HTTPError, mbind, urlopen.
  destruct (lookup w url) as [status source|e].
  - specialize (Hk (status, source) (log ++ [url])).
    destruct (k (status, source) (log ++ [url])) as [r l]. cbn [snd] in Hk. subst l.
    destruct r as [a|e]; [reflexivity|]. destruct e; try reflexivity. apply Hh.
  - destruct e; try reflexivity. apply Hh.
Qed.

Lemma resolver_internal w ref u title log :
  get_item ref (py "href") = Ok (AttrStr u) ->
  contains (py "wiki/") u = true ->
  index_last (split (py "wiki/") u) = Ok title ->
  snd (get_wikilink_coordinates w ref log) = log ++ [WIKI_API ++ title].
Proof.
  intros Hhref Hc Ht. unfold get_wikilink_coordinates.
  unfold mbind at 1. unfold lift at 1. rewrite Hhref, Hc. cbn [negb].
  unfold mbind at 1. unfold lift at 1. rewrite Ht.
  apply lookup_logged; [reflexivity|].
  intros [status source] log'. destruct (negb (status =? 200)); [reflexivity|].
  unfold mbind, lift. destruct source; reflexivity.
Qed.

Lemma resolver_external w ref u log :
  get_item ref (py "href") = Ok (AttrStr u) ->
  contains (py "wiki/") u = false ->
  get_wikilink_coordinates w ref log = (Ok None, log).
Proof.
  intros Hhref Hc. unfold get_wikilink_coordinates.
  unfold mbind at 1. unfold lift at 1. rewrite Hhref, Hc. reflexivity.
Qed.

(** C10: a link whose href is the string [u] is looked up exactly when
    [u] contains "wiki/", wherever it stands: without it the resolver
    answers "no coordinates" and requests nothing; with it, [u] ends in
    "wiki/" followed by a title that holds no further "wiki/", and the
    resolver requests the endpoint's URL for that title, whatever the
    answer is.  So does the absolute URL of another site. *)
Theorem wiki_href_lookup w ref u log :
  get_item ref (py "href") = Ok (AttrStr u) ->
  (contains (py "wiki/") u = false ->
   get_wikilink_coordinates w ref log = (Ok None, log))
  /\ (contains (py "wiki/") u = true ->
      exists pre title,
        u = pre ++ py "wiki/" ++ title
        /\ contains (py "wiki/") title = false
        /\ snd (get_wikilink_coordinates w ref log) = log ++ [WIKI_API ++ title]).
Proof.
  intros Hhref. split.
  - apply resolver_external. exact Hhref.
  - intros Hc. destruct (title_of_href u Hc) as (pre & title & Hu & Hn & Ht).
    exists pre, title. split; [exact Hu|]. split; [exact Hn|].
    eapply resolver_internal; eassumption.
Qed.

Lemma wiki_href_lookup_example :
  (contains (py "wiki/") (py "https://example.org/wiki/a/wiki/Rome") = false ->
   get_wikilink_coordinates anchor_world
     (a_href (py "https://example.org/wiki/a/wiki/Rome") (py "Rome")) []
   = (Ok None, []))
  /\ (contains (py "wiki/") (py "https://example.org/wiki/a/wiki/Rome") = true ->
      exists pre title,
        py "https://example.org/wiki/a/wiki/Rome" = pre ++ py "wiki/" ++ title
        /\ contains (py "wiki/") title = false
        /\ snd (get_wikilink_coordinates anchor_world
                  (a_href (py "https://example.org/wiki/a/wiki/Rome") (py "Rome")) [])
           = [] ++ [WIKI_API ++ title]).
Proof.
  apply (wiki_href_lookup anchor_world
           (a_href (py "https://example.org/wiki/a/wiki/Rome") (py "Rome"))).
  reflexivity.
Defined.

(** C6: a link without an href makes the resolver raise [KeyError], and
    the day request whose page has such a link in an entry raises it too,
    after the fetch of the day page. *)
Theorem missing_href_raises :
  (forall w log, get_wikilink_coordinates w a_name log = (Raise KeyError, log))
  /\ is_event_item (li [NavigableString (py "1776 – Independence"); a_name]) = true
  /\ get_events_on_day anchor_world (py "July") 4 []
     = (Raise KeyError, [py "https://en.wikipedia.org/wiki/July_4"]).
Proof.
  split; [intros w log; reflexivity|]. split; vm_compute; reflexivity.
Qed.

(* ================================================================= *)
(** * The directive decoder *)

Lemma int_digit_run ds : digit_run ds -> int ds = Ok (digits_value ds).
Proof.
  intros [Hne Hds]. pose proof (int_of_digits ds 0 Hne Hds) as H.
  cbn [repeat] in H. rewrite app_nil_r in H. exact H.
Qed.

Lemma digit_run_no_pipe ds : digit_run ds -> ~ In pipe ds.
Proof. intros [_ Hds]. apply digits_not_in; [exact Hds|reflexivity]. Qed.

Lemma greedy_digit_run ds rest :
  digit_run ds -> greedy (Plus Digit) ds (pipe :: rest) (fun c => c).
Proof. intros [Hne Hds]. apply greedy_plus_digit; [exact Hne|exact Hds|reflexivity]. Qed.

Lemma greedy_dms hs d m s h rest :
  digit_run d -> digit_run m -> digit_run s -> existsb (N.eqb h) hs = true ->
  greedy (dms_pattern hs) (dms_text d m s h) rest (fun c => c).
Proof.
  intros Hd Hm Hs Hh. unfold dms_pattern, dms_text.
  apply (greedy_Seq _ _ _ _ _ (fun c => c) (fun c => c)).
  { rewrite <- !app_assoc. apply greedy_digit_run. exact Hd. }
  apply (greedy_Seq _ _ _ _ _ (fun c => c) (fun c => c)); [apply greedy_Chr|].
  apply (greedy_Seq _ _ _ _ _ (fun c => c) (fun c => c)).
  { rewrite <- !app_assoc. apply greedy_digit_run. exact Hm. }
  apply (greedy_Seq _ _ _ _ _ (fun c => c) (fun c => c)); [apply greedy_Chr|].
  apply (greedy_Seq _ _ _ _ _ (fun c => c) (fun c => c)).
  { rewrite <- !app_assoc. apply greedy_digit_run. exact Hs. }
  apply (greedy_Seq _ _ _ _ _ (fun c => c) (fun c => c)); [apply greedy_Chr|].
  apply greedy_CharSet. exact Hh.
Qed.

Lemma greedy_COORD_RE d1 m1 s1 h1 d2 m2 s2 h2 rest :
  digit_run d1 -> digit_run m1 -> digit_run s1 -> In h1 (py "NS") ->
  digit_run d2 -> digit_run m2 -> digit_run s2 -> In h2 (py "EW") ->
  greedy COORD_RE (directive d1 m1 s1 h1 d2 m2 s2 h2) rest
    (fun c => (2%nat, dms_text d2 m2 s2 h2) :: (1%nat, dms_text d1 m1 s1 h1) :: c).
Proof.
  intros Hd1 Hm1 Hs1 Hh1 Hd2 Hm2 Hs2 Hh2. unfold COORD_RE, directive.
  apply (greedy_Seq _ _ _ _ _ (fun c => c)
           (fun c => (2%nat, dms_text d2 m2 s2 h2) :: (1%nat, dms_text d1 m1 s1 h1) :: c));
    [apply greedy_Lit|].
  apply (greedy_Seq _ _ _ _ _ (fun c => (1%nat, dms_text d1 m1 s1 h1) :: c)
           (fun c => (2%nat, dms_text d2 m2 s2 h2) :: c)).
  { apply (greedy_Group 1 _ _ _ (fun c => c)). apply greedy_dms; try assumption.
    destruct Hh1 as [<-|[<-|[]]]; reflexivity. }
  apply (greedy_Seq _ _ _ _ _ (fun c => c) (fun c => (2%nat, dms_text d2 m2 s2 h2) :: c));
    [apply greedy_Chr|].
  apply (greedy_Group 2 _ _ _ (fun c => c)). apply greedy_dms; try assumption.
  destruct Hh2 as [<-|[<-|[]]]; reflexivity.
Qed.

Lemma search_from_head r i s m :
  run r i s [] (fun _ _ c => Some c) = Some m -> search_from r i s = Some m.
Proof. intros H. destruct s; cbn [search_from]; rewrite H; reflexivity. Qed.

Lemma search_directive d1 m1 s1 h1 d2 m2 s2 h2 :
  digit_run d1 -> digit_run m1 -> digit_run s1 -> In h1 (py "NS") ->
  digit_run d2 -> digit_run m2 -> digit_run s2 -> In h2 (py "EW") ->
  search COORD_RE (directive d1 m1 s1 h1 d2 m2 s2 h2)
  = Some [(2%nat, dms_text d2 m2 s2 h2); (1%nat, dms_text d1 m1 s1 h1)].
Proof.
  intros Hd1 Hm1 Hs1 Hh1 Hd2 Hm2 Hs2 Hh2. unfold search. apply search_from_head.
  pose proof (greedy_COORD_RE d1 m1 s1 h1 d2 m2 s2 h2 [] Hd1 Hm1 Hs1 Hh1 Hd2 Hm2 Hs2 Hh2) as G.
  unfold greedy in G. rewrite app_nil_r in G. apply G. reflexivity.
Qed.

Lemma split_pipe_cons ds q :
  digit_run ds -> split [pipe] (ds ++ [pipe] ++ q) = ds :: split [pipe] q.
Proof.
  intros Hds. rewrite split_eq by discriminate.
  rewrite partition_skip by (apply digit_run_no_pipe; exact Hds).
  rewrite partition_unfold, startswith_app. cbn [prepend length skipn app].
  rewrite app_nil_r. reflexivity.
Qed.

Lemma split_dms d m s h :
  digit_run d -> digit_run m -> digit_run s -> h <> pipe ->
  split (py "|") (dms_text d m s h) = [d; m; s; [h]].
Proof.
  intros Hd Hm Hs Hh. unfold dms_text. change (py "|") with [pipe].
  rewrite !split_pipe_cons by assumption.
  rewrite split_eq by discriminate.
  change [h] with ([h] ++ []).
  rewrite partition_skip; [reflexivity|].
  intros [Hin|[]]. congruence.
Qed.

Lemma convert_dms d m s h :
  digit_run d -> digit_run m -> digit_run s ->
  convert_fields [d; m; s; [h]]
  = deg_to_dec (digits_value d) (digits_value m) (digits_value s) [h].
Proof.
  intros Hd Hm Hs. unfold convert_fields, index. cbn [nth_error bind].
  rewrite !int_digit_run by assumption. reflexivity.
Qed.

(** What the decoder returns on a directive: the two conversions. *)
Lemma decode_directive d1 m1 s1 h1 d2 m2 s2 h2 :
  digit_run d1 -> digit_run m1 -> digit_run s1 -> In h1 (py "NS") ->
  digit_run d2 -> digit_run m2 -> digit_run s2 -> In h2 (py "EW") ->
  coordinates_of_source (directive d1 m1 s1 h1 d2 m2 s2 h2)
  = (lat <- deg_to_dec (digits_value d1) (digits_value m1) (digits_value s1) [h1] ;;
     lon <- deg_to_dec (digits_value d2) (digits_value m2) (digits_value s2) [h2] ;;
     Ok (Some {| coord_latitude := lat; coord_longitude := lon |})).
Proof.
  intros Hd1 Hm1 Hs1 Hh1 Hd2 Hm2 Hs2 Hh2. unfold coordinates_of_source.
  rewrite search_directive by assumption.
  unfold match_group, group. cbn [find fst snd Nat.eqb bind].
  rewrite !split_dms; try assumption.
  - rewrite !convert_dms by assumption. reflexivity.
  - destruct Hh2 as [<-|[<-|[]]]; discriminate.
  - destruct Hh1 as [<-|[<-|[]]]; discriminate.
Qed.

(** C9: a directive coord|d1|m1|s1|H1|d2|m2|s2|H2 of digit runs, with H1
    'N' or 'S' and H2 'E' or 'W', whose two angles are of at most 2^30
    degrees, decodes to a latitude and a longitude, both finite, each
    within half a unit of the fourth decimal place of the angle that the
    directive writes. *)
Theorem directive_round_trip d1 m1 s1 h1 d2 m2 s2 h2 :
  digit_run d1 -> digit_run m1 -> digit_run s1 -> In h1 (py "NS") ->
  digit_run d2 -> digit_run m2 -> digit_run s2 -> In h2 (py "EW") ->
  arc_seconds d1 m1 s1 <= 3600 * 2 ^ 30 ->
  arc_seconds d2 m2 s2 <= 3600 * 2 ^ 30 ->
  exists lat lon,
    coordinates_of_source (directive d1 m1 s1 h1 d2 m2 s2 h2)
    = Ok (Some {| coord_latitude := lat; coord_longitude := lon |})
    /\ is_finite lat = true /\ is_finite lon = true
    /\ (Rabs (SF2R lat - encoded_angle d1 m1 s1 h1) <= 1 / 20000)%R
    /\ (Rabs (SF2R lon - encoded_angle d2 m2 s2 h2) <= 1 / 20000)%R.
Proof.
  intros Hd1 Hm1 Hs1 Hh1 Hd2 Hm2 Hs2 Hh2 Hb1 Hb2.
  rewrite decode_directive by assumption.
  assert (Hnn : forall ds, digit_run ds -> 0 <= digits_value ds)
    by (intros ds [_ H]; apply digits_value_nonneg; exact H).
  destruct (deg_to_dec_accuracy (digits_value d1) (digits_value m1) (digits_value s1) [h1])
    as (lat & Hlat & Flat & Blat); auto.
  destruct (deg_to_dec_accuracy (digits_value d2) (digits_value m2) (digits_value s2) [h2])
    as (lon & Hlon & Flon & Blon); auto.
  exists lat, lon. rewrite Hlat, Hlon. repeat split; assumption.
Qed.

Lemma directive_round_trip_example :
  exists lat lon,
    coordinates_of_source
      (directive (py "33") (py "52") (py "04") 83%N (py "151") (py "12") (py "36") 69%N)
    = Ok (Some {| coord_latitude := lat; coord_longitude := lon |})
    /\ is_finite lat = true /\ is_finite lon = true
    /\ (Rabs (SF2R lat - encoded_angle (py "33") (py "52") (py "04") 83%N) <= 1 / 20000)%R
    /\ (Rabs (SF2R lon - encoded_angle (py "151") (py "12") (py "36") 69%N) <= 1 / 20000)%R.
Proof.
  apply (directive_round_trip (py "33") (py "52") (py "04") 83%N
           (py "151") (py "12") (py "36") 69%N);
    try (split; [discriminate|reflexivity]);
    try (vm_compute; discriminate).
  - right; left; reflexivity.
  - left; reflexivity.
Defined.

(** At 10^16 degrees and 30 minutes the half degree is lost: the decoded
    latitude is 10^16. *)
Lemma round_trip_lost_far_out :
  exists c,
    coordinates_of_source
      (directive (py "10000000000000000") (py "30") (py "0") 78%N (py "0") (py "0") (py "0") 69%N)
    = Ok (Some c)
    /\ (1 / 20000
        < Rabs (SF2R (coord_latitude c)
                - encoded_angle (py "10000000000000000") (py "30") (py "0") 78%N))%R.
Proof.
  exists {| coord_latitude := S754_finite false 5000000000000000 1;
            coord_longitude := zero |}.
  split; [vm_compute; reflexivity|].
  cbn [coord_latitude SF2R]. unfold encoded_angle, exact_dms, hemisphere_sign, sgn, bpow.
  change (south_or_west [78%N]) with false.
  change (digits_value (py "10000000000000000")) with 10000000000000000.
  change (digits_value (py "30")) with 30. change (digits_value (py "0")) with 0.
  change (powerRZ 2 1) with (2 * 1)%R.
  rewrite Rabs_left by lra. lra.
Qed.

(** C5: on [coord|1|2|3|||4|5|6|E] the pattern takes a pipe for the first
    hemisphere marker, and the decoder returns coordinates. *)
#[warnings="-inexact-float"] Theorem pipe_taken_for_hemisphere :
  search COORD_RE (py "coord|1|2|3|||4|5|6|E")
  = Some [(2%nat, py "4|5|6|E"); (1%nat, py "1|2|3||")]
  /\ coordinates_of_source (py "coord|1|2|3|||4|5|6|E")
     = Ok (Some {| coord_latitude := Prim2SF 1.0342%float;
                   coord_longitude := Prim2SF 4.085%float |}).
Proof. split; vm_compute; reflexivity. Qed.

(* ================================================================= *)
(** * The day request *)

(** What the resolver returns does not depend on the log. *)
Lemma resolver_log_free w ref log :
  fst (get_wikilink_coordinates w ref log) = fst (get_wikilink_coordinates w ref []).
Proof.
  unfold get_wikilink_coordinates, mbind, lift, except_HTTPError, urlopen, ret.
  destruct (get_item ref (py "href")) as [href|e]; [|reflexivity].
  destruct (negb (contains (py "wiki/") _)); [reflexivity|].
  destruct (index_last _) as [page_title|e]; [|reflexivity].
  destruct (lookup w (WIKI_API ++ page_title)) as [status source|e].
  - destruct (negb (status =? 200)); [reflexivity|].
    destruct source as [data|e]; [|destruct e; reflexivity].
    destruct (coordinates_of_source data) as [c|e]; [reflexivity|destruct e; reflexivity].
  - destruct e; reflexivity.
Qed.

Lemma link_resolves_spec w link log :
  link_resolves w link = true ->
  exists c log', get_wikilink_coordinates w link log = (Ok c, log').
Proof.
  unfold link_resolves. rewrite <- (resolver_log_free w link log).
  destruct (get_wikilink_coordinates w link log) as [[c|e] log']; [|discriminate].
  intros _. exists c, log'. reflexivity.
Qed.

Section Calls.

Variable w : world.

Lemma resolve_links_calls year description links :
  forall n evs log n' evs' log',
    resolve_links w year description links n evs log = (Ok (n', evs'), log') ->
    n' = n + Z.of_nat (length links).
Proof.
  induction links as [|link rest IH]; intros n evs log n' evs' log' H.
  - injection H as <- _ _. cbn [length Z.of_nat]. lia.
  - cbn [resolve_links] in H. unfold mbind in H.
    destruct (get_wikilink_coordinates w link log) as [[c|e] l]; [|discriminate].
    apply IH in H. rewrite H. cbn [length]. lia.
Qed.

Lemma resolve_links_returns year description links :
  forall n evs log,
    forallb (link_resolves w) links = true ->
    exists evs' log',
      resolve_links w year description links n evs log
      = (Ok (n + Z.of_nat (length links), evs'), log').
Proof.
  induction links as [|link rest IH]; intros n evs log H.
  - exists evs, log. cbn [length Z.of_nat]. rewrite Z.add_0_r. reflexivity.
  - cbn [forallb] in H. apply andb_true_iff in H. destruct H as [Hl Hr].
    destruct (link_resolves_spec w link log Hl) as (c & l & Hc).
    cbn [resolve_links]. unfold mbind. rewrite Hc.
    destruct (IH (n + 1)
                (match c with
                 | Some c0 =>
                     evs ++ [ {| day := None; month := None; year := year;
                                 description := description;
                                 longitude := coord_longitude c0;
                                 latitude := coord_latitude c0 |} ]
                 | None => evs
                 end) l Hr) as (evs' & log' & H).
    exists evs', log'. rewrite H. do 2 f_equal. f_equal. cbn [length]. lia.
Qed.

Lemma entry_calls event_tag n evs log log' :
  get_events_with_locations w event_tag log = (Ok (n, evs), log') ->
  n = Z.of_nat (length (select (py "a") event_tag)).
Proof.
  unfold get_events_with_locations, mbind, lift.
  destruct (parse_year (text event_tag)) as [year|e]; [|discriminate].
  destruct (parse_description event_tag) as [description|e]; [|discriminate].
  intros H. apply resolve_links_calls in H. exact H.
Qed.

Lemma entry_returns event_tag log :
  returns (parse_year (text event_tag)) = true ->
  returns (parse_description event_tag) = true ->
  forallb (link_resolves w) (select (py "a") event_tag) = true ->
  exists evs log',
    get_events_with_locations w event_tag log
    = (Ok (Z.of_nat (length (select (py "a") event_tag)), evs), log').
Proof.
  intros Hy Hd Hl. unfold get_events_with_locations, mbind, lift.
  destruct (parse_year (text event_tag)) as [year|e]; [|discriminate].
  destruct (parse_description event_tag) as [description|e]; [|discriminate].
  apply (resolve_links_returns year description _ 0 [] log Hl).
Qed.

Lemma collect_calls month day items :
  forall n evs log n' evs' log',
    collect_events w month day items n evs log = (Ok (n', evs'), log') ->
    n' = n + Z.of_nat (length (flat_map links_of items)).
Proof.
  induction items as [|item rest IH]; intros n evs log n' evs' log' H.
  - injection H as <- _ _. cbn [flat_map length Z.of_nat]. lia.
  - cbn [collect_events] in H. cbv zeta in H. unfold mbind in H.
    destruct (get_events_with_locations w (decompose_all (py "sup") item) log)
      as [[[k es]|e] l] eqn:He; [|discriminate].
    apply entry_calls in He. apply IH in H. cbn [fst] in H.
    cbn [flat_map]. rewrite length_app, Nat2Z.inj_add. unfold links_of at 1. lia.
Qed.

Lemma collect_returns month day items :
  forall n evs log,
    forallb (entry_resolves w) items = true ->
    exists evs' log',
      collect_events w month day items n evs log
      = (Ok (n + Z.of_nat (length (flat_map links_of items)), evs'), log').
Proof.
  induction items as [|item rest IH]; intros n evs log H.
  - exists evs, log. cbn [flat_map length Z.of_nat]. rewrite Z.add_0_r. reflexivity.
  - cbn [forallb] in H. apply andb_true_iff in H. destruct H as [Hi Hr].
    unfold entry_resolves in Hi. cbv zeta in Hi.
    apply andb_true_iff in Hi. destruct Hi as [Hi Hl].
    apply andb_true_iff in Hi. destruct Hi as [Hy Hd].
    destruct (entry_returns _ log Hy Hd Hl) as (es & l & He).
    cbn [collect_events]. cbv zeta. unfold mbind. rewrite He. cbn [fst snd].
    destruct (IH (n + Z.of_nat (length (select (py "a") (decompose_all (py "sup") item))))
                (evs ++ map (with_date month day) es) l Hr) as (evs' & log' & H).
    exists evs', log'. rewrite H. do 2 f_equal. f_equal.
    cbn [flat_map]. rewrite length_app, Nat2Z.inj_add. unfold links_of at 2. lia.
Qed.

End Calls.

(** C2: when the day page yields its items, the count that
    [get_events_on_day] returns is 1 plus the number of links of the
    qualifying entries, whatever each lookup answered; and it does return
    it when every qualifying entry has a year and a description and each
    of its links resolves, with coordinates or without. *)
Theorem calls_counted w month day items log :
  page w (day_url month day) = Ok items ->
  (forall n evs log',
     get_events_on_day w month day log = (Ok (n, evs), log') ->
     n = expected_calls items)
  /\ (forallb (entry_resolves w) (filter is_event_item items) = true ->
      exists evs log',
        get_events_on_day w month day log = (Ok (expected_calls items, evs), log')).
Proof.
  intros Hpage. unfold get_events_on_day, mbind, fetch_page, expected_calls.
  rewrite Hpage. cbv zeta. split.
  - intros n evs log' H. apply collect_calls in H. exact H.
  - intros H. apply collect_returns. exact H.
Qed.

Lemma calls_counted_example :
  exists evs log',
    get_events_on_day mixed_world (py "July") 4 [] = (Ok (4, evs), log').
Proof.
  apply (proj2 (calls_counted mixed_world (py "July") 4 mixed_items [] eq_refl)).
  reflexivity.
Defined.

(* ================================================================= *)
(** * Coordinates in range *)

Lemma deg_to_dec_in_range b d m s h x :
  0 <= b <= 255 ->
  (SF2R (div_pos false (10000 * b) 10000) <= IZR b)%R ->
  0 <= d -> 0 <= m -> 0 <= s -> 3600 * d + 60 * m + s <= 3600 * b ->
  deg_to_dec d m s h = Ok x -> in_range b x.
Proof.
  intros Hb Hexact Hd Hm Hs HN Hx. split.
  - assert (HN30 : 3600 * d + 60 * m + s <= 3600 * 2 ^ 30)
      by (change (2 ^ 30) with 1073741824; lia).
    destruct (deg_to_dec_accuracy d m s h Hd Hm Hs HN30) as (y & Hy & Hf & _).
    rewrite Hx in Hy. injection Hy as Hy. subst y. exact Hf.
  - apply (deg_to_dec_range b d m s h x); assumption.
Qed.

Lemma convert_fields_in_range b p x :
  0 <= b <= 255 ->
  (SF2R (div_pos false (10000 * b) 10000) <= IZR b)%R ->
  angle_within b p = true -> convert_fields p = Ok x -> in_range b x.
Proof.
  intros Hb Hexact. unfold angle_within, convert_fields, field_int.
  destruct (index p 0) as [p0|]; [|discriminate]. cbn [bind].
  destruct (int p0) as [d|]; [|discriminate]. cbn [bind].
  destruct (index p 1) as [p1|]; [|discriminate]. cbn [bind].
  destruct (int p1) as [m|]; [|discriminate]. cbn [bind].
  destruct (index p 2) as [p2|]; [|discriminate]. cbn [bind].
  destruct (int p2) as [s|]; [|discriminate]. cbn [bind].
  destruct (index p 3) as [h|]; [|discriminate]. cbn [bind].
  intros Hw Hx. apply andb_true_iff in Hw. destruct Hw as [Hw HN].
  apply andb_true_iff in Hw. destruct Hw as [Hw Hs].
  apply andb_true_iff in Hw. destruct Hw as [Hd Hm].
  apply Z.leb_le in Hd, Hm, Hs, HN.
  apply (deg_to_dec_in_range b d m s h x); assumption.
Qed.

Lemma source_in_range data c :
  (forall lat lon, directive_fields data = Some (lat, lon) ->
                   angle_within 90 lat = true /\ angle_within 180 lon = true) ->
  coordinates_of_source data = Ok (Some c) ->
  in_range 90 (coord_latitude c) /\ in_range 180 (coord_longitude c).
Proof.
  unfold directive_fields, coordinates_of_source, match_group.
  destruct (search COORD_RE data) as [m|]; [|discriminate].
  destruct (group 1 m) as [g1|]; [|discriminate].
  destruct (group 2 m) as [g2|]; [|discriminate].
  cbn [bind]. cbv zeta. intros Hgeo.
  destruct (Hgeo _ _ eq_refl) as [Hlat Hlon].
  destruct (convert_fields (split (py "|") g1)) as [lat|] eqn:Elat; [|discriminate].
  destruct (convert_fields (split (py "|") g2)) as [lon|] eqn:Elon; [|discriminate].
  cbn [bind]. intros H. injection H as <-. cbn [coord_latitude coord_longitude]. split.
  - eapply (convert_fields_in_range 90); [lia|exact exact_90|exact Hlat|exact Elat].
  - eapply (convert_fields_in_range 180); [lia|exact exact_180|exact Hlon|exact Elon].
Qed.

(** Coordinates come from a source that the endpoint served. *)
Lemma resolver_source w ref log c log' :
  get_wikilink_coordinates w ref log = (Ok (Some c), log') ->
  exists url data,
    lookup w url = Responds 200 (Ok data) /\ coordinates_of_source data = Ok (Some c).
Proof.
  unfold get_wikilink_coordinates, mbind, lift, except_HTTPError, urlopen, ret.
  destruct (get_item ref (py "href")) as [href|e]; [|discriminate].
  destruct (negb (contains (py "wiki/") _)); [discriminate|].
  destruct (index_last _) as [page_title|e]; [|discriminate].
  destruct (lookup w (WIKI_API ++ page_title)) as [status source|e] eqn:El.
  - destruct (Z.eqb_spec status 200) as [->|Hne]; cbn [negb]; [|discriminate].
    destruct source as [data|e]; [|destruct e; discriminate].
    destruct (coordinates_of_source data) as [r|e] eqn:Ec; [|destruct e; discriminate].
    intros H. injection H as -> _. exists (WIKI_API ++ page_title), data.
    split; [exact El|exact Ec].
  - destruct e; discriminate.
Qed.

Section Located.

Variable w : world.
Hypothesis Hgeo : geographic w.

Lemma resolver_in_range ref log c log' :
  get_wikilink_coordinates w ref log = (Ok (Some c), log') ->
  in_range 90 (coord_latitude c) /\ in_range 180 (coord_longitude c).
Proof.
  intros H. apply resolver_source in H. destruct H as (url & data & Hl & Hc).
  apply (source_in_range data c); [|exact Hc].
  intros lat lon Hd. exact (Hgeo url data lat lon Hl Hd).
Qed.

Lemma resolve_links_located year description links :
  forall n evs log n' evs' log',
    Forall located evs ->
    resolve_links w year description links n evs log = (Ok (n', evs'), log') ->
    Forall located evs'.
Proof.
  induction links as [|link rest IH]; intros n evs log n' evs' log' Hevs H.
  - injection H as _ <- _. exact Hevs.
  - cbn [resolve_links] in H. unfold mbind in H.
    destruct (get_wikilink_coordinates w link log) as [[c|e] l] eqn:Hc; [|discriminate].
    eapply IH; [|exact H]. destruct c as [c|]; [|exact Hevs].
    apply Forall_app. split; [exact Hevs|]. constructor; [|constructor].
    exact (resolver_in_range _ _ _ _ Hc).
Qed.

Lemma entry_located event_tag n evs log log' :
  get_events_with_locations w event_tag log = (Ok (n, evs), log') ->
  Forall located evs.
Proof.
  unfold get_events_with_locations, mbind, lift.
  destruct (parse_year (text event_tag)) as [year|e]; [|discriminate].
  destruct (parse_description event_tag) as [description|e]; [|discriminate].
  apply resolve_links_located. constructor.
Qed.

Lemma with_date_located month day ev : located ev -> located (with_date month day ev).
Proof. intros H. exact H. Qed.

Lemma collect_located month day items :
  forall n evs log n' evs' log',
    Forall located evs ->
    collect_events w month day items n evs log = (Ok (n', evs'), log') ->
    Forall located evs'.
Proof.
  induction items as [|item rest IH]; intros n evs log n' evs' log' Hevs H.
  - injection H as _ <- _. exact Hevs.
  - cbn [collect_events] in H. cbv zeta in H. unfold mbind in H.
    destruct (get_events_with_locations w (decompose_all (py "sup") item) log)
      as [[[k es]|e] l] eqn:He; [|discriminate].
    apply entry_located in He. eapply IH; [|exact H]. cbn [snd].
    apply Forall_app. split; [exact Hevs|].
    apply Forall_forall. intros ev Hin. apply in_map_iff in Hin.
    destruct Hin as (ev0 & <- & Hin0). apply with_date_located.
    rewrite Forall_forall in He. exact (He ev0 Hin0).
Qed.

End Located.

(** C7: when every directive that the endpoint serves writes a latitude
    of at most 90 degrees and a longitude of at most 180, every event that
    [get_events_on_day] returns has a finite latitude in [-90, 90] and a
    finite longitude in [-180, 180]. *)
Theorem events_located w month day log n evs log' ev :
  geographic w ->
  get_events_on_day w month day log = (Ok (n, evs), log') ->
  In ev evs -> located ev.
Proof.
  intros Hgeo H Hin. unfold get_events_on_day, mbind, fetch_page in H.
  destruct (page w (day_url month day)) as [items|e]; [|discriminate].
  cbv zeta in H. apply (collect_located w Hgeo) in H; [|constructor].
  rewrite Forall_forall in H. exact (H ev Hin).
Qed.

(* ================================================================= *)
(** * Entries *)

(** C3: the classifier accepts every item whose text starts with digits,
    any number of " BC" and a dash between two spaces, and every item it
    accepts has a text that starts with digits, any number of " BC", a
    space and a dash; it rejects "Edmund Burke is born." and accepts
    "1776 – The United States declares independence." *)
Theorem classifier_accepts :
  (forall x ds k rest,
     digit_run ds -> text x = ds ++ rep_BC k ++ py " – " ++ rest ->
     is_event_item x = true)
  /\ (forall x, is_event_item x = true ->
        exists ds k rest, digit_run ds /\ text x = ds ++ rep_BC k ++ py " –" ++ rest)
  /\ is_event_item (li [NavigableString (py "Edmund Burke is born.")]) = false
  /\ is_event_item
       (li [NavigableString (py "1776 – The United States declares independence.")])
     = true.
Proof.
  split; [|split; [|split; vm_compute; reflexivity]].
  - intros x ds k rest [Hne Hds] Ht. unfold is_event_item. rewrite Ht.
    pose proof (rmatch_EVENT_RE ds k (32%N :: rest) Hne Hds) as H.
    change (py " –" ++ 32%N :: rest) with (py " – " ++ rest) in H.
    destruct (rmatch EVENT_RE (ds ++ rep_BC k ++ py " – " ++ rest)); [reflexivity|].
    contradiction.
  - intros x. unfold is_event_item.
    destruct (rmatch EVENT_RE (text x)) as [m|] eqn:Hr; [|discriminate].
    intros _. apply rmatch_sound in Hr. destruct Hr as (s1 & rest & Ht & Hl).
    apply lang_EVENT_RE in Hl. destruct Hl as (ds & k & Hne & Hds & ->).
    exists ds, k, rest. split; [split; assumption|].
    rewrite Ht, <- !app_assoc. reflexivity.
Qed.

Lemma classifier_accepts_example :
  is_event_item (li [NavigableString (py "44 BC – Caesar is assassinated.")]) = true.
Proof.
  apply (proj1 classifier_accepts _ (py "44") 1%nat (py "Caesar is assassinated."));
    [split; [discriminate|reflexivity]|reflexivity].
Defined.

(** An item with " BC" twice is accepted, and is not of the shape
    [^\d+( BC)? – ]. *)
Lemma classifier_takes_repeated_BC :
  is_event_item (li [NavigableString (py "1 BC BC – x")]) = true
  /\ claimed_shape (text (li [NavigableString (py "1 BC BC – x")])) = false.
Proof. split; vm_compute; reflexivity. Qed.

(** C4: on a qualifying entry the year is what the specification says:
    the token before the first " – " stripped, with "BC" removed and the
    integer negated when the token contains it, the integer otherwise.
    After digits and a dash between spaces that is the number the digits
    write, negated when a " BC" follows them; nothing but [ValueError] is
    ever raised; "44 BC" gives -44, "1969" gives 1969, and a token that
    is no integer raises [ValueError]. *)
Theorem year_parsed :
  (forall x, is_event_item x = true ->
     parse_year (text x) = parse_year_spec (text x))
  /\ (forall ds k rest, digit_run ds ->
        0 <= digits_value ds
        /\ parse_year (ds ++ rep_BC k ++ py " – " ++ rest)
           = Ok (match k with O => digits_value ds | S _ => - digits_value ds end))
  /\ (forall text e, parse_year text = Raise e -> e = ValueError)
  /\ parse_year (py "44 BC – Caesar is assassinated.") = Ok (-44)
  /\ parse_year (py "1969 – Apollo 11 lands on the Moon.") = Ok 1969
  /\ is_event_item (li [NavigableString (py "1776 –x – y")]) = true
  /\ parse_year (py "1776 –x – y") = Raise ValueError.
Proof.
  split; [|split; [|split; [|repeat split; vm_compute; reflexivity]]].
  - intros x Hx. apply parse_year_agree. unfold is_event_item in Hx.
    destruct (rmatch EVENT_RE (text x)); [discriminate|discriminate Hx].
  - intros ds k rest [Hne Hds]. split; [apply digits_value_nonneg; exact Hds|].
    apply (parse_year_spaced ds k rest Hne Hds).
  - exact parse_year_raises.
Qed.

Lemma one_link_world_geographic source :
  (forall lat lon, directive_fields source = Some (lat, lon) ->
                   angle_within 90 lat = true /\ angle_within 180 lon = true) ->
  geographic (one_link_world source).
Proof.
  intros H url data lat lon Hl Hd. unfold one_link_world, world_of in Hl.
  cbn [lookup] in Hl. injection Hl as <-. exact (H lat lon Hd).
Qed.

(** An example of C7: the Rome of [rome_world]. *)
Lemma events_located_example : located rome_place.
Proof.
  apply (events_located rome_world (py "July") 4 [] 2 [rome_place]
           [day_url (py "July") 4; WIKI_API ++ py "Rome"]).
  - apply one_link_world_geographic. intros lat lon Hd.
    vm_compute in Hd. injection Hd as <- <-. split; vm_compute; reflexivity.
  - vm_compute. reflexivity.
  - left. reflexivity.
Defined.

(** A directive of 91 degrees north makes an event at latitude 91. *)
Lemma polar_event_not_located :
  fst (get_events_on_day polar_world (py "July") 4 []) = Ok (2, [polar_place])
  /\ ~ located polar_place.
Proof.
  split; [vm_compute; reflexivity|].
  intros [[_ [_ H]] _]. cbn [polar_place rome_event latitude SF2R] in H.
  unfold polar_place, rome_event in H. cbn [latitude SF2R] in H. unfold sgn in H.
  change (-46) with (- (46)) in H. rewrite bpow_neg, bpow_IZR in H by lia.
  change (IZR (2 ^ 46)) with 70368744177664%R in H. lra.
Qed.

(* ================================================================= *)
(** * The requests of a day *)

Lemma resolver_log w link log :
  snd (get_wikilink_coordinates w link log) = log ++ requests_of link.
Proof.
  unfold requests_of, lookup_url, get_wikilink_coordinates.
  unfold mbind at 1. unfold lift at 1.
  destruct (get_item link (py "href")) as [href|e];
    [|cbn [snd]; rewrite app_nil_r; reflexivity].
  cbv zeta.
  destruct (contains (py "wiki/") _); cbn [negb];
    [|cbn [ret snd]; rewrite app_nil_r; reflexivity].
  unfold mbind at 1. unfold lift at 1.
  destruct (index_last _) as [page_title|e];
    [|cbn [snd]; rewrite app_nil_r; reflexivity].
  apply lookup_logged; [reflexivity|].
  intros [status source] log'. destruct (negb (status =? 200)); [reflexivity|].
  unfold mbind, lift. destruct source; reflexivity.
Qed.

Section Requests.

Variable w : world.

Lemma resolve_links_log year description links :
  forall n evs log r log',
    resolve_links w year description links n evs log = (r, log') ->
    exists reqs,
      log' = log ++ reqs
      /\ (returns r = true -> reqs = flat_map requests_of links).
Proof.
  induction links as [|link rest IH]; intros n evs log r log' H.
  - injection H as <- <-. exists []. rewrite app_nil_r. split; reflexivity.
  - cbn [resolve_links] in H. unfold mbind in H.
    pose proof (resolver_log w link log) as Hl.
    destruct (get_wikilink_coordinates w link log) as [[c|e] l]; cbn [snd] in Hl; subst l.
    + apply IH in H. destruct H as (reqs & -> & Hr).
      exists (requests_of link ++ reqs). rewrite app_assoc. split; [reflexivity|].
      intros Hok. cbn [flat_map]. rewrite (Hr Hok). reflexivity.
    + injection H as <- <-. exists (requests_of link). split; [reflexivity|discriminate].
Qed.

Lemma entry_log event_tag log r log' :
  get_events_with_locations w event_tag log = (r, log') ->
  exists reqs,
    log' = log ++ reqs
    /\ (returns r = true -> reqs = flat_map requests_of (select (py "a") event_tag)).
Proof.
  unfold get_events_with_locations, mbind, lift.
  destruct (parse_year (text event_tag)) as [year|e].
  - destruct (parse_description event_tag) as [description|e].
    + apply resolve_links_log.
    + intros H. injection H as <- <-. exists []. rewrite app_nil_r.
      split; [reflexivity|discriminate].
  - intros H. injection H as <- <-. exists []. rewrite app_nil_r.
    split; [reflexivity|discriminate].
Qed.

Lemma collect_log month day items :
  forall n evs log r log',
    collect_events w month day items n evs log = (r, log') ->
    exists reqs,
      log' = log ++ reqs
      /\ (returns r = true -> reqs = flat_map requests_of (flat_map links_of items)).
Proof.
  induction items as [|item rest IH]; intros n evs log r log' H.
  - injection H as <- <-. exists []. rewrite app_nil_r. split; reflexivity.
  - cbn [collect_events] in H. cbv zeta in H. unfold mbind in H.
    destruct (get_events_with_locations w (decompose_all (py "sup") item) log)
      as [[res|e] l] eqn:He; apply entry_log in He; destruct He as (reqs1 & -> & Hr1).
    + apply IH in H. destruct H as (reqs & -> & Hr).
      exists (reqs1 ++ reqs). rewrite app_assoc. split; [reflexivity|].
      intros Hok. cbn [flat_map]. rewrite flat_map_app, (Hr Hok), (Hr1 eq_refl).
      reflexivity.
    + injection H as <- <-. exists reqs1. split; [reflexivity|discriminate].
Qed.

End Requests.

(** The first request of a day is the day page, and the log only grows;
    when the fetch raises, that is the outcome and nothing else is
    requested. *)
Theorem day_page_requested_first w month day log :
  (exists reqs,
     snd (get_events_on_day w month day log) = log ++ day_url month day :: reqs)
  /\ (forall e, page w (day_url month day) = Raise e ->
        get_events_on_day w month day log = (Raise e, log ++ [day_url month day])).
Proof.
  unfold get_events_on_day, mbind, fetch_page. split.
  - destruct (page w (day_url month day)) as [items|e].
    + cbv zeta.
      destruct (collect_events w month day (filter is_event_item items) 1 []
                  (log ++ [day_url month day])) as [r log'] eqn:H.
      apply collect_log in H. destruct H as (reqs & -> & _).
      exists reqs. cbn [snd]. rewrite <- app_assoc. reflexivity.
    + exists []. reflexivity.
  - intros e He. rewrite He. reflexivity.
Qed.

(** A day request that returns has requested the day page and then, in
    document order, the endpoint's URL of every link of a qualifying
    entry that has "wiki/" in its href: a title linked twice is requested
    twice. *)
Theorem requests_in_document_order w month day items log n evs log' :
  page w (day_url month day) = Ok items ->
  get_events_on_day w month day log = (Ok (n, evs), log') ->
  log' = log ++ day_url month day
             :: flat_map requests_of (flat_map links_of (filter is_event_item items)).
Proof.
  intros Hpage. unfold get_events_on_day, mbind, fetch_page. rewrite Hpage. cbv zeta.
  intros H. apply collect_log in H. destruct H as (reqs & -> & Hr).
  rewrite (Hr eq_refl), <- app_assoc. reflexivity.
Qed.

(* ================================================================= *)
(** * The events of a day *)

Lemma resolver_result w link log r log' :
  get_wikilink_coordinates w link log = (r, log') ->
  fst (get_wikilink_coordinates w link []) = r.
Proof. intros H. rewrite <- (resolver_log_free w link log), H. reflexivity. Qed.

Lemma link_events_length w year description links :
  (length (link_events w year description links) <= length links)%nat.
Proof.
  unfold link_events. induction links as [|link rest IH]; [apply le_n|].
  cbn [flat_map]. rewrite length_app. cbn [length].
  destruct (fst (get_wikilink_coordinates w link [])) as [[c|]|e]; cbn [length]; lia.
Qed.

Lemma link_events_shape w year description links ev :
  In ev (link_events w year description links) ->
  exists c, ev = event_at year description c.
Proof.
  unfold link_events. rewrite in_flat_map. intros (link & _ & Hin).
  destruct (fst (get_wikilink_coordinates w link [])) as [[c|]|e];
    try contradiction.
  destruct Hin as [<-|[]]. exists c. reflexivity.
Qed.

Lemma entry_events_ok w item year description :
  parse_year (text (decompose_all (py "sup") item)) = Ok year ->
  parse_description (decompose_all (py "sup") item) = Ok description ->
  entry_events w item
  = link_events w year description (select (py "a") (decompose_all (py "sup") item)).
Proof. intros Hy Hd. unfold entry_events. cbv zeta. rewrite Hy, Hd. reflexivity. Qed.

Lemma entry_resolves_ok w item year description :
  parse_year (text (decompose_all (py "sup") item)) = Ok year ->
  parse_description (decompose_all (py "sup") item) = Ok description ->
  forallb (link_resolves w) (select (py "a") (decompose_all (py "sup") item)) = true ->
  entry_resolves w item = true.
Proof.
  intros Hy Hd Hl. unfold entry_resolves. cbv zeta. rewrite Hy, Hd, Hl. reflexivity.
Qed.

Section Events.

Variable w : world.

Lemma resolve_links_events year description links :
  forall n evs log n' evs' log',
    resolve_links w year description links n evs log = (Ok (n', evs'), log') ->
    evs' = evs ++ link_events w year description links
    /\ forallb (link_resolves w) links = true.
Proof.
  induction links as [|link rest IH]; intros n evs log n' evs' log' H.
  - injection H as _ <- _. rewrite app_nil_r. split; reflexivity.
  - cbn [resolve_links] in H. unfold mbind in H.
    destruct (get_wikilink_coordinates w link log) as [[c|e] l] eqn:Hc; [|discriminate].
    apply resolver_result in Hc. apply IH in H. destruct H as [-> Hr].
    unfold link_events, link_resolves. cbn [flat_map forallb]. rewrite Hc.
    cbn [returns andb]. split; [|exact Hr].
    destruct c as [c|]; [rewrite <- app_assoc|]; reflexivity.
Qed.

Lemma entry_events_eq event_tag n evs log log' :
  get_events_with_locations w event_tag log = (Ok (n, evs), log') ->
  exists year description,
    parse_year (text event_tag) = Ok year
    /\ parse_description event_tag = Ok description
    /\ evs = link_events w year description (select (py "a") event_tag)
    /\ forallb (link_resolves w) (select (py "a") event_tag) = true.
Proof.
  unfold get_events_with_locations, mbind, lift.
  destruct (parse_year (text event_tag)) as [year|e]; [|discriminate].
  destruct (parse_description event_tag) as [description|e]; [|discriminate].
  intros H. apply resolve_links_events in H. destruct H as [-> Hr].
  exists year, description. split; [reflexivity|]. split; [reflexivity|].
  split; [reflexivity|exact Hr].
Qed.

Lemma collect_events_eq month day items :
  forall n evs log n' evs' log',
    collect_events w month day items n evs log = (Ok (n', evs'), log') ->
    evs' = evs ++ map (with_date month day) (flat_map (entry_events w) items)
    /\ forallb (entry_resolves w) items = true.
Proof.
  induction items as [|item rest IH]; intros n evs log n' evs' log' H.
  - injection H as _ <- _. rewrite app_nil_r. split; reflexivity.
  - cbn [collect_events] in H. cbv zeta in H. unfold mbind in H.
    destruct (get_events_with_locations w (decompose_all (py "sup") item) log)
      as [[[k es]|e] l] eqn:He; [|discriminate].
    apply entry_events_eq in He. destruct He as (y & d & Hy & Hd & -> & Hl).
    apply IH in H. destruct H as [-> Hr]. cbn [snd].
    cbn [flat_map forallb].
    rewrite (entry_events_ok w item y d Hy Hd), (entry_resolves_ok w item y d Hy Hd Hl), Hr.
    split; [|reflexivity]. rewrite map_app, app_assoc. reflexivity.
Qed.

End Events.

(** The events of a day that returns are those of its qualifying entries
    in document order, each entry giving one event for each of its links
    that resolves to coordinates, in the order of the links. *)
Theorem events_in_document_order w month day items log n evs log' :
  page w (day_url month day) = Ok items ->
  get_events_on_day w month day log = (Ok (n, evs), log') ->
  evs = map (with_date month day)
          (flat_map (entry_events w) (filter is_event_item items)).
Proof.
  intros Hpage. unfold get_events_on_day, mbind, fetch_page. rewrite Hpage. cbv zeta.
  intros H. apply collect_events_eq in H. destruct H as [-> _]. reflexivity.
Qed.

(** The events that the entry parser returns have no month and no day,
    and all carry the year and the description of the entry; the
    events of a day all carry the month and the day of the request. *)
Theorem events_dated w :
  (forall event_tag log n evs log' ev,
     get_events_with_locations w event_tag log = (Ok (n, evs), log') ->
     In ev evs ->
     Events.month ev = None /\ Events.day ev = None
     /\ parse_year (text event_tag) = Ok (year ev)
     /\ parse_description event_tag = Ok (description ev))
  /\ (forall month day log n evs log' ev,
        get_events_on_day w month day log = (Ok (n, evs), log') ->
        In ev evs ->
        Events.month ev = Some month /\ Events.day ev = Some day).
Proof.
  split.
  - intros event_tag log n evs log' ev H Hin.
    apply entry_events_eq in H. destruct H as (y & d & Hy & Hd & -> & _).
    apply link_events_shape in Hin. destruct Hin as (c & ->).
    cbn [event_at Events.month Events.day year description].
    repeat split; assumption.
  - intros month day log n evs log' ev H Hin.
    unfold get_events_on_day, mbind, fetch_page in H.
    destruct (page w (day_url month day)) as [items|e]; [|discriminate].
    cbv zeta in H. apply collect_events_eq in H. destruct H as [-> _].
    cbn [app] in Hin. apply in_map_iff in Hin. destruct Hin as (ev0 & <- & _).
    split; reflexivity.
Qed.

Lemma entry_events_length w item :
  (length (entry_events w item) <= length (links_of item))%nat.
Proof.
  unfold entry_events, links_of. cbv zeta.
  destruct (parse_year _) as [y|e]; [|apply Nat.le_0_l].
  destruct (parse_description _) as [d|e]; [|apply Nat.le_0_l].
  apply link_events_length.
Qed.

Lemma day_events_length w items :
  (length (flat_map (entry_events w) items) <= length (flat_map links_of items))%nat.
Proof.
  induction items as [|item rest IH]; [apply le_n|].
  cbn [flat_map]. rewrite !length_app. pose proof (entry_events_length w item). lia.
Qed.

Lemma requests_length links :
  (length (flat_map requests_of links) <= length links)%nat.
Proof.
  induction links as [|link rest IH]; [apply le_n|].
  cbn [flat_map]. rewrite length_app. cbn [length]. unfold requests_of at 1.
  destruct (lookup_url link); cbn [length]; lia.
Qed.

(** The count that a day returns bounds what happened: there are at most
    count - 1 events, and at most count requests were made. *)
Theorem count_bounds_events_and_requests w month day log n evs log' :
  get_events_on_day w month day log = (Ok (n, evs), log') ->
  Z.of_nat (length evs) <= n - 1
  /\ Z.of_nat (length log') - Z.of_nat (length log) <= n.
Proof.
  intros H. pose proof H as H2. pose proof H as H3.
  unfold get_events_on_day, mbind, fetch_page in H, H2, H3.
  destruct (page w (day_url month day)) as [items|e]; [|discriminate].
  cbv zeta in H, H2, H3.
  apply collect_calls in H. apply collect_events_eq in H2. destruct H2 as [-> _].
  apply collect_log in H3. destruct H3 as (reqs & -> & Hr). rewrite (Hr eq_refl).
  cbn [app]. rewrite length_map, !length_app. cbn [length].
  pose proof (day_events_length w (filter is_event_item items)).
  pose proof (requests_length (flat_map links_of (filter is_event_item items))).
  lia.
Qed.

(** A day returns only when every qualifying entry has a year and a
    description and each of its links resolves: one failure, anywhere,
    and the request raises. *)
Theorem day_returns_only_if_all_resolve w month day items log n evs log' :
  page w (day_url month day) = Ok items ->
  get_events_on_day w month day log = (Ok (n, evs), log') ->
  forallb (entry_resolves w) (filter is_event_item items) = true.
Proof.
  intros Hpage. unfold get_events_on_day, mbind, fetch_page. rewrite Hpage. cbv zeta.
  intros H. apply collect_events_eq in H. destruct H as [_ H]. exact H.
Qed.

(* ================================================================= *)
(** * More on the conversion *)

Lemma str_eqb_eq a b : str_eqb a b = true <-> a = b.
Proof.
  revert b. induction a as [|x a IH]; intros [|y b]; cbn [str_eqb];
    try (split; [discriminate|discriminate]); [split; reflexivity|].
  rewrite andb_true_iff, N.eqb_eq, IH. split.
  - intros [-> ->]. reflexivity.
  - intros H. injection H as -> ->. split; reflexivity.
Qed.

Lemma south_or_west_false h : h <> py "S" -> h <> py "W" -> south_or_west h = false.
Proof.
  intros HS HW. rewrite south_or_west_spec.
  destruct (str_eqb h (py "S")) eqn:ES; [apply str_eqb_eq in ES; contradiction|].
  destruct (str_eqb h (py "W")) eqn:EW; [apply str_eqb_eq in EW; contradiction|].
  reflexivity.
Qed.

(** The hemisphere is compared with 'S' and 'W' and nothing else: any
    other string, a lower-case letter or no letter at all, converts as
    'N' does. *)
Theorem other_hemispheres_as_north d m s h :
  h <> py "S" -> h <> py "W" ->
  deg_to_dec d m s h = deg_to_dec d m s (py "N").
Proof.
  intros HS HW. apply deg_to_dec_same; [|reflexivity].
  apply south_or_west_false; assumption.
Qed.

Lemma other_hemispheres_as_north_example :
  deg_to_dec 33 52 4 (py "s") = deg_to_dec 33 52 4 (py "N").
Proof. apply other_hemispheres_as_north; discriminate. Defined.

Lemma finite_or_overflow_raises x e : finite_or_overflow x = Raise e -> e = OverflowError.
Proof. destruct x; cbn [finite_or_overflow]; congruence. Qed.

Lemma true_divide_raises a b e :
  b <> 0 -> true_divide a b = Raise e -> e = OverflowError.
Proof.
  intros Hb. unfold true_divide. destruct (Z.eqb_spec b 0); [contradiction|].
  destruct (a =? 0); [discriminate|]. apply finite_or_overflow_raises.
Qed.

Lemma round_raises x n e : round x n = Raise e -> e = OverflowError.
Proof.
  unfold round. destruct x as [sx|sx| |sx mx ex]; try discriminate.
  destruct (0 <=? ex); [discriminate|]. cbv zeta.
  destruct (_ =? 0); [discriminate|]. apply finite_or_overflow_raises.
Qed.

Lemma deg_to_dec_raise_overflow d m s h e :
  deg_to_dec d m s h = Raise e -> e = OverflowError.
Proof.
  rewrite deg_to_dec_refines. unfold deg_to_dec_spec.
  destruct (true_divide m 60) as [xm|e1] eqn:Em.
  2:{ cbn [bind]. intros H. injection H as <-.
      eapply true_divide_raises; [|exact Em]. discriminate. }
  destruct (of_int d) as [xd|e2] eqn:Ed.
  2:{ cbn [bind]. intros H. injection H as <-.
      eapply finite_or_overflow_raises; exact Ed. }
  destruct (true_divide s 3600) as [xs|e3] eqn:Es.
  2:{ cbn [bind]. intros H. injection H as <-.
      eapply true_divide_raises; [|exact Es]. discriminate. }
  cbn [bind]. destruct (round (add (add xd xm) xs) 4) as [dec|e4] eqn:Er.
  - discriminate.
  - cbn [bind]. intros H. injection H as <-. eapply round_raises; exact Er.
Qed.

(** Whatever the integers and the hemisphere, the conversion raises
    nothing but [OverflowError]. *)
Theorem deg_to_dec_raises d m s h e :
  deg_to_dec d m s h = Raise e -> e = OverflowError.
Proof. apply deg_to_dec_raise_overflow. Qed.

Lemma deg_to_dec_raises_example :
  deg_to_dec (2 ^ 1024) 0 0 (py "N") = Raise OverflowError
  /\ OverflowError = OverflowError.
Proof.
  split; [vm_compute; reflexivity|].
  apply (deg_to_dec_raises (2 ^ 1024) 0 0 (py "N")). vm_compute. reflexivity.
Defined.

(** ** The closed form *)

Lemma valid_exponent mx ex :
  valid_binary prec emax (S754_finite false mx ex) = true -> 0 <= ex ->
  (bpow 52 <= SF2R (S754_finite false mx ex))%R.
Proof.
  intros Hv He. cbn [valid_binary] in Hv.
  unfold SpecFloat.bounded, SpecFloat.canonical_mantissa in Hv.
  apply andb_true_iff in Hv. destruct Hv as [Hc _].
  apply Z.eqb_eq in Hc. change (fexp prec emax) with fexp64 in Hc.
  change (Zpos (digits2_pos mx)) with (Zdigits2 (Zpos mx)) in Hc.
  unfold fexp64 in Hc.
  assert (Hd : Zdigits2 (Zpos mx) = 53) by lia.
  pose proof (Zdigits2_bounds (Zpos mx) ltac:(lia)) as [Hlo _]. rewrite Hd in Hlo.
  change (53 - 1) with 52 in Hlo.
  cbn [SF2R]. unfold sgn. rewrite Rmult_1_l.
  rewrite (bpow_IZR 52) by lia. apply IZR_le in Hlo.
  pose proof (bpow_ge_1 ex He) as H1.
  assert (H0 : (0 < IZR (2 ^ 52))%R) by (apply IZR_lt; reflexivity).
  nra.
Qed.

Lemma round_negative_exponent mx ex :
  ex < 0 ->
  exists k, 0 <= k
    /\ (Rabs (IZR k - 10000 * SF2R (S754_finite false mx ex)) <= 1 / 2)%R
    /\ round (S754_finite false mx ex) 4
       = (if k =? 0 then Ok (S754_zero false)
          else finite_or_overflow (div_pos false k 10000)).
Proof.
  intros Hex. unfold round. destruct (Z.leb_spec 0 ex) as [|_]; [lia|].
  set (k := round_half_even (Zpos mx * 10 ^ 4) (2 ^ (- ex))).
  assert (HP : 0 < 2 ^ (- ex)) by (apply Z.pow_pos_nonneg; lia).
  destruct (round_half_even_spec (Zpos mx * 10 ^ 4) (2 ^ (- ex)) ltac:(lia) HP)
    as [Hk Herr].
  fold k in Hk, Herr. exists k. split; [exact Hk|]. split; [|reflexivity].
  apply Z.abs_le in Herr. destruct Herr as [Hlo Hhi].
  apply IZR_le in Hlo, Hhi. push_IZR_in Hlo. push_IZR_in Hhi.
  rewrite <- !bpow_IZR in Hlo, Hhi by lia.
  change (IZR (10 ^ 4)) with 10000%R in *.
  cbn [SF2R]. unfold sgn. rewrite Rmult_1_l.
  assert (Hone : (bpow (- ex) * bpow ex = 1)%R).
  { rewrite <- bpow_add. replace (- ex + ex) with 0 by lia. reflexivity. }
  pose proof (bpow_pos (- ex)) as Hp1. pose proof (bpow_pos ex) as Hp2.
  set (P := bpow (- ex)) in *. set (Q := bpow ex) in *.
  set (M := IZR (Zpos mx)) in *. set (K := IZR k) in *.
  apply Rabs_le. split; apply Rmult_le_reg_l with (2 * P)%R; try lra.
  - replace (2 * P * (K - 10000 * (M * Q)))%R
      with (2 * (K * P - M * 10000 * (P * Q)))%R by ring.
    rewrite Hone. lra.
  - replace (2 * P * (K - 10000 * (M * Q)))%R
      with (2 * (K * P - M * 10000 * (P * Q)))%R by ring.
    rewrite Hone. lra.
Qed.

Lemma ten_thousandths_unique k n :
  Z.abs (9 * k - 25 * n) <= 4 -> k = ten_thousandths n.
Proof.
  intros H. unfold ten_thousandths.
  apply (Z.div_unique (25 * n + 4) 9 k (25 * n + 4 - 9 * k)); lia.
Qed.

Lemma true_divide_ten_thousandths k :
  0 <= k ->
  true_divide k 10000
  = if k =? 0 then Ok (S754_zero false)
    else finite_or_overflow (div_pos false k 10000).
Proof.
  intros Hk. unfold true_divide. change (10000 =? 0) with false. cbv iota.
  destruct (Z.eqb_spec k 0) as [->|Hk0]; [reflexivity|].
  change (10000 <? 0) with false. destruct (Z.ltb_spec k 0); [lia|].
  cbn [xorb]. rewrite Z.abs_eq by lia. reflexivity.
Qed.

(** North of the equator and east of Greenwich, [deg_to_dec] is the
    quotient of the nearest number of ten-thousandths by 10000. *)
Lemma deg_to_dec_closed_pos d m s h :
  0 <= d -> 0 <= m -> 0 <= s -> 3600 * d + 60 * m + s <= 3600 * 2 ^ 30 ->
  south_or_west h = false ->
  deg_to_dec d m s h = true_divide (ten_thousandths (3600 * d + 60 * m + s)) 10000.
Proof.
  intros Hd Hm Hs HN Hh.
  destruct (dms_sum d m s Hd Hm Hs HN) as (xm & xd & xs & Hxm & Hxd & Hxs & Hf & Hb).
  assert (Hv : valid_binary prec emax (add (add xd xm) xs) = true).
  { apply add_valid; [apply add_valid|].
    - eapply of_int_valid; exact Hxd.
    - eapply true_divide_valid; exact Hxm.
    - eapply true_divide_valid; exact Hxs. }
  unfold deg_to_dec. rewrite Hxm, Hxd, Hxs. cbn [bind].
  fold (south_or_west h). rewrite Hh.
  set (x2 := add (add xd xm) xs) in *.
  pose proof (exact_dms_3600 d m s) as HE.
  set (N := 3600 * d + 60 * m + s) in *.
  assert (HNR : (IZR N <= 3600 * 1073741824)%R).
  { change (2 ^ 30) with 1073741824 in HN. apply IZR_le in HN. push_IZR_in HN. exact HN. }
  assert (HN0 : (0 <= IZR N)%R) by (apply IZR_le; unfold N; lia).
  apply Rabs_le_inv in Hb.
  assert (Hk9 : forall k, (Rabs (IZR k - 10000 * SF2R x2) <= 1 / 2)%R ->
                          k = ten_thousandths N).
  { intros k Hkb. apply ten_thousandths_unique. apply Rabs_le_inv in Hkb.
    assert (-5 < 9 * k - 25 * N < 5); [|lia].
    split; apply lt_IZR; push_IZR; lra. }
  destruct x2 as [sx| | |sx mx ex] eqn:Ex2; try contradiction;
    cbn [finite_signed] in Hf; subst sx.
  - (* the sum is zero *)
    cbn [round bind]. cbn [SF2R] in Hb.
    assert (HNz : N = 0).
    { assert (-1 < N < 1); [|lia]. split; apply lt_IZR; lra. }
    rewrite HNz. reflexivity.
  - destruct (Z.le_gt_cases 0 ex) as [Hex|Hex].
    + (* an exponent that large is out of range *)
      exfalso. pose proof (valid_exponent mx ex Hv Hex) as Hbig.
      rewrite (bpow_IZR 52) in Hbig by lia.
      change (IZR (2 ^ 52)) with 4503599627370496%R in Hbig. lra.
    + destruct (round_negative_exponent mx ex Hex) as (k & Hk & Hkb & Hr).
      rewrite Hr. cbn [bind].
      rewrite <- (Hk9 k Hkb).
      rewrite true_divide_ten_thousandths by exact Hk.
      destruct (k =? 0); [reflexivity|].
      destruct (finite_or_overflow (div_pos false k 10000)); reflexivity.
Qed.

(** Up to 2^30 degrees the conversion is exact to the last place: it is
    the quotient by 10000 of the integer nearest to 10000 times the angle,
    negated in the south and in the west. *)
Theorem deg_to_dec_closed_form d m s h :
  0 <= d -> 0 <= m -> 0 <= s -> 3600 * d + 60 * m + s <= 3600 * 2 ^ 30 ->
  deg_to_dec d m s h
  = (x <- true_divide (ten_thousandths (3600 * d + 60 * m + s)) 10000 ;;
     Ok (if south_or_west h then neg x else x)).
Proof.
  intros Hd Hm Hs HN. destruct (south_or_west h) eqn:Hh.
  - rewrite (deg_to_dec_flip d m s h [] Hh eq_refl).
    rewrite (deg_to_dec_closed_pos d m s [] Hd Hm Hs HN eq_refl). reflexivity.
  - rewrite (deg_to_dec_closed_pos d m s h Hd Hm Hs HN Hh).
    destruct (true_divide _ 10000); reflexivity.
Qed.

Lemma deg_to_dec_closed_form_example :
  deg_to_dec 33 52 4 (py "S")
  = (x <- true_divide (ten_thousandths (3600 * 33 + 60 * 52 + 4)) 10000 ;;
     Ok (if south_or_west (py "S") then neg x else x)).
Proof. apply (deg_to_dec_closed_form 33 52 4 (py "S")); lia. Defined.

(** Minutes and seconds are not held below 60: up to 2^30 degrees, two
    triples that make the same number of seconds of arc convert to the
    same float. *)
Theorem same_arc_same_float d m s d' m' s' h :
  0 <= d -> 0 <= m -> 0 <= s -> 0 <= d' -> 0 <= m' -> 0 <= s' ->
  3600 * d + 60 * m + s <= 3600 * 2 ^ 30 ->
  3600 * d + 60 * m + s = 3600 * d' + 60 * m' + s' ->
  deg_to_dec d m s h = deg_to_dec d' m' s' h.
Proof.
  intros Hd Hm Hs Hd' Hm' Hs' HN HE.
  destruct (south_or_west h) eqn:Hh.
  - rewrite (deg_to_dec_flip d m s h [] Hh eq_refl).
    rewrite (deg_to_dec_flip d' m' s' h [] Hh eq_refl).
    rewrite (deg_to_dec_closed_pos d m s [] Hd Hm Hs HN eq_refl).
    rewrite (deg_to_dec_closed_pos d' m' s' []) by (try assumption; try reflexivity; lia).
    rewrite HE. reflexivity.
  - rewrite (deg_to_dec_closed_pos d m s h Hd Hm Hs HN Hh).
    rewrite (deg_to_dec_closed_pos d' m' s' h) by (try assumption; lia).
    rewrite HE. reflexivity.
Qed.

Lemma same_arc_same_float_example :
  deg_to_dec 12 90 75 (py "E") = deg_to_dec 13 31 15 (py "E").
Proof. apply same_arc_same_float; lia. Defined.

(* ================================================================= *)
(** * Occurrences *)


Lemma startswith_refl p : startswith p p = true.
Proof. rewrite <- (app_nil_r p) at 2. apply startswith_app. Qed.

(** A prefix found in [a ++ t] lies in [a] or runs over its end. *)
Lemma startswith_app_cases p a t :
  startswith p (a ++ t) = true ->
  startswith p a = true \/ exists q, p = a ++ q /\ startswith q t = true.
Proof.
  revert a. induction p as [|c p IH]; intros a H; [left; reflexivity|].
  destruct a as [|x a].
  - right. exists (c :: p). split; [reflexivity|exact H].
  - cbn [app] in H. rewrite startswith_cons in H.
    apply andb_true_iff in H. destruct H as [Hx H]. apply N.eqb_eq in Hx. subst x.
    destruct (IH a H) as [Ha|(q & -> & Hq)].
    + left. rewrite startswith_cons, N.eqb_refl. exact Ha.
    + right. exists q. split; [reflexivity|exact Hq].
Qed.

(** A separator whose first character comes once cannot run over the end
    of a text into a copy of that character. *)
Lemma no_straddle sep a c t :
  a <> [] -> startswith sep a = false -> ~ In c (tl sep) ->
  startswith sep (a ++ c :: t) = false.
Proof.
  intros Ha Hs Hc. destruct (startswith sep (a ++ c :: t)) eqn:E; [|reflexivity].
  exfalso. apply startswith_app_cases in E. destruct E as [E|(q & Hsep & Hq)].
  - congruence.
  - destruct q as [|y q].
    + rewrite app_nil_r in Hsep. subst sep. rewrite startswith_refl in Hs. discriminate.
    + rewrite startswith_cons in Hq. apply andb_true_iff in Hq. destruct Hq as [Hy _].
      apply N.eqb_eq in Hy. subst y. destruct a as [|x a]; [contradiction|].
      subst sep. cbn [tl app] in Hc. apply Hc. apply in_or_app. right. left. reflexivity.
Qed.

Lemma contains_cons_false sep x s :
  contains sep (x :: s) = false ->
  startswith sep (x :: s) = false /\ contains sep s = false.
Proof.
  unfold contains. rewrite partition_unfold.
  destruct (startswith sep (x :: s)); [discriminate|].
  destruct (partition sep s) as [[a b]|]; [discriminate|]. split; reflexivity.
Qed.

Lemma contains_suffix_false sep a b :
  contains sep (a ++ b) = false -> contains sep b = false.
Proof.
  induction a as [|x a IH]; intros H; [exact H|].
  apply IH. cbn [app] in H. apply contains_cons_false in H. tauto.
Qed.

Lemma contains_false_startswith sep s :
  contains sep s = false -> startswith sep s = false.
Proof.
  unfold contains. rewrite partition_unfold.
  destruct (startswith sep s); [discriminate|reflexivity].
Qed.




(* ================================================================= *)
(** * The description, the decoder in context, the resolver's outcomes *)



(** ** The decoder in context *)

Lemma run_COORD_RE_none i t c k :
  startswith (py "coord|") t = false -> run COORD_RE i t c k = None.
Proof. intros H. unfold COORD_RE. rewrite run_Seq, run_Lit, H. reflexivity. Qed.

Lemma search_from_skip pre :
  forall i t,
    contains (py "coord|") pre = false ->
    search_from COORD_RE i (pre ++ py "coord|" ++ t)
    = search_from COORD_RE (i + length pre) (py "coord|" ++ t).
Proof.
  induction pre as [|x pre IH]; intros i t H.
  - cbn [app length]. rewrite Nat.add_0_r. reflexivity.
  - pose proof (contains_cons_false _ _ _ H) as [Hs Hc].
    cbn [app search_from]. rewrite run_COORD_RE_none.
    + rewrite IH by exact Hc. cbn [length]. rewrite Nat.add_succ_r. reflexivity.
    + change (x :: pre ++ py "coord|" ++ t)
        with ((x :: pre) ++ 99%N :: py "oord|" ++ t).
      apply no_straddle; [discriminate|exact Hs|].
      vm_compute. intros Hin. repeat (destruct Hin as [Hin|Hin]; [discriminate|]).
      exact Hin.
Qed.

Lemma search_in_context pre post d1 m1 s1 h1 d2 m2 s2 h2 :
  contains (py "coord|") pre = false ->
  digit_run d1 -> digit_run m1 -> digit_run s1 -> In h1 (py "NS") ->
  digit_run d2 -> digit_run m2 -> digit_run s2 -> In h2 (py "EW") ->
  search COORD_RE (pre ++ directive d1 m1 s1 h1 d2 m2 s2 h2 ++ post)
  = Some [(2%nat, dms_text d2 m2 s2 h2); (1%nat, dms_text d1 m1 s1 h1)].
Proof.
  intros Hpre Hd1 Hm1 Hs1 Hh1 Hd2 Hm2 Hs2 Hh2. unfold search.
  pose proof (greedy_COORD_RE d1 m1 s1 h1 d2 m2 s2 h2 post
                Hd1 Hm1 Hs1 Hh1 Hd2 Hm2 Hs2 Hh2) as G.
  unfold directive in *. rewrite <- app_assoc in *.
  rewrite search_from_skip by exact Hpre.
  apply search_from_head. apply G. reflexivity.
Qed.

(** The first directive of a source is the one decoded: whatever comes
    before it, as long as it holds no "coord|", and whatever comes after
    it, other directives included, the decoder returns what it returns
    on the directive alone. *)
Theorem first_directive_decoded pre post d1 m1 s1 h1 d2 m2 s2 h2 :
  contains (py "coord|") pre = false ->
  digit_run d1 -> digit_run m1 -> digit_run s1 -> In h1 (py "NS") ->
  digit_run d2 -> digit_run m2 -> digit_run s2 -> In h2 (py "EW") ->
  coordinates_of_source (pre ++ directive d1 m1 s1 h1 d2 m2 s2 h2 ++ post)
  = coordinates_of_source (directive d1 m1 s1 h1 d2 m2 s2 h2).
Proof.
  intros Hpre Hd1 Hm1 Hs1 Hh1 Hd2 Hm2 Hs2 Hh2. unfold coordinates_of_source.
  rewrite search_in_context, search_directive by assumption. reflexivity.
Qed.

Lemma first_directive_decoded_example :
  coordinates_of_source
    (py "{{Infobox|" ++
     directive (py "41") (py "53") (py "36") 78%N (py "12") (py "28") (py "58") 69%N ++
     py "}} {{coord|1|2|3|S|4|5|6|W}}")
  = coordinates_of_source
      (directive (py "41") (py "53") (py "36") 78%N (py "12") (py "28") (py "58") 69%N).
Proof.
  apply first_directive_decoded;
    try (split; [discriminate|reflexivity]); try reflexivity.
  - left; reflexivity.
  - left; reflexivity.
Defined.

(** ** The outcomes of the resolver *)

(** A link with a target that holds no "wiki/", or an empty list of
    targets, resolves to nothing and requests nothing.  A link whose
    lookup goes to [url] resolves to nothing when the endpoint raises an
    HTTP error or answers with another status than 200, whatever the
    body; it raises what the endpoint raises otherwise; and on status 200
    it returns what the decoder returns on the source. *)
Theorem resolver_outcomes w link log :
  (forall href, get_item link (py "href") = Ok href -> lookup_url link = None ->
     get_wikilink_coordinates w link log = (Ok None, log))
  /\ (forall url, lookup_url link = Some url ->
        (forall code, lookup w url = Fails (HTTPError code) ->
           get_wikilink_coordinates w link log = (Ok None, log ++ [url]))
        /\ (forall e, lookup w url = Fails e -> (forall code, e <> HTTPError code) ->
              get_wikilink_coordinates w link log = (Raise e, log ++ [url]))
        /\ (forall status source, lookup w url = Responds status source ->
              status <> 200 ->
              get_wikilink_coordinates w link log = (Ok None, log ++ [url]))
        /\ (forall data r, lookup w url = Responds 200 (Ok data) ->
              coordinates_of_source data = Ok r ->
              get_wikilink_coordinates w link log = (Ok r, log ++ [url]))).
Proof.
  unfold lookup_url, get_wikilink_coordinates, mbind, lift, ret.
  destruct (get_item link (py "href")) as [href|e0].
  2:{ split; [discriminate|]. intros url H. discriminate. }
  destruct href as [p|[|p l]]; cbv beta iota zeta.
  all: destruct (contains (py "wiki/") _); cbn [negb];
    [|split; [reflexivity|]; intros url H; discriminate].
  all: match goal with
       | |- context [index_last (split _ ?p)] =>
           destruct (split_last (py "wiki/") (length p) ltac:(discriminate) p (le_n _))
             as [[_ Ht]|(pre & title & _ & _ & Ht)]
       end; rewrite Ht.
  all: split; [discriminate|]; intros url H;
    match type of H with
    | Some (_ ++ ?t) = _ => assert (Hurl : url = WIKI_API ++ t) by congruence
    end; clear H; subst url;
    unfold except_HTTPError, urlopen;
    (split; [|split; [|split]]);
    [ intros code Hl; rewrite Hl; reflexivity
    | intros e Hl He; rewrite Hl; destruct e; try reflexivity;
      exfalso; exact (He code eq_refl)
    | intros status source Hl Hs; rewrite Hl;
      destruct (Z.eqb_spec status 200); [contradiction|]; reflexivity
    | intros data r Hl Hr; rewrite Hl, Hr; reflexivity ].
Qed.

(* ================================================================= *)
(** * What the decoder reads *)













(* ================================================================= *)
(** * What a day can raise *)

Lemma node_induction (P : node -> Prop) :
  (forall s, P (NavigableString s)) ->
  (forall name attrs kids, Forall P kids -> P (Tag name attrs kids)) ->
  forall n, P n.
Proof.
  intros Hs Ht. fix IH 1. intros [s|name attrs kids]; [apply Hs|].
  apply Ht. induction kids as [|k kids IHk]; constructor; [apply IH|exact IHk].
Qed.




Section Raises.

Variable w : world.





End Raises.



(** ** The citations *)

Lemma is_tag_decompose name name' n :
  is_tag name (decompose_all name' n) = is_tag name n.
Proof. destruct n; reflexivity. Qed.

(** Once the citations of an entry are removed, none is left at any
    depth: no link below a [sup] is looked up or counted. *)
Theorem no_citation_left name n : select name (decompose_all name n) = [].
Proof.
  induction n as [s|nm attrs kids IH] using node_induction; [reflexivity|].
  cbn [decompose_all select]. induction kids as [|k kids IHk]; [reflexivity|].
  inversion IH as [|k' kids' Hk Hkids]; subst.
  destruct (is_tag name k) eqn:Ek.
  - apply IHk. exact Hkids.
  - cbn [flat_map]. rewrite is_tag_decompose, Ek, Hk. cbn [app].
    apply IHk. exact Hkids.
Qed.

(** ** Examples on [mixed_world] *)

Lemma mixed_day_eq :
  get_events_on_day mixed_world (py "July") 4 [] = (Ok (4, mixed_events), snd mixed_day).
Proof. vm_compute. reflexivity. Qed.

Lemma requests_in_document_order_example :
  snd mixed_day
  = [] ++ day_url (py "July") 4
          :: flat_map requests_of (flat_map links_of (filter is_event_item mixed_items)).
Proof.
  apply (requests_in_document_order mixed_world (py "July") 4 mixed_items [] 4
           mixed_events).
  - reflexivity.
  - exact mixed_day_eq.
Defined.

Lemma events_in_document_order_example :
  mixed_events
  = map (with_date (py "July") 4)
      (flat_map (entry_events mixed_world) (filter is_event_item mixed_items)).
Proof.
  apply (events_in_document_order mixed_world (py "July") 4 mixed_items [] 4
           mixed_events (snd mixed_day)).
  - reflexivity.
  - exact mixed_day_eq.
Defined.

Lemma count_bounds_example :
  Z.of_nat (length mixed_events) <= 4 - 1
  /\ Z.of_nat (length (snd mixed_day)) - Z.of_nat (length (@nil str)) <= 4.
Proof.
  apply (count_bounds_events_and_requests mixed_world (py "July") 4 [] 4
           mixed_events (snd mixed_day)).
  exact mixed_day_eq.
Defined.

Lemma day_returns_example :
  forallb (entry_resolves mixed_world) (filter is_event_item mixed_items) = true.
Proof.
  apply (day_returns_only_if_all_resolve mixed_world (py "July") 4 mixed_items [] 4
           mixed_events (snd mixed_day)).
  - reflexivity.
  - exact mixed_day_eq.
Defined.
